(** * Nest-Common: the CRUD scaffolding layer, embedded and verified

    The development follows the TypeScript sources:
    - [crud.decorator.ts]   the [Crud] decorator and the handlers of [CrudHost];
    - [base.service.ts]     [BaseService], the thin wrapper over the repository;
    - [readonly.decorator.ts] and the [CrudEntityInterceptor];
    - [query-filter.util.ts] [QueryFilterUtil.parseQueryFilters];
    - [dto-factory.util.ts] [DtoFactory.createDtos].

    JavaScript objects are finite maps from property names to values; the
    handlers run in a small state-and-exception monad over the repository's
    rows and a log of the calls that reach the data layer. *)

From Stdlib Require Import ZArith Lia Ascii String.
From Stdlib Require Import Floats.SpecFloat.
From stdpp Require Import gmap strings list fin_maps pretty.

Open Scope Z_scope.

(** ** JavaScript values *)

(** Numbers as the handlers meet them: identifiers, bounds, page numbers and
    row counts, that is integers, and [NaN] for a string that is no number. *)
Inductive jsnum := JNaN | JNum (z : Z).

(** A [Date] is a time value in milliseconds, or the invalid date. *)
Inductive jsdate := InvalidDate | DateMs (ms : Z).

(** A driver [ObjectId], named by its hexadecimal string. *)
Inductive objectid := OID (hex : string).

Inductive prim :=
| PUndef
| PNull
| PBool (b : bool)
| PNum (n : jsnum)
| PStr (s : string)
| PDate (d : jsdate)
| POid (o : objectid).

#[global] Instance jsnum_eq_dec : EqDecision jsnum.
Proof. solve_decision. Defined.
#[global] Instance jsdate_eq_dec : EqDecision jsdate.
Proof. solve_decision. Defined.
#[global] Instance objectid_eq_dec : EqDecision objectid.
Proof. solve_decision. Defined.
#[global] Instance prim_eq_dec : EqDecision prim.
Proof. solve_decision. Defined.

(** [isNaN] on a number. *)
Definition isNaN (n : jsnum) : bool :=
  match n with JNaN => true | JNum _ => false end.

(** JavaScript truthiness, as [!v], [v || w] and [if (v)] read it. *)
Definition truthy (v : prim) : bool :=
  match v with
  | PUndef | PNull => false
  | PBool b => b
  | PNum JNaN => false
  | PNum (JNum z) => negb (z =? 0)
  | PStr s => negb (String.eqb s "")
  | PDate _ | POid _ => true
  end.

(** An entity instance, a request body and a plain object are all objects
    with primitive fields. *)
Abbreviation obj := (gmap string prim).

(** One condition of a [FilterQuery]: a value to compare with, or an operator
    object such as [{ $gte: 1, $lte: 9 }]. *)
Inductive cond := CVal (v : prim) | CObj (ops : obj).

#[global] Instance cond_eq_dec : EqDecision cond.
Proof. solve_decision. Defined.

Abbreviation where_ := (gmap string cond).

(** What a possibly asynchronous callback hands back: the value itself, or a
    promise that resolves to it. *)
Inductive awaitable (A : Type) := Now (a : A) | Promise (a : A).
Arguments Now {A} a.
Arguments Promise {A} a.

(** [await v]. *)
Definition await {A} (v : awaitable A) : A :=
  match v with Now a | Promise a => a end.

(** The [where] argument as the repository receives it: a filter object, or,
    when a caller passes on what an [async] callback returned without
    awaiting it, the promise itself. *)
Inductive where_arg := Plain (w : where_) | Pending (w : option where_).

(** ** Numbers in arithmetic *)

(** Where a handler computes with what the request brought, in
    [page * limit] and [total / limit], a number is what a JavaScript number
    is: an IEEE 754 binary64 value, with its two zeros, its infinities and
    [NaN]. *)
Definition number := spec_float.

(** The number nearest to an integer: the integer itself up to [2^53]. *)
Definition number_of_Z (z : Z) : number := binary_normalize 53 1024 z 0 false.

(** [x * y] and [x / y] *)
Definition times (x y : number) : number := SFmul 53 1024 x y.
Definition divided_by (x y : number) : number := SFdiv 53 1024 x y.

(** The integer that a number is, when it is one. *)
Definition integer_value (x : number) : option Z :=
  match x with
  | S754_zero _ => Some 0
  | S754_finite s m e =>
      let v := if s then Z.neg m else Z.pos m in
      if 0 <=? e then Some (v * 2 ^ e)
      else if v mod 2 ^ (- e) =? 0 then Some (v / 2 ^ (- e))
      else None
  | S754_infinity _ | S754_nan => None
  end.

(** [Math.ceil(x)]: a fraction between -1 and 0 goes to the negative
    zero. *)
Definition Math_ceil (x : number) : number :=
  match x with
  | S754_finite s m e =>
      if 0 <=? e then x
      else
        let v := if s then Z.neg m else Z.pos m in
        let c := - ((- v) / 2 ^ (- e)) in
        if c =? 0 then S754_zero s else number_of_Z c
  | _ => x
  end.

(** What [@Query('page')] and [@Query('limit')] hand to the handler: nothing
    when the parameter is absent, else the string of the query string, or a
    number when a pipe of the host application has converted it. *)
Inductive query_value :=
| QUndefined
| QString (s : string)
| QNumber (n : number).

(** Truthiness of such a value, as [!limit] reads it: the empty string, the
    two zeros and [NaN] are falsy. *)
Definition truthy_query (v : query_value) : bool :=
  match v with
  | QUndefined => false
  | QString s => negb (String.eqb s "")
  | QNumber (S754_zero _) | QNumber S754_nan => false
  | QNumber _ => true
  end.

(** An [offset] or a [limit] as the data layer receives it: a number that
    is an integer, or any other value. *)
Inductive quantity :=
| Whole (n : Z)
| NotWhole (v : query_value).

Definition quantity_of (v : query_value) : quantity :=
  match v with
  | QNumber n => match integer_value n with
                 | Some z => Whole z
                 | None => NotWhole v
                 end
  | _ => NotWhole v
  end.

(** ** The request *)

Record request := {
  req_params : gmap string string;
  req_accept : option string;
  req_fetched : option obj   (* req[FETCHED_ENTITY_KEY] *)
}.

Definition set_fetched (e : obj) (r : request) : request :=
  {| req_params := req_params r; req_accept := req_accept r;
     req_fetched := Some e |}.

(** ** The world a handler runs in *)

Inductive order := ASC | DESC.

Record find_options := {
  fo_offset : option quantity;
  fo_limit : option quantity;
  fo_orderBy : option (list (string * order))
}.

(** Calls that reach the repository or the event emitter, in the order they
    are made. *)
Inductive call :=
| FindOne (w : where_arg)
| Find (w : where_arg) (o : find_options)
| FindAndCount (w : where_arg) (o : find_options)
| NativeDelete (w : where_arg)
| Flush (changed : obj)
| Emit (name : string) (payload : option obj).

Record world := {
  rows : list obj;          (* the table, in storage order *)
  calls : list call         (* newest last *)
}.

Inductive exn :=
| NotFoundException (msg : string)
| BadRequestException (msg : string)
| BSONError                 (* thrown by [new ObjectId(s)] *)
| TypeError.                (* [Object.assign(null, ...)] *)

Inductive outcome (A : Type) := Return (a : A) | Throw (e : exn).
Arguments Return {A} a.
Arguments Throw {A} e.

Definition M (A : Type) : Type := world → outcome A * world.

#[global] Instance M_ret : MRet M := λ A a w, (Return a, w).
#[global] Instance M_bind : MBind M := λ A B k m w,
  match m w with
  | (Return a, w') => k a w'
  | (Throw e, w') => (Throw e, w')
  end.

Definition throw {A} (e : exn) : M A := λ w, (Throw e, w).

Definition record_call (c : call) : M unit :=
  λ w, (Return tt, {| rows := rows w; calls := calls w ++ [c] |}).
Definition get_rows : M (list obj) := λ w, (Return (rows w), w).
Definition put_rows (rs : list obj) : M unit :=
  λ w, (Return tt, {| rows := rs; calls := calls w |}).

(** ** Schema metadata (read from the mapping layer and from reflection) *)

(** Constructors that the sources compare types with. [ObjectId_] is the
    export of [@mikro-orm/mongodb], [MongoObjectId_] the one of [mongodb]. *)
Inductive ctor :=
| String_ | Number_ | Boolean_ | Date_ | Array_
| ObjectId_ | MongoObjectId_
| Class_ (name : string).

#[global] Instance ctor_eq_dec : EqDecision ctor.
Proof. solve_decision. Defined.

(** [prop.type] is a type name or a constructor. *)
Inductive type_ref := TName (s : string) | TCtor (c : ctor).

#[global] Instance type_ref_eq_dec : EqDecision type_ref.
Proof. solve_decision. Defined.

Record EntityProperty := {
  name : string;
  type : option type_ref;
  primary : bool;
  persist : option bool;        (* [Some false] is [persist === false] *)
  autoincrement : bool;
  onCreate : bool;              (* a hook is present *)
  onUpdate : bool;
  version : bool;
  array : bool;
  nullable : bool;
  enum : bool;
  items : option (list prim);   (* the values, a thunk already forced *)
  columnTypes : list string;
  integer : bool
}.

(** [meta.properties], in insertion order; [meta.properties[key]] is the
    property of that name. *)
Record EntityMetadata := {
  primaryKeys : list string;
  properties : list EntityProperty
}.

Definition property_of (meta : EntityMetadata) (key : string)
  : option EntityProperty :=
  List.find (λ p, String.eqb (name p) key) (properties meta).

(** ** Classes as reflection shows them *)

(** A property descriptor of a prototype: is there a getter, and is
    [writable] true (it is [undefined], hence false, on an accessor). *)
Record descriptor := { has_get : bool; writable : bool }.

(** class-transformer: the class-level strategy and the per-property
    [@Expose] and [@Exclude] records. *)
Inductive strategy := excludeAll | exposeAll | none.

#[global] Instance strategy_eq_dec : EqDecision strategy.
Proof. solve_decision. Defined.

Record ExposeMetadata := {
  expose_propertyName : option string;
  expose_toPlainOnly : bool;
  expose_name : option string            (* [options.name] *)
}.

Record ExcludeMetadata := {
  exclude_propertyName : option string;
  exclude_toPlainOnly : bool
}.

(** What is stored on a class constructor and on its prototype. The [own_]
    fields hold metadata defined on this very prototype. *)
Record class_info := {
  class_name : string;
  getStrategy : option strategy;                  (* undefined when unset *)
  getExposedMetadatas : list ExposeMetadata;
  getExcludedMetadatas : list ExcludeMetadata;
  findTypeMetadata : gmap string (option ctor);   (* [typeFunction()] *)
  own_swagger_array : option (list string);       (* apiModelPropertiesArray *)
  own_swagger_readOnly : gmap string bool;        (* apiModelProperties.readOnly *)
  own_readonly : gset string;                     (* custom:readonly is true *)
  own_design_type : gmap string ctor;             (* design:type *)
  own_properties : list (string * descriptor);    (* getOwnPropertyNames *)
  orm_metadata : option EntityMetadata            (* getMetadataFromDecorator *)
}.

(** A class is a base class or extends another one. *)
Inductive class_ :=
| Base (c : class_info)
| Extends (c : class_info) (parent : class_).

Definition info (c : class_) : class_info :=
  match c with Base i | Extends i _ => i end.

(** [Object.getPrototypeOf(cls)], when that is still a class. *)
Definition super (c : class_) : option class_ :=
  match c with Base _ => None | Extends _ p => Some p end.

(** [Reflect.getMetadata(key, cls.prototype, ...)]: the nearest definition
    along the prototype chain. *)
Fixpoint getMetadata {A} (own : class_info → option A) (c : class_)
  : option A :=
  match c with
  | Base i => own i
  | Extends i p => match own i with
                   | Some a => Some a
                   | None => getMetadata own p
                   end
  end.

(** ** Validation and documentation metadata of DTO classes *)

Inductive rule :=
| IsString | IsInt | IsNumber | IsBoolean | IsDate
| IsEnum (values : list prim)
| IsArray
| IsOptional
| IsNotEmpty.

#[global] Instance rule_eq_dec : EqDecision rule.
Proof. solve_decision. Defined.

(** A DTO class is known by the number it got when it was created. *)
Abbreviation dto := nat (only parsing).

(** One entry of class-validator's metadata storage. *)
Record ValidationMetadata := {
  vm_target : dto;
  vm_propertyName : option string;
  vm_rule : rule;
  vm_each : option bool
}.

#[global] Instance ValidationMetadata_eq_dec : EqDecision ValidationMetadata.
Proof. solve_decision. Defined.

(** The options of an [@ApiProperty]. *)
Record ApiOptions := {
  api_type : option ctor;
  api_isArray : bool;
  api_enum : option (list prim);
  api_enumName : option string;
  api_required : bool
}.

(** class-validator files a rule as a conditional validation ([IsOptional])
    or as a custom validation (the others here). *)
Inductive validation_type := conditionalValidation | customValidation.

#[global] Instance validation_type_eq_dec : EqDecision validation_type.
Proof. solve_decision. Defined.

Definition type_of_rule (r : rule) : validation_type :=
  match r with
  | IsOptional => conditionalValidation
  | _ => customValidation
  end.

(** The metadata storages of class-validator, swagger and class-transformer
    for the DTO classes, and the classes created so far. *)
Record registry := {
  next_dto : dto;
  dto_names : list (dto * string);
  dto_extends : list (dto * dto);                 (* class, its parent *)
  validationMetadatas : list ValidationMetadata;  (* in order of registration *)
  apiModelProperties : list (dto * string * ApiOptions);
  typeMetadatas : list (dto * string * ctor)
}.

(** ** The options of [@Crud] *)

(** [operations.query]: [false], or an object with optional [pagination]
    and [sort]. *)
Inductive query_operation :=
| QueryOff
| QueryConfig (pagination : option bool) (sort : option (list (string * order))).

Record CrudOptions := {
  tag : option string;
  entity : class_;
  createDto : option dto;
  updateDto : option dto;
  filter : option (request → gmap string string → awaitable (option where_));
  operations_query : option query_operation
}.

(** ** [EntityNameUtil] *)

Definition is_space (c : ascii) : bool :=
  let n := nat_of_ascii c in
  ((n =? 32) || ((9 <=? n) && (n <=? 13)))%nat.

Fixpoint trim_start (l : list ascii) : list ascii :=
  match l with
  | c :: l' => if is_space c then trim_start l' else l
  | [] => []
  end.

(** [route.replace(/-/g, ' ').replace(/s$/, '').trim()] *)
Definition routeToName (route : string) : string :=
  let dashed := (λ c, if Ascii.eqb c "-" then " "%char else c)
                  <$> list_ascii_of_string route in
  let cut := match rev dashed with
             | c :: r => if Ascii.eqb c "s" then rev r else dashed
             | [] => dashed
             end in
  string_of_list_ascii (rev (trim_start (rev (trim_start cut)))).

(** [EntityNameUtil.getName(route)] with a class name for the route, as the
    handlers call it; a falsy (empty) name gives ['item']. *)
Definition getName (route : string) : string :=
  if String.eqb route "" then "item" else routeToName route.

Definition not_found_message (opts : CrudOptions) : string :=
  getName (class_name (info (entity opts))) +:+ " not found".

(** ** [Crud]: the primary key and its type, resolved at registration *)

Definition is_ObjectId_type (t : option type_ref) : bool :=
  match t with
  | Some (TName s) => String.eqb s "ObjectId"
  | Some (TCtor ObjectId_) | Some (TCtor MongoObjectId_) => true
  | _ => false
  end.

Definition is_number_type (t : option type_ref) : bool :=
  match t with
  | Some (TName s) => String.eqb s "number"
  | Some (TCtor Number_) => true
  | _ => false
  end.

Definition design_type (c : class_) (prop : string) : option ctor :=
  getMetadata (λ i, own_design_type i !! prop) c.

Definition primaryKey (opts : CrudOptions) : string :=
  match orm_metadata (info (entity opts)) with
  | Some meta => match primaryKeys meta with
                 | pk :: _ => pk
                 | [] => "id"
                 end
  | None => "id"
  end.

Definition primaryKeyType (opts : CrudOptions) : ctor :=
  match orm_metadata (info (entity opts)) with
  | Some meta =>
      match primaryKeys meta with
      | pk :: _ =>
          match property_of meta pk with
          | Some prop =>
              if is_ObjectId_type (type prop) then ObjectId_
              else if is_number_type (type prop) then Number_
              else default String_ (design_type (entity opts) pk)
          | None => String_
          end
      | [] => String_
      end
  | None => String_
  end.

(** [queryUsesPagination] *)
Definition queryUsesPagination (opts : CrudOptions) : bool :=
  match operations_query opts with
  | Some QueryOff => false
  | Some (QueryConfig (Some false) _) => false
  | _ => true
  end.

(** [orderBy[s.field] = s.order] for each entry of [sort]: a later entry for
    a field replaces the order of the earlier one, in its place. *)
Fixpoint set_order (field : string) (o : order) (l : list (string * order))
  : list (string * order) :=
  match l with
  | [] => [(field, o)]
  | (f, o') :: l' => if String.eqb f field then (f, o) :: l'
                     else (f, o') :: set_order field o l'
  end.

Definition orderBy_of (opts : CrudOptions) : option (list (string * order)) :=
  match operations_query opts with
  | Some (QueryConfig _ (Some sort)) =>
      Some (foldl (λ acc s, set_order s.1 s.2 acc) [] sort)
  | _ => None
  end.

(** ** Strings *)

(** [s.toLowerCase()] on ASCII letters. *)
Definition lower_char (c : ascii) : ascii :=
  let n := nat_of_ascii c in
  if ((65 <=? n) && (n <=? 90))%nat then ascii_of_nat (n + 32) else c.

Fixpoint toLowerCase (s : string) : string :=
  match s with
  | EmptyString => EmptyString
  | String c s' => String (lower_char c) (toLowerCase s')
  end.

(** [s.includes(sub)] *)
Fixpoint includes (sub s : string) : bool :=
  String.prefix sub s ||
  match s with
  | EmptyString => false
  | String _ s' => includes sub s'
  end.

(** The own enumerable properties that a spread copies out of a string: its
    characters under their indices. *)
Fixpoint string_entries (i : nat) (s : string) : obj :=
  match s with
  | EmptyString => ∅
  | String c s' => <[pretty i := PStr (String c EmptyString)]> (string_entries (S i) s')
  end.

(** [{ ...(c || {}) }] for the condition [c] stored under a key, when there
    is one: a falsy value gives way to [{}]; a number, a boolean or a date
    has nothing to copy, and an [ObjectId] keeps its bytes under a symbol. *)
Definition spread_or_empty (c : option cond) : obj :=
  match c with
  | None => ∅
  | Some (CObj ops) => ops
  | Some (CVal (PStr s)) => string_entries 0 s
  | Some (CVal _) => ∅
  end.

(** An entry of a filter configuration: a flag, or a function that builds
    the filter from the query value. *)
Inductive filter_config := Flag (b : bool) | Custom (f : string → where_).

(** ** The service that a controller holds *)

Record BaseService := {
  slug : string;            (* [EntityNameUtil.classToSlug(entityName)] *)
  eventEmitter : bool       (* was an emitter injected? *)
}.

(** [PaginationDto] *)
Record PaginationDto := {
  pg_data : list obj;
  pg_total : Z;
  pg_page : query_value;
  pg_limit : query_value;
  pg_totalPages : number
}.

Inductive query_result :=
| Paginated (p : PaginationDto)
| Listed (items : list obj).

(** The first row that satisfies [P] is replaced by [f] of it. *)
Fixpoint update_first (P : obj → bool) (f : obj → obj) (l : list obj)
  : list obj :=
  match l with
  | [] => []
  | e :: l' => if P e then f e :: l' else e :: update_first P f l'
  end.

(** The states of the [generateData] generator of [export], between two
    resumptions: about to test the loop condition, in the middle of the
    [for ... of items] loop, or returned. *)
Inductive gen_state :=
| LoopHead (page : Z)
| Yielding (page : Z) (rest : list obj) (fetched : nat)
| Finished.

Definition batchSize : Z := 500.

(** A chunk that [generateJson] yields: a literal, or [JSON.stringify] of an
    item. *)
Inductive chunk := Lit (s : string) | Stringified (item : obj).

(** What [export] pipes into the response: the chunks of [generateJson], or
    the items of [generateData] written to [new CsvTransform({ header: true })],
    whose output is piped on. What the transform makes of these items is the
    library's business and stays open here. *)
Inductive piped :=
| Chunks (cs : list chunk)
| ThroughCsv (items : list obj).

Record response := {
  res_headers : list (string * string);
  res_piped : piped
}.

(** One documented query parameter ([ApiQueryOptions]). *)
Record ApiQueryOptions := {
  q_name : string;
  q_required : bool;
  q_type : string;
  q_description : option string
}.

(** ** [ApiPropertyUtil.processApiParams] *)

(** What [match[1]] holds when a match of [/:([^\/]+)/g] ends: the characters
    after the colon, of which there is at least one. *)
Definition matched (name : list ascii) : list (list ascii) :=
  match name with
  | [] => []
  | _ => [name]
  end.

(** The loop [while ((match = regex.exec(pathStr)) !== null)] over
    [/:([^\/]+)/g], one character at a time: outside a match a colon opens
    one, inside a match every character that is no slash belongs to it, and
    a slash or the end of the path ends it; a colon with nothing to take
    after it matches nothing. *)
Fixpoint scan_params (cur : option (list ascii)) (l : list ascii)
  : list (list ascii) :=
  match l with
  | [] => match cur with
          | Some name => matched name
          | None => []
          end
  | c :: rest =>
      match cur with
      | None => if Ascii.eqb c ":" then scan_params (Some []) rest
                else scan_params None rest
      | Some name =>
          if Ascii.eqb c "/" then matched name ++ scan_params None rest
          else scan_params (Some (name ++ [c])) rest
      end
  end.

(** The names that receive an [ApiParam] of type ['string'] for a path. *)
Definition path_params (pathStr : string) : list string :=
  string_of_list_ascii <$> scan_params None (list_ascii_of_string pathStr).

(** ** A runtime to run the handlers on examples *)

Definition digit (c : ascii) : option Z :=
  let n := nat_of_ascii c in
  if ((48 <=? n) && (n <=? 57))%nat then Some (Z.of_nat n - 48) else None.

Fixpoint decimal (acc : Z) (s : string) : option Z :=
  match s with
  | EmptyString => Some acc
  | String c s' => match digit c with
                   | Some d => decimal (10 * acc + d) s'
                   | None => None
                   end
  end.

(** Reads decimal numerals; the empty string is 0 and anything else is
    taken for [NaN]. *)
Definition sample_Number (s : string) : jsnum :=
  match decimal 0 s with
  | Some z => JNum z
  | None => JNaN
  end.

Definition is_hex (c : ascii) : bool :=
  let n := nat_of_ascii c in
  (((48 <=? n) && (n <=? 57)) || ((97 <=? n) && (n <=? 102))
   || ((65 <=? n) && (n <=? 70)))%nat.

(** Accepts the strings of 24 hexadecimal digits. *)
Definition sample_ObjectId (s : string) : option objectid :=
  if (String.length s =? 24)%nat && forallb is_hex (list_ascii_of_string s)
  then Some (OID s) else None.

(** Reads a numeral as a time value. *)
Definition sample_Date (s : string) : jsdate :=
  match sample_Number s with
  | JNum z => DateMs z
  | JNaN => InvalidDate
  end.

(** A mapping layer that reads a plain filter as equalities between
    fields and values, and a promise as no condition. *)
Definition sample_condition (e : obj) (kc : string * cond) : bool :=
  match kc.2 with
  | CVal v => bool_decide (e !! kc.1 = Some v)
  | CObj _ => false
  end.

Definition sample_matches (w : where_arg) (e : obj) : bool :=
  match w with
  | Plain f => forallb (sample_condition e) (map_to_list f)
  | Pending _ => true
  end.

Definition sample_sort (ob : list (string * order)) (rs : list obj) : list obj :=
  rs.

(** Reads decimal numerals as numbers, and anything else as [NaN]. *)
Definition sample_ToNumber (s : string) : number :=
  match decimal 0 s with
  | Some z => number_of_Z z
  | None => S754_nan
  end.

(** A data layer that returns no row when the offset or the limit is
    negative or no whole number. *)
Definition sample_window (o : find_options) (rs : list obj) : list obj := [].

(** An entity with a numeric key, a scoping callback that answers at once,
    and a table of three rows. *)
Definition plain_property (nm : string) (t : option type_ref) : EntityProperty :=
  {| name := nm; type := t; primary := false; persist := None;
     autoincrement := false; onCreate := false; onUpdate := false;
     version := false; array := false; nullable := false; enum := false;
     items := None; columnTypes := []; integer := false |}.

Definition key_property (nm : string) (t : option type_ref) : EntityProperty :=
  {| name := nm; type := t; primary := true; persist := None;
     autoincrement := true; onCreate := false; onUpdate := false;
     version := false; array := false; nullable := false; enum := false;
     items := None; columnTypes := []; integer := false |}.

Definition exposed_as (nm : string) : ExposeMetadata :=
  {| expose_propertyName := Some nm; expose_toPlainOnly := false;
     expose_name := None |}.

Definition Order_metadata : EntityMetadata :=
  {| primaryKeys := ["id"];
     properties := [key_property "id" (Some (TName "number"));
                    plain_property "owner" (Some (TName "string"));
                    plain_property "amount" (Some (TName "number"))] |}.

Definition Order : class_ :=
  Base {| class_name := "Order"; getStrategy := None;
          getExposedMetadatas := [exposed_as "id"; exposed_as "owner";
                                  exposed_as "amount"];
          getExcludedMetadatas := []; findTypeMetadata := ∅;
          own_swagger_array := None; own_swagger_readOnly := ∅;
          own_readonly := ∅; own_design_type := ∅;
          own_properties := [("constructor",
                              {| has_get := false; writable := true |})];
          orm_metadata := Some Order_metadata |}.

Definition owned_by (owner : string) : where_ := {[ "owner" := CVal (PStr owner) ]}.

Definition Order_options : CrudOptions :=
  {| tag := None; entity := Order; createDto := None; updateDto := None;
     filter := Some (λ _ _, Now (Some (owned_by "alice")));
     operations_query := None |}.

(** The same options with an [async] scoping callback. *)
Definition Order_options_async : CrudOptions :=
  {| tag := None; entity := Order; createDto := None; updateDto := None;
     filter := Some (λ _ _, Promise (Some (owned_by "alice")));
     operations_query := None |}.

Definition order_row (id : Z) (owner : string) (amount : Z) : obj :=
  {[ "id" := PNum (JNum id); "owner" := PStr owner;
     "amount" := PNum (JNum amount) ]}.

Definition Order_table : world :=
  {| rows := [order_row 1 "alice" 10; order_row 2 "bob" 20;
              order_row 3 "alice" 30];
     calls := [] |}.

Definition a_request : request :=
  {| req_params := ∅; req_accept := None; req_fetched := None |}.

Definition Order_service : BaseService :=
  {| slug := "order"; eventEmitter := true |}.

(** A document entity whose key [_id] is an [ObjectId]. *)
Definition Doc_metadata : EntityMetadata :=
  {| primaryKeys := ["_id"];
     properties := [key_property "_id" (Some (TName "ObjectId"));
                    plain_property "title" (Some (TName "string"))] |}.

Definition Doc : class_ :=
  Base {| class_name := "Doc"; getStrategy := None;
          getExposedMetadatas := [exposed_as "_id"; exposed_as "title"];
          getExcludedMetadatas := []; findTypeMetadata := ∅;
          own_swagger_array := None; own_swagger_readOnly := ∅;
          own_readonly := ∅; own_design_type := ∅;
          own_properties := [("constructor",
                              {| has_get := false; writable := true |})];
          orm_metadata := Some Doc_metadata |}.

Definition Doc_options : CrudOptions :=
  {| tag := None; entity := Doc; createDto := None; updateDto := None;
     filter := None; operations_query := None |}.

Definition Doc_table : world :=
  {| rows := [ {[ "_id" := POid (OID "0123456789abcdef01234567");
                  "title" := PStr "first" ]} ];
     calls := [] |}.

Definition request_with (key value : string) : request :=
  {| req_params := {[ key := value ]}; req_accept := None;
     req_fetched := None |}.

(** The schema of a class as its decorators leave it, before the mapping
    layer has collected the primary keys. *)
Definition declared (meta : EntityMetadata) : EntityMetadata :=
  {| primaryKeys := []; properties := properties meta |}.

Definition Doc_declared : class_ :=
  Base {| class_name := "Doc"; getStrategy := None;
          getExposedMetadatas := [exposed_as "_id"; exposed_as "title"];
          getExcludedMetadatas := []; findTypeMetadata := ∅;
          own_swagger_array := None; own_swagger_readOnly := ∅;
          own_readonly := ∅; own_design_type := ∅;
          own_properties := [("constructor",
                              {| has_get := false; writable := true |})];
          orm_metadata := Some (declared Doc_metadata) |}.

Definition Doc_options_declared : CrudOptions :=
  {| tag := None; entity := Doc_declared; createDto := None;
     updateDto := None; filter := None; operations_query := None |}.

(** Notes with a string key, each with its owner. *)
Definition Note_metadata : EntityMetadata :=
  {| primaryKeys := [];
     properties := [key_property "id" (Some (TName "string"));
                    plain_property "owner" (Some (TName "string"))] |}.

Definition Note : class_ :=
  Base {| class_name := "Note"; getStrategy := None;
          getExposedMetadatas := [exposed_as "id"; exposed_as "owner"];
          getExcludedMetadatas := []; findTypeMetadata := ∅;
          own_swagger_array := None; own_swagger_readOnly := ∅;
          own_readonly := ∅; own_design_type := ∅;
          own_properties := [("constructor",
                              {| has_get := false; writable := true |})];
          orm_metadata := Some Note_metadata |}.

Definition Note_options_async : CrudOptions :=
  {| tag := None; entity := Note; createDto := None; updateDto := None;
     filter := Some (λ _ _, Promise (Some (owned_by "alice")));
     operations_query := None |}.

Definition note_row (id owner : string) : obj :=
  {[ "id" := PStr id; "owner" := PStr owner ]}.

Definition Note_table : world :=
  {| rows := [note_row "n1" "alice"; note_row "n2" "bob"]; calls := [] |}.

Definition Note_service : BaseService :=
  {| slug := "note"; eventEmitter := false |}.

Definition array_property (nm : string) (t : option type_ref) : EntityProperty :=
  {| name := nm; type := t; primary := false; persist := None;
     autoincrement := false; onCreate := false; onUpdate := false;
     version := false; array := true; nullable := false; enum := false;
     items := None; columnTypes := []; integer := false |}.

(** An entity with a list of strings. *)
Definition Tagged_metadata : EntityMetadata :=
  {| primaryKeys := ["id"];
     properties := [key_property "id" (Some (TName "number"));
                    array_property "tags" (Some (TName "string"))] |}.

Definition Tagged : class_ :=
  Base {| class_name := "Tagged"; getStrategy := None;
          getExposedMetadatas := [exposed_as "id"; exposed_as "tags"];
          getExcludedMetadatas := []; findTypeMetadata := ∅;
          own_swagger_array := None; own_swagger_readOnly := ∅;
          own_readonly := ∅; own_design_type := ∅;
          own_properties := [("constructor",
                              {| has_get := false; writable := true |})];
          orm_metadata := Some Tagged_metadata |}.

(** A query string with bounds on [amount] and a substring for [owner]. *)
Definition a_query : gmap string string :=
  {[ "amount.min" := "5"; "amount.max" := "50"; "owner.contains" := "li" ]}.

Definition Order_filterConfig : list (string * filter_config) :=
  [("amount", Flag true); ("owner", Flag true)].


(** The options of [Order] with pagination switched off. *)
Definition Order_options_list : CrudOptions :=
  {| tag := None; entity := Order; createDto := None; updateDto := None;
     filter := Some (λ _ _, Now (Some (owned_by "alice")));
     operations_query := Some (QueryConfig (Some false) None) |}.

Section Runtime.

(** The JavaScript runtime and the libraries the code calls into. *)
Variable Number : string → jsnum.                  (* [Number(s)] *)
Variable new_ObjectId : string → option objectid.  (* [None]: it throws *)
Variable new_Date : string → jsdate.               (* [new Date(s)] *)
Variable instanceToPlain : obj → obj.              (* class-transformer *)

(** The mapping layer: which rows a [where] argument selects, and how an
    [orderBy] arranges them. *)
Variable matches : where_arg → obj → bool.
Variable sort_rows : list (string * order) → list obj → list obj.

(** What the data layer returns of the rows it has selected and ordered when
    the offset or the limit it is given is a negative number or no whole
    number at all. The data layer of this model answers every call. *)
Variable other_window : find_options → list obj → list obj.

(** The conversion of a string to a number that [*] and [/] apply to a
    string operand. *)
Variable ToNumber : string → number.

(** *** The repository *)

Definition select (w : where_arg) (rs : list obj) : list obj :=
  List.filter (matches w) rs.

Definition ordered (o : find_options) (rs : list obj) : list obj :=
  match fo_orderBy o with
  | Some ob => sort_rows ob rs
  | None => rs
  end.

(** An offset or a limit that is absent, or a whole number that is not
    negative. *)
Definition whole (q : option quantity) : option (option Z) :=
  match q with
  | None => Some None
  | Some (Whole k) => if 0 <=? k then Some (Some k) else None
  | Some (NotWhole _) => None
  end.

Definition window (o : find_options) (rs : list obj) : list obj :=
  match whole (fo_offset o), whole (fo_limit o) with
  | Some offset, Some limit =>
      let rs1 := match offset with
                 | Some k => drop (Z.to_nat k) rs
                 | None => rs
                 end in
      match limit with
      | Some k => take (Z.to_nat k) rs1
      | None => rs1
      end
  | _, _ => other_window o rs
  end.

Definition repository_find (w : where_arg) (o : find_options) : M (list obj) :=
  _ ← record_call (Find w o);
  rs ← get_rows;
  mret (window o (ordered o (select w rs))).

Definition repository_findAndCount (w : where_arg) (o : find_options)
  : M (list obj * Z) :=
  _ ← record_call (FindAndCount w o);
  rs ← get_rows;
  mret (window o (ordered o (select w rs)), Z.of_nat (length (select w rs))).

Definition repository_findOne (w : where_arg) : M (option obj) :=
  _ ← record_call (FindOne w);
  rs ← get_rows;
  mret (head (select w rs)).

Definition repository_nativeDelete (w : where_arg) : M Z :=
  _ ← record_call (NativeDelete w);
  rs ← get_rows;
  _ ← put_rows (List.filter (λ e, negb (matches w e)) rs);
  mret (Z.of_nat (length (select w rs))).

(** [Object.assign(result, data)] on a managed entity followed by [flush()]:
    the row of that entity takes the new field values. *)
Definition assign_and_flush (w : where_arg) (data : obj) : M unit :=
  rs ← get_rows;
  _ ← put_rows (update_first (matches w) (λ e, data ∪ e) rs);
  record_call (Flush data).

(** *** [BaseService] *)

Definition emit (svc : BaseService) (event : string) (payload : option obj)
  : M unit :=
  if eventEmitter svc then record_call (Emit (slug svc +:+ event) payload)
  else mret tt.

Definition service_findAll := repository_find.
Definition service_query := repository_findAndCount.
Definition service_findOne := repository_findOne.

Definition service_delete (svc : BaseService) (w : where_arg) : M Z :=
  read ← service_findOne w;
  _ ← emit svc ".deleted" read;
  repository_nativeDelete w.

Definition service_update (svc : BaseService) (w : where_arg) (data : obj)
  : M obj :=
  result ← service_findOne w;
  match result with
  | None => throw TypeError
  | Some e =>
      _ ← assign_and_flush w data;
      _ ← emit svc ".updated" (Some (data ∪ e));
      mret (data ∪ e)
  end.

(** *** The handlers of [CrudHost] *)

(** [options?.filter?.(req, params)]: [undefined] without a callback. *)
Definition call_filter (opts : CrudOptions) (req : request)
    (params : gmap string string) : awaitable (option where_) :=
  match filter opts with
  | Some f => f req params
  | None => Now None
  end.

(** [{ ...filter ?? {} }] on what the callback returned, not awaited: a
    promise is not nullish and has no own enumerable property to copy. *)
Definition spread_unawaited (f : awaitable (option where_)) : where_ :=
  match f with
  | Now (Some w) => w
  | Now None => ∅
  | Promise _ => ∅
  end.

(** [filter ?? {}] handed over as it is. *)
Definition pass_unawaited (f : awaitable (option where_)) : where_arg :=
  match f with
  | Now (Some w) => Plain w
  | Now None => Plain ∅
  | Promise r => Pending r
  end.

Definition parseId (opts : CrudOptions) (id : string) : M prim :=
  match primaryKeyType opts with
  | ObjectId_ | MongoObjectId_ =>
      match new_ObjectId id with
      | Some o => mret (POid o)
      | None => throw BSONError
      end
  | Number_ => mret (PNum (Number id))
  | _ => mret (PStr id)
  end.

(** [{ ...filter ?? {}, [primaryKey]: parseId(id) }] *)
Definition id_where (opts : CrudOptions) (req : request)
    (params : gmap string string) (id : string) : M where_arg :=
  let filter := call_filter opts req params in
  parsed ← parseId opts id;
  mret (Plain (<[primaryKey opts := CVal parsed]> (spread_unawaited filter))).

(** [{ [primaryKey]: result[primaryKey] }] *)
Definition key_where (opts : CrudOptions) (result : obj) : where_arg :=
  Plain {[ primaryKey opts := CVal (default PUndef (result !! primaryKey opts)) ]}.

(** The operand of [*] or [/] as a number. *)
Definition to_number (v : query_value) : number :=
  match v with
  | QUndefined => S754_nan
  | QString s => ToNumber s
  | QNumber n => n
  end.

Definition query (opts : CrudOptions) (req : request)
    (params : gmap string string) (page limit : query_value) : M query_result :=
  let filter := default ∅ (await (call_filter opts req params)) in
  let orderBy := orderBy_of opts in
  if queryUsesPagination opts then
    let limit := if truthy_query limit then limit
                 else QNumber (number_of_Z 100) in
    let page := if truthy_query page then page
                else QNumber (number_of_Z 0) in
    '(data, total) ← service_query (Plain filter)
        {| fo_offset :=
             Some (quantity_of
                     (QNumber (times (to_number page) (to_number limit))));
           fo_limit := Some (quantity_of limit);
           fo_orderBy := orderBy |};
    mret (Paginated {| pg_data := data; pg_total := total; pg_page := page;
                       pg_limit := limit;
                       pg_totalPages :=
                         Math_ceil (divided_by (number_of_Z total)
                                      (to_number limit)) |})
  else
    items ← service_findAll (Plain filter)
        {| fo_offset := None; fo_limit := None; fo_orderBy := orderBy |};
    mret (Listed items).

Definition read (opts : CrudOptions) (req : request)
    (params : gmap string string) (id : string) : M obj :=
  w ← id_where opts req params id;
  result ← service_findOne w;
  match result with
  | None => throw (NotFoundException (not_found_message opts))
  | Some r => mret r
  end.

Definition delete_ (opts : CrudOptions) (svc : BaseService) (req : request)
    (params : gmap string string) (id : string) : M unit :=
  w ← id_where opts req params id;
  result ← service_findOne w;
  match result with
  | None => throw (NotFoundException (not_found_message opts))
  | Some r => _ ← service_delete svc (key_where opts r); mret tt
  end.

Definition replace (opts : CrudOptions) (svc : BaseService) (body : obj)
    (req : request) (params : gmap string string) (id : string) : M obj :=
  w ← id_where opts req params id;
  result ← service_findOne w;
  match result with
  | None => throw (NotFoundException (not_found_message opts))
  | Some r => service_update svc (key_where opts r) body
  end.

(** [Object.assign(target, source)] *)
Definition Object_assign (target source : obj) : obj := source ∪ target.

(** The loop that deletes every key whose value is [undefined]. *)
Definition delete_undefined (o : obj) : obj :=
  base.filter (λ kv, kv.2 ≠ PUndef) o.

Definition update (opts : CrudOptions) (svc : BaseService) (body : obj)
    (req : request) (params : gmap string string) (id : string) : M obj :=
  w ← id_where opts req params id;
  result ← service_findOne w;
  match result with
  | None => throw (NotFoundException (not_found_message opts))
  | Some r =>
      let toUpdateBody := delete_undefined (Object_assign ∅ body) in
      service_update svc (key_where opts r) toUpdateBody
  end.

(** *** [export]: the [generateData] generator, one resumption at a time *)

(** One resumption of the generator, with the value of [aborted] at that
    moment: the next state and the item it yields, if it yields. *)
Definition generateData_step (w : where_arg) (aborted : bool) (st : gen_state)
  : M (gen_state * option obj) :=
  match st with
  | LoopHead page =>
      if aborted then mret (Finished, None)
      else
        '(items, _) ← service_query w
            {| fo_offset := Some (Whole (page * batchSize));
               fo_limit := Some (Whole batchSize); fo_orderBy := None |};
        if decide (length items = 0%nat) then mret (Finished, None)
        else mret (Yielding page items (length items), None)
  | Yielding page (item :: rest) n =>
      mret (Yielding page rest n, Some (instanceToPlain item))
  | Yielding page [] n =>
      if Z.of_nat n <? batchSize then mret (Finished, None)
      else mret (LoopHead (page + 1), None)
  | Finished => mret (Finished, None)
  end.

(** The generator driven by its consumer. [closes] tells, for each
    resumption, whether the request's ['close'] event was delivered since the
    one before; the handler for it sets [aborted] for good. *)
Fixpoint generateData (w : where_arg) (closes : list bool) (aborted : bool)
    (st : gen_state) : M (list obj * gen_state) :=
  match closes with
  | [] => mret ([], st)
  | c :: cs =>
      let aborted := aborted || c in
      '(st', y) ← generateData_step w aborted st;
      '(ys, final) ← generateData w cs aborted st';
      mret (option_list y ++ ys, final)
  end.

(** [generateJson], which drives [generateData]: the chunks it has yielded
    when [generateData] has yielded [items] and is in the state [final]. The
    closing bracket follows the return of [generateData]. *)
Definition generateJson (items : list obj) (final : gen_state) : list chunk :=
  Lit "["
  :: match items with
     | [] => []
     | item :: rest =>
         Stringified item
         :: flat_map (λ item, [Lit ","; Stringified item]) rest
     end
  ++ match final with
     | Finished => [Lit "]"]
     | _ => []
     end.

(** [req.headers['accept'] === 'text/csv'] *)
Definition isCsv (req : request) : bool :=
  bool_decide (req_accept req = Some "text/csv").

(** The headers that [export] sets and the stream that it pipes into the
    response, for what [generateData] has yielded. *)
Definition export_response (opts : CrudOptions) (req : request)
    (items : list obj) (final : gen_state) : response :=
  if isCsv req then
    {| res_headers :=
         [("Content-Type", "text/csv");
          ("Content-Disposition",
           "attachment; filename=" +:+ default "export" (tag opts) +:+ ".csv")];
       res_piped := ThroughCsv items |}
  else
    {| res_headers := [("Content-Type", "application/json")];
       res_piped := Chunks (generateJson items final) |}.

(** [export]: the filter is taken from the callback without [await], and the
    generator starts at page 0 with [aborted] false. The consumer of the
    stream decides how often the generator is resumed. *)
Definition export (opts : CrudOptions) (req : request)
    (params : gmap string string) (closes : list bool)
  : M (response * gen_state) :=
  let filter := pass_unawaited (call_filter opts req params) in
  '(items, final) ← generateData filter closes false (LoopHead 0);
  mret (export_response opts req items final, final).

(** *** [CrudEntityInterceptor.intercept] *)

(** [new MongoObjectId(idValue)] inside [try ... catch]. *)
Definition parse_ObjectId (idValue : string) : M prim :=
  match new_ObjectId idValue with
  | Some o => mret (POid o)
  | None => throw (BadRequestException "Invalid ObjectId")
  end.

(** [Number(idValue)] followed by the [isNaN] test. *)
Definition parse_Number (idValue : string) : M prim :=
  let parsedId := Number idValue in
  if isNaN parsedId then throw (BadRequestException "Invalid ID")
  else mret (PNum parsedId).

(** [metadata?.primaryKeys[0] || 'id'] *)
Definition intercept_primaryKey (metadata : option EntityMetadata) : string :=
  match metadata with
  | Some m => match primaryKeys m with
              | pk :: _ => if String.eqb pk "" then "id" else pk
              | [] => "id"
              end
  | None => "id"
  end.

(** The block under [// Parse ID]. *)
Definition intercept_parse (metadata : option EntityMetadata)
    (opts : CrudOptions) (primaryKey idValue : string) : M prim :=
  match metadata ≫= (λ m, property_of m primaryKey) with
  | Some prop =>
      if is_ObjectId_type (type prop) then parse_ObjectId idValue
      else if is_number_type (type prop) then parse_Number idValue
      else mret (PStr idValue)
  | None =>
      match design_type (entity opts) primaryKey with
      | Some ObjectId_ | Some MongoObjectId_ => parse_ObjectId idValue
      | Some Number_ => parse_Number idValue
      | _ => mret (PStr idValue)
      end
  end.

(** The interceptor on a request. [options] is the metadata that [@Crud]
    left on the controller class, [metadata] what the entity manager knows of
    the entity. The result is the request that [next.handle()] receives. *)
Definition intercept (metadata : option EntityMetadata)
    (options : option CrudOptions) (req : request) : M request :=
  match options with
  | None => mret req
  | Some opts =>
      let params := req_params req in
      let primaryKey := intercept_primaryKey metadata in
      match params !! primaryKey with
      | None => mret req
      | Some idValue =>
          if String.eqb idValue "" then mret req
          else
            parsedId ← intercept_parse metadata opts primaryKey idValue;
            let filter :=
              match filter opts with
              | Some f => default ∅ (await (f req params))
              | None => ∅
              end in
            entity ← repository_findOne
                       (Plain (<[primaryKey := CVal parsedId]> filter));
            match entity with
            | None => throw (NotFoundException (not_found_message opts))
            | Some e => mret (set_fetched e req)
            end
      end
  end.

(** *** [QueryFilterUtil] *)

(** [getExposedNameMap(entity).toExposed] *)
Definition toExposed (entity : class_) : gmap string string :=
  foldl (λ acc m,
           match expose_propertyName m with
           | Some propertyName =>
               if String.eqb propertyName "" then acc
               else
                 let exposedName :=
                   match expose_name m with
                   | Some n => if String.eqb n "" then propertyName else n
                   | None => propertyName
                   end in
                 <[propertyName := exposedName]> acc
           | None => acc
           end)
        ∅ (getExposedMetadatas (info entity)).

(** [toExposed.get(key) || key] *)
Definition exposedName_of (entity : class_) (key : string) : string :=
  match toExposed entity !! key with
  | Some n => if String.eqb n "" then key else n
  | None => key
  end.

Definition isString (t : option type_ref) : bool :=
  bool_decide (t = Some (TName "string") ∨ t = Some (TCtor String_)).

Definition isNumber (t : option type_ref) : bool :=
  bool_decide (t = Some (TName "number") ∨ t = Some (TCtor Number_)).

Definition isDate (t : option type_ref) : bool :=
  match t with
  | Some (TName s) => String.eqb s "date" || includes "date" (toLowerCase s)
  | Some (TCtor Date_) => true
  | _ => false
  end.

Definition isBoolean (t : option type_ref) : bool :=
  bool_decide (t = Some (TName "boolean") ∨ t = Some (TCtor Boolean_)).

(** The value of a bound: [isNumber ? Number(v) : new Date(v)]. *)
Definition bound (t : option type_ref) (v : string) : prim :=
  if isNumber t then PNum (Number v) else PDate (new_Date v).

(** The [range] object built from [field.min] and [field.max]. *)
Definition range_of (t : option type_ref) (min max : option string) : obj :=
  let range : obj := ∅ in
  let range := match min with
               | Some v => <["$gte" := bound t v]> range
               | None => range
               end in
  match max with
  | Some v => <["$lte" := bound t v]> range
  | None => range
  end.

(** The body of the loop over [Object.entries(filterConfig)]. *)
Definition parse_entry (meta : EntityMetadata) (entity : class_)
    (query : gmap string string) (where' : where_)
    (entry : string * filter_config) : where_ :=
  let '(key, config) := entry in
  let exposedName := exposedName_of entity key in
  match config with
  | Flag false => where'
  | Custom f =>
      match query !! exposedName with
      | Some v => f v ∪ where'            (* Object.assign(where, customFilter) *)
      | None => where'
      end
  | Flag true =>
      match property_of meta key with
      | None => where'
      | Some prop =>
          let t := type prop in
          (* exact match *)
          let where' :=
            match query !! exposedName with
            | Some v =>
                if isNumber t then <[key := CVal (PNum (Number v))]> where'
                else if isBoolean t
                     then <[key := CVal (PBool (String.eqb v "true"))]> where'
                else if isDate t then <[key := CVal (PDate (new_Date v))]> where'
                else <[key := CVal (PStr v)]> where'
            | None => where'
            end in
          (* string contains *)
          let where' :=
            match query !! (exposedName +:+ ".contains") with
            | Some v =>
                if isString t
                then <[key := CObj (<["$like" := PStr ("%" +:+ v +:+ "%")]>
                                      (spread_or_empty (where' !! key)))]> where'
                else where'
            | None => where'
            end in
          (* min/max for numbers and dates *)
          let min := query !! (exposedName +:+ ".min") in
          let max := query !! (exposedName +:+ ".max") in
          if (isNumber t || isDate t) && (bool_decide (is_Some min) || bool_decide (is_Some max))
          then <[key := CObj (range_of t min max ∪ spread_or_empty (where' !! key))]> where'
          else where'
      end
  end.

Definition parseQueryFilters (query : gmap string string)
    (filterConfig : list (string * filter_config)) (entity : class_) : where_ :=
  match orm_metadata (info entity) with
  | None => ∅
  | Some meta => foldl (parse_entry meta entity query) ∅ filterConfig
  end.

(** *** [DtoFactory]: the excluded properties *)

(** The sets that the walk along the class chain fills in. *)
Record scan := {
  transformerStrategy : strategy;
  exposedTransformerProps : gset string;
  excludedTransformerProps : gset string;
  excluded : gset string
}.

Definition add_excluded (p : string) (st : scan) : scan :=
  {| transformerStrategy := transformerStrategy st;
     exposedTransformerProps := exposedTransformerProps st;
     excludedTransformerProps := excludedTransformerProps st;
     excluded := {[p]} ∪ excluded st |}.

Definition add_excluded_if (b : bool) (p : string) (st : scan) : scan :=
  if b then add_excluded p st else st.

(** [prop.startsWith(':') ? prop.substring(1) : prop] *)
Definition propertyKey_of (prop : string) : string :=
  match prop with
  | String ":" rest => rest
  | _ => prop
  end.

Definition own_descriptor (c : class_) (prop : string) : option descriptor :=
  snd <$> List.find (λ nd, String.eqb nd.1 prop) (own_properties (info c)).

(** [Reflect.getMetadata(READONLY_METADATA_KEY, cls.prototype, prop)] as a
    condition. *)
Definition readonly_metadata (c : class_) (prop : string) : bool :=
  default false
    (getMetadata (λ i, if decide (prop ∈ own_readonly i) then Some true
                       else None) c).

(** [meta && meta.readOnly] for the swagger metadata of a property. *)
Definition swagger_readOnly (c : class_) (prop : string) : bool :=
  default false (getMetadata (λ i, own_swagger_readOnly i !! prop) c).

(** The steps of one round of the [while (currentTarget)] loop: the
    strategy, the [@Expose] records, the [@Exclude] records, the properties
    that swagger lists, and the own properties of the prototype. *)
Definition scan_strategy (currentTarget : class_) (st : scan) : scan :=
  match getStrategy (info currentTarget) with
  | Some none | None => st
  | Some strategy =>
      {| transformerStrategy := strategy;
         exposedTransformerProps := exposedTransformerProps st;
         excludedTransformerProps := excludedTransformerProps st;
         excluded := excluded st |}
  end.

Definition scan_exposed (currentTarget : class_) (st : scan) : scan :=
  foldl (λ st m,
           match expose_toPlainOnly m, expose_propertyName m with
           | false, Some p =>
               {| transformerStrategy := transformerStrategy st;
                  exposedTransformerProps := {[p]} ∪ exposedTransformerProps st;
                  excludedTransformerProps := excludedTransformerProps st;
                  excluded := excluded st |}
           | _, _ => st
           end)
        st (getExposedMetadatas (info currentTarget)).

Definition scan_excludedMeta (currentTarget : class_) (st : scan) : scan :=
  foldl (λ st m,
           match exclude_toPlainOnly m, exclude_propertyName m with
           | false, Some p =>
               {| transformerStrategy := transformerStrategy st;
                  exposedTransformerProps := exposedTransformerProps st;
                  excludedTransformerProps := {[p]} ∪ excludedTransformerProps st;
                  excluded := excluded st |}
           | _, _ => st
           end)
        st (getExcludedMetadatas (info currentTarget)).

Definition scan_swaggerProps (currentTarget : class_) (st : scan) : scan :=
  let swaggerProps :=
    default [] (getMetadata own_swagger_array currentTarget) in
  foldl (λ st prop,
           let propertyKey := propertyKey_of prop in
           let st := add_excluded_if (swagger_readOnly currentTarget propertyKey)
                       propertyKey st in
           match own_descriptor currentTarget propertyKey with
           | Some d => add_excluded_if (negb (writable d)) propertyKey st
           | None => st
           end)
        st swaggerProps.

Definition scan_propertyNames (currentTarget : class_) (st : scan) : scan :=
  foldl (λ st nd,
           let prop := nd.1 in
           let st :=
             match own_descriptor currentTarget prop with
             | Some d => add_excluded_if (has_get d || negb (writable d)) prop st
             | None => st
             end in
           add_excluded_if (readonly_metadata currentTarget prop) prop st)
        st (own_properties (info currentTarget)).

(** One round of the loop. *)
Definition scan_class (currentTarget : class_) (st : scan) : scan :=
  scan_propertyNames currentTarget
    (scan_swaggerProps currentTarget
       (scan_excludedMeta currentTarget
          (scan_exposed currentTarget
             (scan_strategy currentTarget st)))).

(** The whole loop: the class, then each class above it. *)
Fixpoint scan_chain (currentTarget : class_) (st : scan) : scan :=
  let st := scan_class currentTarget st in
  match currentTarget with
  | Base _ => st
  | Extends _ parent => scan_chain parent st
  end.

(** The pass over [Object.values(meta.properties)]. *)
Definition scan_property (target : class_) (st : scan) (prop : EntityProperty)
  : scan :=
  let st := add_excluded_if (primary prop) (name prop) st in
  let st := add_excluded_if (bool_decide (persist prop = Some false)) (name prop) st in
  let st := add_excluded_if (autoincrement prop) (name prop) st in
  let st := add_excluded_if (onCreate prop) (name prop) st in
  let st := add_excluded_if (onUpdate prop) (name prop) st in
  let st := add_excluded_if (version prop) (name prop) st in
  let st := add_excluded_if (readonly_metadata target (name prop)) (name prop) st in
  if decide (transformerStrategy st = excludeAll) then
    add_excluded_if (bool_decide (name prop ∉ exposedTransformerProps st))
      (name prop) st
  else
    add_excluded_if (bool_decide (name prop ∈ excludedTransformerProps st))
      (name prop) st.

Definition excluded_properties (target : class_) : gset string :=
  let st := scan_chain target
              {| transformerStrategy := excludeAll;
                 exposedTransformerProps := ∅;
                 excludedTransformerProps := ∅;
                 excluded := ∅ |} in
  match orm_metadata (info target) with
  | Some meta => excluded (foldl (scan_property target) st (properties meta))
  | None => excluded st
  end.

(** *** [DtoFactory]: the DTO classes *)

(** [class X { }] followed by naming it: a fresh class. *)
Definition new_class (nm : string) (parent : option dto) (reg : registry)
  : dto * registry :=
  let c := next_dto reg in
  (c, {| next_dto := S c;
         dto_names := dto_names reg ++ [(c, nm)];
         dto_extends := match parent with
                        | Some p => dto_extends reg ++ [(c, p)]
                        | None => dto_extends reg
                        end;
         validationMetadatas := validationMetadatas reg;
         apiModelProperties := apiModelProperties reg;
         typeMetadatas := typeMetadatas reg |}).

(** [storage.addValidationMetadata(m)], which every validation decorator
    ends in. *)
Definition addValidationMetadata (m : ValidationMetadata) (reg : registry)
  : registry :=
  {| next_dto := next_dto reg;
     dto_names := dto_names reg;
     dto_extends := dto_extends reg;
     validationMetadatas := validationMetadatas reg ++ [m];
     apiModelProperties := apiModelProperties reg;
     typeMetadatas := typeMetadatas reg |}.

Definition validate (r : rule) (each : option bool) (target : dto)
    (prop : string) : registry → registry :=
  addValidationMetadata {| vm_target := target; vm_propertyName := Some prop;
                           vm_rule := r; vm_each := each |}.

(** [ApiProperty(options)(target.prototype, prop)] *)
Definition ApiProperty (o : ApiOptions) (target : dto) (prop : string)
    (reg : registry) : registry :=
  {| next_dto := next_dto reg;
     dto_names := dto_names reg;
     dto_extends := dto_extends reg;
     validationMetadatas := validationMetadatas reg;
     apiModelProperties := apiModelProperties reg ++ [(target, prop, o)];
     typeMetadatas := typeMetadatas reg |}.

(** [TypeTransformer(() => t)(target.prototype, prop)] *)
Definition TypeTransformer (t : ctor) (target : dto) (prop : string)
    (reg : registry) : registry :=
  {| next_dto := next_dto reg;
     dto_names := dto_names reg;
     dto_extends := dto_extends reg;
     validationMetadatas := validationMetadatas reg;
     apiModelProperties := apiModelProperties reg;
     typeMetadatas := typeMetadatas reg ++ [(target, prop, t)] |}.

(** [isArray] of a property. *)
Definition isArray (entity : class_) (prop : EntityProperty) : bool :=
  bool_decide (design_type entity (name prop) = Some Array_) || array prop.

(** [typeToCheck] of a property. *)
Definition typeToCheck (entity : class_) (prop : EntityProperty) : option ctor :=
  let designType := design_type entity (name prop) in
  let designType :=
    match findTypeMetadata (info entity) !! name prop with
    | Some (Some innerType) => Some innerType
    | _ => designType
    end in
  let typeToCheck :=
    if isArray entity prop && bool_decide (designType = Some Array_) then None
    else designType in
  match typeToCheck, type prop with
  | None, Some (TName "string") => Some String_
  | None, Some (TName "number") => Some Number_
  | None, Some (TName "boolean") => Some Boolean_
  | None, Some (TName "Date") => Some Date_
  | _, _ => typeToCheck
  end.

Definition integer_columnTypes : list string :=
  ["integer"; "int"; "smallint"; "tinyint"; "mediumint"; "bigint"].

Definition isInt (prop : EntityProperty) : bool :=
  match columnTypes prop with
  | t :: _ => bool_decide (t ∈ integer_columnTypes)
  | [] => false
  end
  || (bool_decide (type prop = Some (TName "number")) && integer prop).

Definition basic_type_names : list string :=
  ["string"; "number"; "boolean"; "date"; "array"; "object"].

(** [apiOptions] of a property. *)
Definition apiOptions (entity : class_) (prop : EntityProperty)
    (required : bool) : ApiOptions :=
  {| api_type := typeToCheck entity prop;
     api_isArray := isArray entity prop;
     api_enum := if enum prop then items prop else None;
     api_enumName :=
       match enum prop, items prop, type prop with
       | true, Some _, Some (TName t) =>
           if bool_decide (toLowerCase t ∈ basic_type_names) then None
           else Some t
       | _, _, _ => None
       end;
     api_required := required |}.

(** The decorators that [DefaultCreateDto] receives for one property that is
    not excluded, in the order they are applied. *)
Definition decorate_field (entity : class_) (cls : dto) (prop : EntityProperty)
    (reg : registry) : registry :=
  let each := if isArray entity prop then Some true else None in
  let reg :=
    match typeToCheck entity prop with
    | Some String_ => validate IsString each cls (name prop) reg
    | Some Number_ =>
        if isInt prop then validate IsInt each cls (name prop) reg
        else validate IsNumber each cls (name prop) reg
    | Some Boolean_ => validate IsBoolean each cls (name prop) reg
    | Some Date_ =>
        TypeTransformer Date_ cls (name prop)
          (validate IsDate each cls (name prop) reg)
    | _ => reg
    end in
  let reg :=
    match enum prop, items prop with
    | true, Some values => validate (IsEnum values) each cls (name prop) reg
    | _, _ => reg
    end in
  let reg :=
    if array prop || isArray entity prop
    then validate IsArray None cls (name prop) reg
    else reg in
  if nullable prop then
    ApiProperty (apiOptions entity prop false) cls (name prop)
      (validate IsOptional each cls (name prop) reg)
  else
    ApiProperty (apiOptions entity prop true) cls (name prop)
      (validate IsNotEmpty each cls (name prop) reg).

(** The creation of [DefaultCreateDto]. *)
Definition DefaultCreateDto (entity : class_) (excluded : gset string)
    (reg : registry) : dto * registry :=
  let '(cls, reg) := new_class (class_name (info entity) +:+ "CreateDto")
                       None reg in
  match orm_metadata (info entity) with
  | Some meta =>
      (cls, foldl (λ reg prop,
                     if bool_decide (name prop ∈ excluded) then reg
                     else decorate_field entity cls prop reg)
                  reg (properties meta))
  | None => (cls, reg)
  end.

(** The classes that a DTO class extends, nearest first. *)
Fixpoint ancestors (fuel : nat) (reg : registry) (c : dto) : list dto :=
  match fuel with
  | O => []
  | S fuel' =>
      match List.find (λ cp, Nat.eqb cp.1 c) (dto_extends reg) with
      | Some (_, p) => p :: ancestors fuel' reg p
      | None => []
      end
  end.

Definition superclasses (reg : registry) (c : dto) : list dto :=
  ancestors (next_dto reg) reg c.

(** class-validator's [getTargetValidationMetadatas(target, '', false,
    false)]: the metadata of the class itself, then that of the classes it
    extends, except where the class has metadata of the same property and
    the same type of its own. *)
Definition getTargetValidationMetadatas (reg : registry) (target : dto)
  : list ValidationMetadata :=
  let originalMetadatas :=
    List.filter (λ m, Nat.eqb (vm_target m) target) (validationMetadatas reg) in
  let inheritedMetadatas :=
    List.filter (λ m, bool_decide (vm_target m ∈ superclasses reg target))
      (validationMetadatas reg) in
  let uniqueInheritedMetadatas :=
    List.filter
      (λ inherited,
         negb (existsb
                 (λ original,
                    bool_decide (vm_propertyName original = vm_propertyName inherited)
                    && bool_decide (type_of_rule (vm_rule original)
                                    = type_of_rule (vm_rule inherited)))
                 originalMetadatas))
      inheritedMetadatas in
  originalMetadatas ++ uniqueInheritedMetadatas.

(** swagger's model properties of a class: the names that carry an
    [@ApiProperty] on the class or on a class it extends. *)
Definition getModelProperties (reg : registry) (c : dto) : list string :=
  remove_dups
    ((λ e, e.1.2) <$>
       List.filter (λ e, bool_decide (e.1.1 ∈ c :: superclasses reg c))
         (apiModelProperties reg)).

(** The [@ApiProperty] options that a class shows for a property. *)
Definition api_metadata (reg : registry) (c : dto) (key : string)
  : option ApiOptions :=
  snd <$> last (List.filter
                  (λ e, bool_decide (e.1.1 ∈ c :: superclasses reg c)
                        && String.eqb e.1.2 key)
                  (apiModelProperties reg)).

(** [{ ...m, target }], the copy of an entry that [PartialType] hands to
    the storage as it is. *)
Definition retarget (target : dto) (m : ValidationMetadata)
  : ValidationMetadata :=
  {| vm_target := target; vm_propertyName := vm_propertyName m;
     vm_rule := vm_rule m; vm_each := vm_each m |}.

(** [new ValidationMetadata({ ...m, target })]: the constructor takes the
    kind of the rule, its constraints and the property from its argument,
    but [each] only from [args.validationOptions], which an entry of the
    storage does not have; the new entry keeps the initial [each = false]. *)
Definition new_ValidationMetadata (target : dto) (m : ValidationMetadata)
  : ValidationMetadata :=
  {| vm_target := target; vm_propertyName := vm_propertyName m;
     vm_rule := vm_rule m; vm_each := Some false |}.

(** [IsOptional()(target.prototype, key)]: without options the entry keeps
    the initial [each = false]. *)
Definition IsOptional_ (target : dto) (key : string) : registry → registry :=
  validate IsOptional (Some false) target key.

(** [PartialType(classRef)] of [@nestjs/swagger]: a new class that inherits
    the validation and transformation metadata of [classRef] and documents
    each model property again as not required, with [IsOptional] on every
    property it took over. *)
Definition PartialType (classRef : dto) (reg : registry) : dto * registry :=
  let fields := getModelProperties reg classRef in
  let '(cls, reg) := new_class "PartialTypeClass" None reg in
  let targetMetadata := getTargetValidationMetadatas reg classRef in
  let reg := foldl (λ reg m, addValidationMetadata (retarget cls m) reg)
               reg targetMetadata in
  let keysWithValidationConstraints :=
    remove_dups (omap vm_propertyName targetMetadata) in
  let reg := foldl (λ reg key,
                      if bool_decide (key ∈ fields) then reg
                      else IsOptional_ cls key reg)
               reg keysWithValidationConstraints in
  let reg := foldl (λ reg e,
                      if bool_decide (e.1.1 ∈ classRef :: superclasses reg classRef)
                      then TypeTransformer e.2 cls e.1.2 reg else reg)
               reg (typeMetadatas reg) in
  let reg := foldl (λ reg key,
                      let metadata :=
                        default {| api_type := None; api_isArray := false;
                                   api_enum := None; api_enumName := None;
                                   api_required := false |}
                                (api_metadata reg classRef key) in
                      IsOptional_ cls key
                        (ApiProperty {| api_type := api_type metadata;
                                        api_isArray := api_isArray metadata;
                                        api_enum := api_enum metadata;
                                        api_enumName := api_enumName metadata;
                                        api_required := false |}
                                     cls key reg))
               reg fields in
  (cls, reg).

(** The creation of [DefaultUpdateDto] from the create DTO. *)
Definition DefaultUpdateDto (entity : class_) (createDto : dto) (reg : registry)
  : dto * registry :=
  let '(partial, reg) := PartialType createDto reg in
  let '(cls, reg) := new_class (class_name (info entity) +:+ "UpdateDto")
                       (Some partial) reg in
  let targetMetadatas := getTargetValidationMetadatas reg createDto in
  (cls,
   foldl (λ reg meta,
            match vm_propertyName meta with
            | Some propertyName =>
                if String.eqb propertyName "" then reg
                else IsOptional_ cls propertyName
                       (addValidationMetadata (new_ValidationMetadata cls meta)
                          reg)
            | None => reg
            end)
         reg targetMetadatas).

Definition set_createDto (d : dto) (o : CrudOptions) : CrudOptions :=
  {| tag := tag o; entity := entity o; createDto := Some d;
     updateDto := updateDto o; filter := filter o;
     operations_query := operations_query o |}.

Definition set_updateDto (d : dto) (o : CrudOptions) : CrudOptions :=
  {| tag := tag o; entity := entity o; createDto := createDto o;
     updateDto := Some d; filter := filter o;
     operations_query := operations_query o |}.

(** [DtoFactory.createDtos(options)]: the options object is updated in
    place, so the options come back together with the storages. *)
Definition createDtos (options : CrudOptions) (reg : registry)
  : CrudOptions * registry :=
  match createDto options, updateDto options with
  | Some _, Some _ => (options, reg)
  | _, _ =>
      let excluded := excluded_properties (entity options) in
      let '(options, reg) :=
        match createDto options with
        | None =>
            let '(cls, reg) := DefaultCreateDto (entity options) excluded reg in
            (set_createDto cls options, reg)
        | Some _ => (options, reg)
        end in
      match updateDto options, createDto options with
      | None, Some c =>
          let '(cls, reg) := DefaultUpdateDto (entity options) c reg in
          (set_updateDto cls options, reg)
      | _, _ => (options, reg)
      end
  end.

(** [Crud(options)] derives the DTOs when the decorator is evaluated. *)
Definition Crud (options : CrudOptions) (reg : registry)
  : CrudOptions * registry :=
  createDtos options reg.

(** *** More of [BaseService] and [CrudHost] *)

(** [persist(entity).flush()] for a new entity: a new row at the end of the
    table. *)
Definition persist_and_flush (entity : obj) : M unit :=
  rs ← get_rows;
  _ ← put_rows (rs ++ [entity]);
  record_call (Flush entity).

(** [BaseService.create]. [em_create] is how [repository.create] builds the
    entity from the data. *)
Definition service_create (em_create : obj → obj) (svc : BaseService)
    (data : obj) : M obj :=
  let entity := em_create data in
  _ ← persist_and_flush entity;
  _ ← emit svc ".created" (Some entity);
  mret entity.

(** [BaseService.createMany]: the entities are written first, then a
    [created] event is emitted for each, in order. *)
Definition service_createMany (em_create : obj → obj) (svc : BaseService)
    (data : list obj) : M (list obj) :=
  let entities := em_create <$> data in
  _ ← foldr (λ entity k, _ ← persist_and_flush entity; k) (mret tt) entities;
  _ ← foldr (λ entity k, _ ← emit svc ".created" (Some entity); k) (mret tt)
        entities;
  mret entities.

(** What [persist] or [defaultValues] gives for a request: the awaited
    result of the callback, or [{}] without one. *)
Definition call_values
    (callback : option (request → gmap string string → awaitable (option obj)))
    (req : request) (params : gmap string string) : obj :=
  match callback with
  | Some f => default ∅ (await (f req params))
  | None => ∅
  end.

(** The two [Object.assign] of [create] and [import] on a body. *)
Definition with_persist_and_defaults
    (persist defaultValues :
       option (request → gmap string string → awaitable (option obj)))
    (req : request) (params : gmap string string) (body : obj) : obj :=
  Object_assign (Object_assign body (call_values persist req params))
    (call_values defaultValues req params).

(** The [create] handler; [persist] and [defaultValues] are the callbacks of
    the options. *)
Definition create (em_create : obj → obj)
    (persist defaultValues :
       option (request → gmap string string → awaitable (option obj)))
    (svc : BaseService) (body : obj) (req : request)
    (params : gmap string string) : M obj :=
  service_create em_create svc
    (with_persist_and_defaults persist defaultValues req params body).

(** The [import] handler. *)
Definition import (em_create : obj → obj)
    (persist defaultValues :
       option (request → gmap string string → awaitable (option obj)))
    (svc : BaseService) (body : list obj) (req : request)
    (params : gmap string string) : M (list obj) :=
  service_createMany em_create svc
    (with_persist_and_defaults persist defaultValues req params <$> body).

(** *** More of [QueryFilterUtil] *)

(** What one round of the loop of [getSwaggerQueryParams] pushes. *)
Definition swagger_entry (meta : EntityMetadata) (entity : class_)
    (entry : string * filter_config) : list ApiQueryOptions :=
  let '(key, config) := entry in
  let exposedName := exposedName_of entity key in
  match config with
  | Flag false => []
  | Custom _ =>
      [{| q_name := exposedName; q_required := false; q_type := "string";
          q_description := None |}]
  | Flag true =>
      match property_of meta key with
      | None => []
      | Some prop =>
          let t := type prop in
          {| q_name := exposedName; q_required := false; q_type := "string";
             q_description :=
               Some ("Filter by " +:+ exposedName +:+ " (exact match)") |}
          :: (if isString t then
                [{| q_name := exposedName +:+ ".contains"; q_required := false;
                    q_type := "string";
                    q_description :=
                      Some ("Filter by " +:+ exposedName +:+ " (contains)") |}]
              else if isNumber t || isDate t then
                [{| q_name := exposedName +:+ ".min"; q_required := false;
                    q_type := "string";
                    q_description :=
                      Some ("Filter by " +:+ exposedName +:+ " (minimum value)") |};
                 {| q_name := exposedName +:+ ".max"; q_required := false;
                    q_type := "string";
                    q_description :=
                      Some ("Filter by " +:+ exposedName +:+ " (maximum value)") |}]
              else [])
      end
  end.

Definition getSwaggerQueryParams (entity : class_)
    (filterConfig : list (string * filter_config)) : list ApiQueryOptions :=
  match orm_metadata (info entity) with
  | None => []
  | Some meta =>
      foldl (λ params entry, params ++ swagger_entry meta entity entry)
        [] filterConfig
  end.

(** ** Vocabulary of the statements *)

(** The filter that [query] hands to the data layer: the awaited result of
    the scoping callback, or [{}]. *)
Definition query_filter (opts : CrudOptions) (req : request)
    (params : gmap string string) : where_ :=
  default ∅ (await (call_filter opts req params)).

(** The query that [generateData] issues for a page. *)
Definition fetch_call (w : where_arg) (page : nat) : call :=
  FindAndCount w {| fo_offset := Some (Whole (Z.of_nat page * batchSize));
                    fo_limit := Some (Whole batchSize); fo_orderBy := None |}.

Definition logged (c : list call) (w : world) : world :=
  {| rows := rows w; calls := calls w ++ c |}.

(** The rows of a page of the result set. *)
Definition batch (w : where_arg) (rs : list obj) (page : nat) : list obj :=
  take 500 (drop (page * 500) (select w rs)).

(** The yields [ys0] put in front of those of a run. *)
Definition after_yields (ys0 : list obj)
    (r : outcome (list obj * gen_state) * world)
  : outcome (list obj * gen_state) * world :=
  match r with
  | (Return (ys, final), w2) => (Return (ys0 ++ ys, final), w2)
  | (Throw e, w2) => (Throw e, w2)
  end.

(** The classes from a class up to its base class, as the [while] loop of
    the factory visits them. *)
Fixpoint chain (c : class_) : list class_ :=
  match c with
  | Base _ => [c]
  | Extends _ parent => c :: chain parent
  end.

(** The strategy that the factory ends up with: that of the last class of
    the chain that sets one, [excludeAll] when none does. *)
Definition strategy_of (target : class_) : strategy :=
  foldl (λ acc c, match getStrategy (info c) with
                  | Some none | None => acc
                  | Some s => s
                  end)
        excludeAll (chain target).

(** A property has an [@Expose], respectively an [@Exclude], that applies
    to incoming data, on some class of the chain. *)
Definition has_Expose (target : class_) (f : string) : Prop :=
  ∃ c m, c ∈ chain target ∧ m ∈ getExposedMetadatas (info c) ∧
         expose_propertyName m = Some f ∧ expose_toPlainOnly m = false.

Definition has_Exclude (target : class_) (f : string) : Prop :=
  ∃ c m, c ∈ chain target ∧ m ∈ getExcludedMetadatas (info c) ∧
         exclude_propertyName m = Some f ∧ exclude_toPlainOnly m = false.

(** A property is exposed to incoming data under the strategy in force. *)
Definition exposed (target : class_) (f : string) : Prop :=
  if decide (strategy_of target = excludeAll) then has_Expose target f
  else ¬ has_Exclude target f.

(** The three ways in which a property is marked read-only. *)
Definition marked_ReadOnly (target : class_) (f : string) : Prop :=
  ∃ c, c ∈ chain target ∧ f ∈ own_readonly (info c).

Definition marked_swagger_readOnly (target : class_) (f : string) : Prop :=
  ∃ c, c ∈ chain target ∧ own_swagger_readOnly (info c) !! f = Some true.

Definition marked_by_descriptor (target : class_) (f : string) : Prop :=
  ∃ c d, c ∈ chain target ∧ own_descriptor c f = Some d ∧
         (has_get d = true ∨ writable d = false).

Definition readonly (target : class_) (f : string) : Prop :=
  marked_ReadOnly target f ∨ marked_swagger_readOnly target f
  ∨ marked_by_descriptor target f.

Definition auto_generated (prop : EntityProperty) : Prop :=
  autoincrement prop = true ∨ onCreate prop = true ∨ onUpdate prop = true
  ∨ version prop = true ∨ persist prop = Some false.

(** What one round of the factory's loop excludes at a class. *)
Definition class_excludes (c : class_) (f : string) : Prop :=
  (∃ entry, entry ∈ default [] (getMetadata own_swagger_array c) ∧
            propertyKey_of entry = f ∧
            (swagger_readOnly c f = true ∨
             ∃ d, own_descriptor c f = Some d ∧ writable d = false))
  ∨ (∃ nd, nd ∈ own_properties (info c) ∧ nd.1 = f ∧
           ((∃ d, own_descriptor c f = Some d ∧
                  has_get d || negb (writable d) = true)
            ∨ readonly_metadata c f = true)).

(** What the pass over the schema excludes for a property, given the
    strategy and the sets collected along the chain. *)
Definition property_excludes (target : class_) (st : scan)
    (prop : EntityProperty) : Prop :=
  primary prop = true ∨ auto_generated prop
  ∨ readonly_metadata target (name prop) = true
  ∨ (if decide (transformerStrategy st = excludeAll)
     then name prop ∉ exposedTransformerProps st
     else name prop ∈ excludedTransformerProps st).

(** Two states of the scan agree on what was read from class-transformer. *)
Definition same_transformer (st st' : scan) : Prop :=
  transformerStrategy st' = transformerStrategy st ∧
  exposedTransformerProps st' = exposedTransformerProps st ∧
  excludedTransformerProps st' = excludedTransformerProps st.

(** The state in which the factory starts its scan. *)
Definition scan_start : scan :=
  {| transformerStrategy := excludeAll; exposedTransformerProps := ∅;
     excludedTransformerProps := ∅; excluded := ∅ |}.

(** swagger lists, in the properties array of a class, every property that
    it holds metadata for on that class. *)
Definition swagger_lists_its_properties (target : class_) : Prop :=
  ∀ c f b, c ∈ chain target → own_swagger_readOnly (info c) !! f = Some b →
    ∃ entry, entry ∈ default [] (getMetadata own_swagger_array c) ∧
             propertyKey_of entry = f.

(** The storages know no class beyond those created so far, and a class
    extends one that was created before it. *)
Definition registry_wf (reg : registry) : Prop :=
  (∀ m, m ∈ validationMetadatas reg → vm_target m < next_dto reg)%nat ∧
  (∀ e, e ∈ apiModelProperties reg → e.1.1 < next_dto reg)%nat ∧
  (∀ e, e ∈ typeMetadatas reg → e.1.1 < next_dto reg)%nat ∧
  (∀ c p, (c, p) ∈ dto_extends reg → p < c < next_dto reg)%nat.

(** A DTO class has a field when a validation rule or an [@ApiProperty] is
    attached to that property, on the class or on one it extends. *)
Definition has_field (reg : registry) (cls : dto) (f : string) : Prop :=
  (∃ m, m ∈ getTargetValidationMetadatas reg cls ∧ vm_propertyName m = Some f)
  ∨ f ∈ getModelProperties reg cls.

(** A rule is attached to a field of a DTO class. *)
Definition has_rule (reg : registry) (cls : dto) (f : string) (r : rule)
    (each : option bool) : Prop :=
  ∃ m, m ∈ getTargetValidationMetadatas reg cls ∧
       vm_propertyName m = Some f ∧ vm_rule m = r ∧ vm_each m = each.

(** A rule, respectively an [@ApiProperty], registered for a property of
    the class itself. *)
Definition own_validation (reg : registry) (cls : dto) (f : string) : Prop :=
  ∃ m, m ∈ validationMetadatas reg ∧ vm_target m = cls ∧
       vm_propertyName m = Some f.

Definition own_api (reg : registry) (cls : dto) (f : string) : Prop :=
  ∃ o, (cls, f, o) ∈ apiModelProperties reg.

(** [reg'] is [reg] with more metadata, all of it for the class [cls]. *)
Definition extends_for (cls : dto) (reg reg' : registry) : Prop :=
  next_dto reg' = next_dto reg ∧
  dto_extends reg' = dto_extends reg ∧
  (∃ vs, validationMetadatas reg' = validationMetadatas reg ++ vs ∧
         Forall (λ m, vm_target m = cls) vs) ∧
  (∃ aps, apiModelProperties reg' = apiModelProperties reg ++ aps ∧
          Forall (λ e, e.1.1 = cls) aps) ∧
  (∃ ts, typeMetadatas reg' = typeMetadatas reg ++ ts ∧
         Forall (λ e, e.1.1 = cls) ts).

(** [reg'] is [reg] with, possibly, more rules for the property [p] of
    [cls], and the same documentation. *)
Definition more_rules_for (cls : dto) (p : string) (reg reg' : registry) : Prop :=
  ∀ c f,
    (own_validation reg' c f → own_validation reg c f ∨ (c = cls ∧ f = p)) ∧
    (own_validation reg c f → own_validation reg' c f) ∧
    (own_api reg' c f ↔ own_api reg c f).

(** The rows that the generator has still to yield when it is left to run
    to the end from a state, and the states it can be in over a table. *)
Definition future (w : where_arg) (rs : list obj) (st : gen_state) : list obj :=
  match st with
  | LoopHead page => drop (Z.to_nat page * 500) (select w rs)
  | Yielding page rest _ =>
      rest ++ drop ((Z.to_nat page + 1) * 500) (select w rs)
  | Finished => []
  end.

Definition gen_ok (w : where_arg) (rs : list obj) (st : gen_state) : Prop :=
  match st with
  | LoopHead page => 0 ≤ page
  | Yielding page rest n =>
      0 ≤ page ∧ n = length (batch w rs (Z.to_nat page)) ∧
      ∃ pre, batch w rs (Z.to_nat page) = pre ++ rest
  | Finished => True
  end.

(** Where a condition on the field [k] can come from: the default rules of
    an enabled, known field for which the query carries a parameter, or a
    custom function that was called and produced it. *)
Definition condition_origin (meta : EntityMetadata) (entity : class_)
    (query : gmap string string) (entry : string * filter_config) (k : string)
  : Prop :=
  let exposedName := exposedName_of entity entry.1 in
  match entry.2 with
  | Flag true =>
      entry.1 = k ∧
      ∃ prop, property_of meta k = Some prop ∧
        (is_Some (query !! exposedName)
         ∨ (isString (type prop) = true
            ∧ is_Some (query !! (exposedName +:+ ".contains")))
         ∨ (isNumber (type prop) || isDate (type prop) = true
            ∧ (is_Some (query !! (exposedName +:+ ".min"))
               ∨ is_Some (query !! (exposedName +:+ ".max")))))
  | Flag false => False
  | Custom f => ∃ v, query !! exposedName = Some v ∧ is_Some (f v !! k)
  end.

(** A rule registered for a property of the class itself, and a rule that
    class-validator reports for a property of a class. *)
Definition own_rule (reg : registry) (c : dto) (f : string) (r : rule) : Prop :=
  ∃ m, m ∈ validationMetadatas reg ∧ vm_target m = c ∧
       vm_propertyName m = Some f ∧ vm_rule m = r.

Definition carries_rule (reg : registry) (cls : dto) (f : string) (r : rule)
  : Prop :=
  ∃ m, m ∈ getTargetValidationMetadatas reg cls ∧
       vm_propertyName m = Some f ∧ vm_rule m = r.

(** [reg'] is [reg] with, possibly, more rules for the property [p] of
    [cls], none of them [IsOptional] or [IsNotEmpty]. *)
Definition other_rules_for (cls : dto) (p : string) (reg reg' : registry)
  : Prop :=
  ∀ c f r,
    (own_rule reg' c f r
     → own_rule reg c f r
       ∨ (c = cls ∧ f = p ∧ r ≠ IsOptional ∧ r ≠ IsNotEmpty)) ∧
    (own_rule reg c f r → own_rule reg' c f r).

(** The [IsOptional] rule of a property, a property that some metadata of a
    list names, and the metadata that the factory registers for the update
    DTO and that [PartialType] registers for its class. *)
Definition optional_rule (cls : dto) (key : string) : ValidationMetadata :=
  {| vm_target := cls; vm_propertyName := Some key;
     vm_rule := IsOptional; vm_each := Some false |}.

Definition named (T : list ValidationMetadata) (key : string) : Prop :=
  ∃ m, m ∈ T ∧ vm_propertyName m = Some key.

Definition update_rules (U : dto) (meta : ValidationMetadata)
  : list ValidationMetadata :=
  match vm_propertyName meta with
  | Some pn => if String.eqb pn "" then []
               else [new_ValidationMetadata U meta; optional_rule U pn]
  | None => []
  end.

Definition partial_rules (P : dto) (T : list ValidationMetadata)
    (fields : list string) : list ValidationMetadata :=
  (retarget P <$> T)
  ++ (optional_rule P
        <$> List.filter (λ key, negb (bool_decide (key ∈ fields)))
              (remove_dups (omap vm_propertyName T)))
  ++ (optional_rule P <$> fields).

(** [reg'] is [reg] with more classes and with more metadata, all of it for
    the new classes. *)
Definition grows (reg reg' : registry) : Prop :=
  (next_dto reg ≤ next_dto reg')%nat ∧
  (∃ xs, dto_extends reg' = dto_extends reg ++ xs ∧
         Forall (λ cp, next_dto reg ≤ cp.1 ∧ cp.2 < cp.1 < next_dto reg')%nat
           xs) ∧
  (∃ vs, validationMetadatas reg' = validationMetadatas reg ++ vs ∧
         Forall (λ m, next_dto reg ≤ vm_target m < next_dto reg')%nat vs) ∧
  (∃ aps, apiModelProperties reg' = apiModelProperties reg ++ aps ∧
          Forall (λ e, next_dto reg ≤ e.1.1 < next_dto reg')%nat aps) ∧
  (∃ ts, typeMetadatas reg' = typeMetadatas reg ++ ts ∧
         Forall (λ e, next_dto reg ≤ e.1.1 < next_dto reg')%nat ts).

(** The parameter that a segment of a path declares: what follows its
    first colon, when something does. *)
Fixpoint after_colon (seg : list ascii) : option (list ascii) :=
  match seg with
  | [] => None
  | c :: rest => if Ascii.eqb c ":" then
                   match rest with [] => None | _ => Some rest end
                 else after_colon rest
  end.

(** A path written as its segments, each after a slash. *)
Definition path_of (segs : list (list ascii)) : list ascii :=
  concat ((λ seg, "/"%char :: seg) <$> segs).

(** ** Numbers that are integers *)

(** The mantissa [m] with the exponent [e] stands for the integer [N]. *)
Definition represents (m e N : Z) : Prop :=
  if 0 <=? e then N = m * 2 ^ e else m = N * 2 ^ (- e).

(** The end of [binary_round_aux]: the rounded mantissa is brought back to
    53 bits and stored. *)
Definition stored (s : bool) (m e : Z) : spec_float :=
  let '(mrs, e') := shr_fexp 53 1024 m e loc_Exact in
  match shr_m mrs with
  | 0 => S754_zero s
  | Z.pos m => if e' <=? 1024 - 53 then S754_finite s m e' else S754_infinity s
  | Z.neg _ => S754_nan
  end.

(** ** Data for the examples of the DTO factory and of the paths *)

(** The storages before any DTO class is created, and after the create DTO
    of [Order] was derived. *)
Definition no_classes : registry :=
  {| next_dto := 0; dto_names := []; dto_extends := [];
     validationMetadatas := []; apiModelProperties := [];
     typeMetadatas := [] |}.

Definition Order_create_registry : registry :=
  (DefaultCreateDto Order (excluded_properties Order) no_classes).2.

Definition Tagged_create_registry : registry :=
  (DefaultCreateDto Tagged (excluded_properties Tagged) no_classes).2.

(** The segments of [/users/:userId/orders/:id]. *)
Definition a_path : list (list ascii) :=
  list_ascii_of_string <$> ["users"; ":userId"; "orders"; ":id"]%string.

(** * Properties *)

(** Runs the monadic code of a handler on the world at hand. *)
Ltac run :=
  repeat progress
    (unfold mbind, M_bind, mret, M_ret, throw, record_call, get_rows, put_rows;
     cbn beta iota delta [rows calls fst snd]).

(** ** Numbers *)

Lemma iter_pos_nat {A} (f : A → A) (p : positive) :
  ∀ x, SpecFloat.iter_pos f p x = Nat.iter (Pos.to_nat p) f x.
Proof.
  induction p as [p IH|p IH|]; intros x; cbn [SpecFloat.iter_pos].
  - rewrite !IH, Pos2Nat.inj_xI.
    replace (S (2 * Pos.to_nat p)) with (Pos.to_nat p + S (Pos.to_nat p))%nat by lia.
    rewrite Nat.iter_add. f_equal. by rewrite Nat.iter_succ_r.
  - rewrite !IH, Pos2Nat.inj_xO.
    replace (2 * Pos.to_nat p)%nat with (Pos.to_nat p + Pos.to_nat p)%nat by lia.
    by rewrite Nat.iter_add.
  - reflexivity.
Qed.

Lemma shr_1_even (m : Z) :
  0 < m → m mod 2 = 0 →
  shr_1 {| shr_m := m; shr_r := false; shr_s := false |}
  = {| shr_m := m / 2; shr_r := false; shr_s := false |}.
Proof.
  intros Hm He. destruct m as [|[p|p|]|]; try lia.
  - exfalso. rewrite Pos2Z.inj_xI in He.
    rewrite Z.add_comm, Z.mul_comm, Z.mod_add in He by lia. discriminate.
  - cbn [shr_1 orb]. f_equal. rewrite Pos2Z.inj_xO.
    by rewrite Z.mul_comm, Z.div_mul by lia.
  - discriminate.
Qed.

Lemma shr_exact (k : nat) (m : Z) :
  0 < m → m mod 2 ^ Z.of_nat k = 0 →
  Nat.iter k shr_1 {| shr_m := m; shr_r := false; shr_s := false |}
  = {| shr_m := m / 2 ^ Z.of_nat k; shr_r := false; shr_s := false |}.
Proof.
  intros Hm. induction k as [|k IH]; intros Hk.
  - cbn. by rewrite Z.div_1_r.
  - rewrite Nat2Z.inj_succ, Z.pow_succ_r in * by lia.
    assert (H2k : 0 < 2 ^ Z.of_nat k) by (apply Z.pow_pos_nonneg; lia).
    apply Z.mod_divide in Hk as [c Hc]; [|lia].
    rewrite Nat.iter_succ, IH.
    2:{ apply Z.mod_divide; [lia|]. exists (c * 2). lia. }
    assert (Hq : m / 2 ^ Z.of_nat k = c * 2).
    { rewrite Hc. replace (c * (2 * 2 ^ Z.of_nat k)) with (c * 2 * 2 ^ Z.of_nat k) by lia.
      apply Z.div_mul. lia. }
    rewrite shr_1_even.
    + f_equal. rewrite Hq, Z.div_mul by lia. rewrite Hc.
      symmetry. apply Z.div_mul. lia.
    + rewrite Hq. nia.
    + rewrite Hq. apply Z.mod_mul. lia.
Qed.

Lemma digits2_size (p : positive) : digits2_pos p = Pos.size p.
Proof. induction p; cbn; congruence. Qed.

Lemma digits2_log2 (p : positive) :
  Z.pos (digits2_pos p) = Z.log2 (Z.pos p) + 1.
Proof.
  rewrite digits2_size. destruct p; cbn [Pos.size Z.log2]; lia.
Qed.

Lemma shr_whole (M E n : Z) :
  0 < M → (0 < n → M mod 2 ^ n = 0) →
  shr {| shr_m := M; shr_r := false; shr_s := false |} E n
  = ({| shr_m := M / 2 ^ Z.max 0 n; shr_r := false; shr_s := false |},
     E + Z.max 0 n).
Proof.
  intros HM Hdiv. unfold shr. destruct n as [|p|p].
  - cbn. by rewrite Z.div_1_r, Z.add_0_r.
  - rewrite iter_pos_nat, shr_exact; [|lia|].
    + rewrite positive_nat_Z. by replace (Z.max 0 (Z.pos p)) with (Z.pos p) by lia.
    + rewrite positive_nat_Z. apply Hdiv. lia.
  - replace (Z.max 0 (Z.neg p)) with 0 by lia.
    cbn. by rewrite Z.div_1_r, Z.add_0_r.
Qed.

Lemma represents_log2 (m e N : Z) :
  0 < m → 0 < N → represents m e N → Z.log2 N = Z.log2 m + e.
Proof.
  intros Hm HN. unfold represents. destruct (Z.leb_spec 0 e) as [He|He].
  - intros ->. rewrite Z.log2_mul_pow2 by lia. lia.
  - intros ->. rewrite Z.log2_mul_pow2 by lia. lia.
Qed.

Lemma integer_value_represents (s : bool) (m : positive) (e N : Z) :
  represents (Z.pos m) e N →
  integer_value (S754_finite s m e) = Some (if s then - N else N).
Proof.
  unfold represents, integer_value. destruct (Z.leb_spec 0 e) as [He|He].
  - intros ->. destruct s; f_equal; lia.
  - intros Hm.
    assert (Hp : 0 < 2 ^ (- e)) by (apply Z.pow_pos_nonneg; lia).
    destruct s.
    + replace (Z.neg m) with ((- N) * 2 ^ (- e)) by lia.
      rewrite Z.mod_mul, Z.div_mul by lia. reflexivity.
    + rewrite Hm, Z.mod_mul, Z.div_mul by lia. reflexivity.
Qed.

Lemma represents_integer_value (s : bool) (m : positive) (e a : Z) :
  integer_value (S754_finite s m e) = Some a →
  represents (Z.pos m) e (Z.abs a) ∧ a = (if s then - Z.abs a else Z.abs a) ∧ a ≠ 0.
Proof.
  unfold represents, integer_value. destruct (Z.leb_spec 0 e) as [He|He].
  - intros [= <-].
    assert (Hp : 0 < 2 ^ e) by (apply Z.pow_pos_nonneg; lia).
    destruct s; (split; [|split]); nia.
  - assert (Hp : 0 < 2 ^ (- e)) by (apply Z.pow_pos_nonneg; lia).
    destruct (Z.eqb_spec ((if s then Z.neg m else Z.pos m) mod 2 ^ (- e)) 0)
      as [Hmod|]; [|discriminate].
    intros [= <-].
    apply Z.mod_divide in Hmod as [c Hc]; [|lia].
    rewrite Hc, Z.div_mul by lia.
    destruct s; (split; [|split]); nia.
Qed.

Lemma Zdigits2_log2 (m : Z) : 0 < m → Zdigits2 m = Z.log2 m + 1.
Proof. destruct m as [|p|p]; try lia. intros _. apply digits2_log2. Qed.

Lemma fexp_normal (d : Z) : -1021 ≤ d → fexp 53 1024 d = d - 53.
Proof. intros Hd. unfold fexp, emin. lia. Qed.

Lemma represents_shift (M E N k : Z) :
  0 < M → 0 < N → 0 ≤ k → represents M E N → M mod 2 ^ k = 0 →
  represents (M / 2 ^ k) (E + k) N ∧ 0 < M / 2 ^ k ∧
  Z.log2 (M / 2 ^ k) = Z.log2 M - k.
Proof.
  intros HM HN Hk Hrep Hmod.
  assert (Hp : 0 < 2 ^ k) by (apply Z.pow_pos_nonneg; lia).
  apply Z.mod_divide in Hmod as [c Hc]; [|lia].
  assert (Hq : M / 2 ^ k = c) by (rewrite Hc; apply Z.div_mul; lia).
  rewrite Hq. assert (Hcpos : 0 < c) by nia.
  split; [|split; [exact Hcpos|]].
  - unfold represents in *.
    destruct (Z.leb_spec 0 E) as [HE|HE], (Z.leb_spec 0 (E + k)) as [HE'|HE'];
      try lia.
    + rewrite Hrep, Hc, Z.pow_add_r by lia. lia.
    + replace (2 ^ (E + k)) with (2 ^ (E + k) * 1) by lia.
      assert (Hs : 2 ^ k = 2 ^ (E + k) * 2 ^ (- E)).
      { rewrite <- Z.pow_add_r by lia. f_equal. lia. }
      assert (Hp' : 0 < 2 ^ (- E)) by (apply Z.pow_pos_nonneg; lia).
      rewrite Hs in Hc. nia.
    + assert (Hs : 2 ^ (- E) = 2 ^ (- (E + k)) * 2 ^ k).
      { rewrite <- Z.pow_add_r by lia. f_equal. lia. }
      rewrite Hs in Hrep. nia.
  - rewrite Hc, Z.log2_mul_pow2 by lia. lia.
Qed.

Lemma binary_round_aux_exact (s : bool) (M : positive) (E N : Z) :
  0 < N ≤ 2 ^ 53 → represents (Z.pos M) E N →
  integer_value (binary_round_aux 53 1024 s (Z.pos M) E loc_Exact)
  = Some (if s then - N else N).
Proof.
  intros [HN HN53] Hrep.
  pose proof (represents_log2 _ _ _ (Pos2Z.is_pos M) HN Hrep) as Hlog.
  assert (HlN : 0 ≤ Z.log2 N ≤ 53).
  { split; [apply Z.log2_nonneg|].
    etrans; [apply Z.log2_le_mono, HN53|]. by rewrite Z.log2_pow2 by lia. }
  set (n := Z.log2 N - 52 - E).
  assert (Hdiv : 0 < n → Z.pos M mod 2 ^ n = 0).
  { intros Hn. unfold represents in Hrep.
    destruct (Z.leb_spec 0 E) as [HE|HE].
    - (* E = 0 and N = 2^53 *)
      assert (E = 0) as -> by lia. assert (Z.log2 N = 53) by lia.
      assert (N = 2 ^ 53).
      { pose proof (Z.log2_spec N HN) as [Hlo _]. rewrite H in Hlo. lia. }
      subst n. rewrite H. replace (53 - 52 - 0) with 1 by lia.
      rewrite Z.pow_0_r, Z.mul_1_r in Hrep. rewrite <- Hrep, H0. reflexivity.
    - destruct (Z.eq_dec (Z.log2 N) 53) as [H53|H53].
      + assert (N = 2 ^ 53).
        { pose proof (Z.log2_spec N HN) as [Hlo _]. rewrite H53 in Hlo. lia. }
        rewrite Hrep, H. rewrite <- Z.pow_add_r by lia.
        replace (53 + - E) with ((53 + - E - n) + n) by lia.
        rewrite Z.pow_add_r by lia. apply Z.mod_mul.
        apply Z.pow_nonzero; lia.
      + rewrite Hrep. replace (- E) with ((- E - n) + n) by lia.
        rewrite Z.pow_add_r by lia. rewrite Z.mul_assoc. apply Z.mod_mul.
        apply Z.pow_nonzero; lia. }
  unfold binary_round_aux, shr_fexp.
  rewrite Zdigits2_log2, fexp_normal by lia.
  cbn [shr_record_of_loc].
  replace (Z.log2 (Z.pos M) + 1 + E - 53 - E) with n by lia.
  rewrite shr_whole by (lia || exact Hdiv).
  cbn [loc_of_shr_record shr_m shr_r shr_s round_nearest_even].
  set (k := Z.max 0 n).
  destruct (represents_shift (Z.pos M) E N k) as (Hrep' & Hpos & Hlog');
    [lia | lia | lia | exact Hrep | |].
  { subst k. destruct (Z.max_spec 0 n) as [[H ->] | [H ->]].
    - by apply Hdiv.
    - by rewrite Z.pow_0_r, Z.mod_1_r. }
  rewrite Zdigits2_log2, fexp_normal by lia.
  rewrite Hlog'.
  replace (Z.log2 (Z.pos M) - k + 1 + (E + k) - 53 - (E + k)) with (n - k) by lia.
  rewrite shr_whole; [|exact Hpos | lia].
  replace (Z.max 0 (n - k)) with 0 by lia.
  rewrite Z.pow_0_r, Z.div_1_r, Z.add_0_r. cbn [shr_m].
  destruct (Z.pos M / 2 ^ k) as [|m'|m'] eqn:Hm'; try lia.
  pose proof (Z.log2_nonneg (Z.pos M)) as HlM.
  replace (E + k <=? 1024 - 53) with true by (symmetry; apply Z.leb_le; lia).
  by apply integer_value_represents.
Qed.

Lemma iter_xO (m d : positive) :
  Z.pos (Pos.iter xO m d) = Z.pos m * 2 ^ Z.pos d.
Proof.
  rewrite (Pos.iter_swap_gen _ _ Z.pos xO (Z.mul 2)) by reflexivity.
  change (Pos.iter (Z.mul 2) (Z.pos m) d) with (Z.shiftl (Z.pos m) (Z.pos d)).
  apply Z.shiftl_mul_pow2. lia.
Qed.

Lemma represents_mul (m1 e1 N1 m2 e2 N2 : Z) :
  represents m1 e1 N1 → represents m2 e2 N2 →
  represents (m1 * m2) (e1 + e2) (N1 * N2).
Proof.
  unfold represents.
  destruct (Z.leb_spec 0 e1) as [H1|H1], (Z.leb_spec 0 e2) as [H2|H2],
    (Z.leb_spec 0 (e1 + e2)) as [H|H]; try lia; intros -> ->.
  - rewrite Z.pow_add_r by lia. ring.
  - replace e1 with ((e1 + e2) + - e2) at 1 by lia.
    rewrite (Z.pow_add_r 2 (e1 + e2) (- e2)) by lia. ring.
  - replace (- e2) with (e1 + - (e1 + e2)) by lia.
    rewrite (Z.pow_add_r 2 e1 (- (e1 + e2))) by lia. ring.
  - replace e2 with ((e1 + e2) + - e1) at 1 by lia.
    rewrite (Z.pow_add_r 2 (e1 + e2) (- e1)) by lia. ring.
  - replace (- e1) with (e2 + - (e1 + e2)) by lia.
    rewrite (Z.pow_add_r 2 e2 (- (e1 + e2))) by lia. ring.
  - replace (- (e1 + e2)) with (- e1 + - e2) by lia.
    rewrite Z.pow_add_r by lia. ring.
Qed.

(** The product of two numbers that are integers is the integer product, as
    long as that is at most [2^53] in magnitude. *)
Lemma times_whole (x y : number) (a b : Z) :
  integer_value x = Some a → integer_value y = Some b →
  Z.abs (a * b) ≤ 2 ^ 53 →
  integer_value (times x y) = Some (a * b).
Proof.
  intros Hx Hy Hab.
  destruct x as [sx|sx| |sx mx ex], y as [sy|sy| |sy my ey];
    try discriminate.
  - injection Hx as <-. reflexivity.
  - injection Hx as <-. reflexivity.
  - injection Hy as <-. cbn. f_equal. lia.
  - apply represents_integer_value in Hx as (Hrx & Hsx & Hax).
    apply represents_integer_value in Hy as (Hry & Hsy & Hay).
    unfold times, SFmul.
    rewrite (binary_round_aux_exact _ _ _ (Z.abs a * Z.abs b)).
    + f_equal. destruct sx, sy; cbn [xorb]; nia.
    + rewrite <- Z.abs_mul. lia.
    + rewrite Pos2Z.inj_mul. by apply represents_mul.
Qed.

(** An integer up to [2^53] is a number. *)
Lemma number_of_Z_whole (z : Z) :
  Z.abs z ≤ 2 ^ 53 → integer_value (number_of_Z z) = Some z.
Proof.
  intros Hz. unfold number_of_Z, binary_normalize.
  assert (Haux : ∀ s m, Z.pos m ≤ 2 ^ 53 →
            integer_value (binary_round 53 1024 s m 0)
            = Some (if s then Z.neg m else Z.pos m)).
  { intros s m Hm. unfold binary_round, shl_align.
    destruct (fexp 53 1024 (Z.pos (digits2_pos m) + 0) - 0) as [|d|d] eqn:Hd.
    - rewrite (binary_round_aux_exact _ _ _ (Z.pos m)); [by destruct s | lia |].
      unfold represents. cbn. lia.
    - rewrite (binary_round_aux_exact _ _ _ (Z.pos m)); [by destruct s | lia |].
      unfold represents. cbn. lia.
    - rewrite (binary_round_aux_exact _ _ _ (Z.pos m)); [by destruct s | lia |].
      unfold represents.
      assert (Hneg : fexp 53 1024 (Z.pos (digits2_pos m) + 0) < 0) by lia.
      destruct (Z.leb_spec 0 (fexp 53 1024 (Z.pos (digits2_pos m) + 0)));
        [lia|].
      rewrite iter_xO. f_equal. f_equal. lia. }
  destruct z as [|m|m]; [reflexivity | |]; apply Haux; lia.
Qed.

Lemma binary_round_aux_eq (s : bool) (q e : Z) (loc : location) :
  binary_round_aux 53 1024 s q e loc
  = let '(mrs, e') := shr_fexp 53 1024 q e loc in
    stored s (round_nearest_even (shr_m mrs) (loc_of_shr_record mrs)) e'.
Proof. reflexivity. Qed.

Lemma stored_spec (s : bool) (m e : Z) :
  2 ^ 52 ≤ m ≤ 2 ^ 53 → -1074 ≤ e ≤ 970 →
  ∃ (mf : positive) (j : Z),
    stored s m e = S754_finite s mf (e + j) ∧
    0 ≤ j ≤ 1 ∧ m = Z.pos mf * 2 ^ j ∧ (m < 2 ^ 53 → j = 0).
Proof.
  intros Hm He.
  assert (Hlog : Z.log2 m = 52 ∨ (Z.log2 m = 53 ∧ m = 2 ^ 53)).
  { destruct (Z.eq_dec m (2 ^ 53)) as [->|Hne]; [right; split; reflexivity|].
    left. apply Z.log2_unique; [lia|]. split; [lia|].
    change (Z.succ 52) with 53. lia. }
  unfold stored, shr_fexp. cbn [shr_record_of_loc].
  rewrite Zdigits2_log2, fexp_normal by lia.
  assert (Hdiv : 0 < Z.log2 m + 1 + e - 53 - e →
                 m mod 2 ^ (Z.log2 m + 1 + e - 53 - e) = 0).
  { intros Hpos. destruct Hlog as [H|[H ->]]; [lia|].
    rewrite H. replace (53 + 1 + e - 53 - e) with 1 by lia. reflexivity. }
  rewrite shr_whole by (lia || exact Hdiv).
  cbn [shr_m].
  set (j := Z.max 0 (Z.log2 m + 1 + e - 53 - e)).
  assert (Hj : (j = 0 ∧ Z.log2 m = 52) ∨ (j = 1 ∧ m = 2 ^ 53)).
  { subst j. destruct Hlog as [H|[H ->]]; [left | right]; rewrite ?H; split;
      try reflexivity; lia. }
  assert (Hmf : 0 < m / 2 ^ j ∧ m = m / 2 ^ j * 2 ^ j).
  { destruct Hj as [[-> H]|[-> ->]].
    - rewrite Z.pow_0_r, Z.div_1_r. lia.
    - split; reflexivity. }
  destruct Hmf as (Hmf & Hprod).
  destruct (m / 2 ^ j) as [|mf|mf] eqn:Hq; try lia.
  replace (e + j <=? 1024 - 53) with true by (symmetry; apply Z.leb_le; lia).
  exists mf, j. split; [reflexivity|]. split; [lia|]. split; [exact Hprod|].
  intros Hlt. destruct Hj as [[-> _]|[_ ->]]; [reflexivity | lia].
Qed.

(** The number that a positive integer below [2^53] is: a mantissa of 53
    bits. *)
Lemma number_of_Z_canonical (a : Z) :
  0 < a < 2 ^ 53 →
  ∃ m1 : positive,
    number_of_Z a = S754_finite false m1 (Z.log2 a - 52) ∧
    Z.log2 (Z.pos m1) = 52 ∧ Z.pos m1 = a * 2 ^ (52 - Z.log2 a).
Proof.
  intros [Ha Ha53]. destruct a as [|p|p]; try lia.
  assert (Hl : 0 ≤ Z.log2 (Z.pos p) ≤ 52).
  { split; [apply Z.log2_nonneg|]. apply Z.lt_succ_r.
    apply Z.log2_lt_pow2; [lia|]. exact Ha53. }
  unfold number_of_Z, binary_normalize, binary_round, shl_align.
  rewrite digits2_log2, fexp_normal by lia.
  set (l := Z.log2 (Z.pos p)) in *.
  assert (Hcanon : ∀ m e, Z.log2 (Z.pos m) = 52 → -1074 ≤ e ≤ 970 →
            binary_round_aux 53 1024 false (Z.pos m) e loc_Exact
            = S754_finite false m e).
  { intros m e Hm He.
    pose proof (Z.log2_spec (Z.pos m) ltac:(lia)) as Hs. rewrite Hm in Hs.
    change (Z.succ 52) with 53 in Hs.
    rewrite binary_round_aux_eq. unfold shr_fexp. cbn [shr_record_of_loc].
    rewrite Zdigits2_log2, Hm, fexp_normal by lia.
    replace (52 + 1 + e - 53 - e) with 0 by lia.
    cbn [shr shr_m loc_of_shr_record shr_r shr_s round_nearest_even].
    destruct (stored_spec false (Z.pos m) e)
      as (mf & j & -> & Hj & Hmf & Hj0); [lia | lia |].
    rewrite Hj0 in Hmf |- * by lia.
    rewrite Z.pow_0_r, Z.mul_1_r in Hmf. injection Hmf as <-.
    by rewrite Z.add_0_r. }
  destruct (l + 1 + 0 - 53 - 0) as [|d|d] eqn:Hd.
  - exists p. assert (l = 52) as Hl52 by lia. rewrite Hcanon by lia.
    rewrite Hl52. split; [reflexivity|]. split; [exact Hl52|].
    cbn. lia.
  - lia.
  - exists (Pos.iter xO p d).
    assert (Hm : Z.pos (Pos.iter xO p d) = Z.pos p * 2 ^ (52 - l)).
    { rewrite iter_xO. f_equal. f_equal. lia. }
    rewrite Hcanon.
    + split; [f_equal; lia|]. split; [|exact Hm].
      rewrite Hm, Z.log2_mul_pow2 by lia. fold l. lia.
    + rewrite Hm, Z.log2_mul_pow2 by lia. fold l. lia.
    + lia.
Qed.

Lemma new_location_spec (m r : Z) :
  new_location m r = if r =? 0 then loc_Exact else loc_Inexact (2 * r ?= m).
Proof.
  unfold new_location, new_location_even, new_location_odd.
  destruct (Z.even m) eqn:Hev; [reflexivity|].
  destruct (r =? 0); [reflexivity|]. f_equal.
  assert (Hodd : Z.odd m = true) by (rewrite <- Z.negb_even, Hev; reflexivity).
  apply Z.odd_spec in Hodd as [c Hc].
  destruct (Z.compare_spec (2 * r + 1) m), (Z.compare_spec (2 * r) m);
    try reflexivity; lia.
Qed.

Lemma shr_1_spec (q : Z) (r s : bool) :
  0 < q →
  shr_1 {| shr_m := q; shr_r := r; shr_s := s |}
  = {| shr_m := q / 2; shr_r := Z.odd q; shr_s := r || s |}.
Proof.
  intros Hq. destruct q as [|[p|p|]|]; try lia; cbn [shr_1].
  - f_equal. rewrite Pos2Z.inj_xI.
    apply (Z.div_unique_pos _ _ _ 1); lia.
  - f_equal. rewrite Pos2Z.inj_xO.
    apply (Z.div_unique_pos _ _ _ 0); lia.
  - reflexivity.
Qed.

Lemma loc_of_shr_record_of_loc (m : Z) (l : location) :
  loc_of_shr_record (shr_record_of_loc m l) = l.
Proof. by destruct l as [|[]]. Qed.

(** The ceiling of [m * 2^e], for [e ≤ 0], read off the number that stores
    [m], or its half with the exponent one higher. *)
Lemma Math_ceil_stored (mf : positive) (m e j k : Z) :
  e ≤ 0 → 0 ≤ j → m = Z.pos mf * 2 ^ j →
  (k - 1) * 2 ^ (- e) < m ≤ k * 2 ^ (- e) → k ≤ 2 ^ 53 →
  integer_value (Math_ceil (S754_finite false mf (e + j))) = Some k.
Proof.
  intros He Hj Hm [Hlo Hhi] Hk.
  assert (HU : 0 < 2 ^ (- e)) by (apply Z.pow_pos_nonneg; lia).
  assert (HJ : 0 < 2 ^ j) by (apply Z.pow_pos_nonneg; lia).
  assert (Hkpos : 0 < k) by nia.
  unfold Math_ceil. destruct (Z.leb_spec 0 (e + j)) as [Hej|Hej].
  - unfold integer_value.
    replace (0 <=? e + j) with true by (symmetry; apply Z.leb_le; lia).
    f_equal.
    assert (Hs : 2 ^ j = 2 ^ (e + j) * 2 ^ (- e)).
    { rewrite <- Z.pow_add_r by lia. f_equal. lia. }
    rewrite Hs, Z.mul_assoc in Hm. rewrite Hm in Hlo, Hhi.
    assert (0 < 2 ^ (e + j)) by (apply Z.pow_pos_nonneg; lia).
    nia.
  - assert (HW : 0 < 2 ^ (- (e + j))) by (apply Z.pow_pos_nonneg; lia).
    assert (Hs : 2 ^ (- e) = 2 ^ (- (e + j)) * 2 ^ j).
    { rewrite <- Z.pow_add_r by lia. f_equal. lia. }
    assert (Hc : - (- Z.pos mf / 2 ^ (- (e + j))) = k).
    { rewrite Hs, Hm in *.
      assert (Hq : - Z.pos mf / 2 ^ (- (e + j)) = - k).
      { symmetry. apply (Z.div_unique_pos _ _ _ (k * 2 ^ (- (e + j)) - Z.pos mf));
          nia. }
      lia. }
    rewrite Hc. destruct (Z.eqb_spec k 0); [lia|].
    apply number_of_Z_whole. lia.
Qed.

Lemma SFdiv_core_canonical (m1 e1 m2 e2 : Z) :
  Z.log2 m1 = 52 → 0 < m1 → 0 < m2 →
  -1021 ≤ 53 + e1 - (Z.log2 m2 + 1 + e2) →
  SFdiv_core_binary 53 1024 m1 e1 m2 e2
  = ((m1 * 2 ^ (Z.log2 m2 + 1)) / m2,
     e1 - e2 - (Z.log2 m2 + 1),
     new_location m2 ((m1 * 2 ^ (Z.log2 m2 + 1)) mod m2)).
Proof.
  intros H1 Hm1 Hm2 Hr. unfold SFdiv_core_binary.
  rewrite !Zdigits2_log2, H1 by lia.
  pose proof (Z.log2_nonneg m2) as Hl2.
  rewrite fexp_normal by lia.
  replace (Z.min (52 + 1 + e1 - (Z.log2 m2 + 1 + e2) - 53) (e1 - e2))
    with (e1 - e2 - (Z.log2 m2 + 1)) by lia.
  replace (e1 - e2 - (e1 - e2 - (Z.log2 m2 + 1))) with (Z.log2 m2 + 1) by lia.
  cbv zeta.
  destruct (Z.log2 m2 + 1) as [|d|d] eqn:Hd; try lia.
  rewrite Z.shiftl_mul_pow2 by lia.
  unfold Z.div, Z.modulo.
  by destruct (Z.div_eucl (m1 * 2 ^ Z.pos d) m2).
Qed.

Lemma quotient_bounds (a b m' m2 U q r k : Z) :
  0 < b → 0 < m2 → b < U →
  m' * b = a * m2 * U →
  m' = q * m2 + r → 0 ≤ r < m2 →
  (k - 1) * b < a ≤ k * b →
  (k - 1) * U < q ∧ q ≤ k * U ∧ (q = k * U → r = 0) ∧
  (q = (k - 1) * U + 1 → r ≠ 0).
Proof.
  intros Hb Hm2 HU Hstar Hdiv Hr [Hlo Hhi].
  assert (Hlo' : ((k - 1) * b + 1) * (m2 * U) ≤ a * (m2 * U)).
  { apply Z.mul_le_mono_nonneg_r; nia. }
  assert (Hhi' : a * (m2 * U) ≤ k * b * (m2 * U)).
  { apply Z.mul_le_mono_nonneg_r; nia. }
  assert (HmU : m2 * b < m2 * U) by nia.
  repeat split.
  - apply Z.nle_gt. intros Hq.
    assert (H1 : (q + 1) * m2 ≤ ((k - 1) * U + 1) * m2).
    { apply Z.mul_le_mono_nonneg_r; lia. }
    assert (H2 : m' * b < ((k - 1) * U + 1) * m2 * b).
    { apply Z.mul_lt_mono_pos_r; [lia|]. nia. }
    nia.
  - apply Z.nlt_ge. intros Hq.
    assert (H1 : (k * U + 1) * m2 ≤ q * m2).
    { apply Z.mul_le_mono_nonneg_r; lia. }
    assert (H2 : (k * U + 1) * m2 * b ≤ m' * b).
    { apply Z.mul_le_mono_nonneg_r; [lia|]. nia. }
    nia.
  - intros ->.
    assert (H2 : r * b ≤ 0) by nia.
    nia.
  - intros -> ->.
    assert (H2 : ((k - 1) * U + 1) * b * m2 = a * U * m2) by nia.
    assert (H3 : ((k - 1) * U + 1) * b = a * U).
    { apply (Z.mul_cancel_r _ _ m2); lia. }
    assert (H4 : b = U * (a - (k - 1) * b)) by nia.
    nia.
Qed.

Lemma round_nearest_even_range (m : Z) (l : location) :
  m ≤ round_nearest_even m l ≤ m + 1 ∧
  (l = loc_Exact → round_nearest_even m l = m) ∧
  (l = loc_Inexact Gt → round_nearest_even m l = m + 1).
Proof.
  unfold round_nearest_even. destruct l as [|[]]; repeat split;
    try discriminate; try lia; destruct (Z.even m); lia.
Qed.

Lemma shr_m_of_loc (m : Z) (l : location) : shr_m (shr_record_of_loc m l) = m.
Proof. by destruct l as [|[]]. Qed.

Lemma ceiling_bounds (a b : Z) :
  0 < b → (- (- a / b) - 1) * b < a ≤ - (- a / b) * b.
Proof.
  intros Hb. pose proof (Z.div_mod (- a) b ltac:(lia)) as Hdm.
  pose proof (Z.mod_pos_bound (- a) b Hb) as Hm. nia.
Qed.

(** [Math.ceil(a / b)] on integers that are numbers is the ceiling of the
    quotient. *)
Lemma divided_by_ceil (a b : Z) (y : number) :
  0 ≤ a < 2 ^ 53 → 0 < b ≤ 2 ^ 53 → integer_value y = Some b →
  integer_value (Math_ceil (divided_by (number_of_Z a) y))
  = Some (- (- a / b)).
Proof.
  intros Ha Hb Hy.
  destruct y as [sy|sy| |sy my ey]; try discriminate.
  { injection Hy as <-. lia. }
  apply represents_integer_value in Hy as (Hry & Hsy & _).
  destruct sy; [lia|]. replace (Z.abs b) with b in Hry by lia. clear Hsy.
  destruct (Z.eq_dec a 0) as [->|Ha0]; [reflexivity|].
  destruct (number_of_Z_canonical a) as (m1 & -> & Hl1 & Hm1); [lia|].
  pose proof (represents_log2 _ _ _ (Pos2Z.is_pos my) (proj1 Hb) Hry) as Hlb.
  assert (Hla : 0 ≤ Z.log2 a ≤ 52).
  { split; [apply Z.log2_nonneg|]. apply Z.lt_succ_r, Z.log2_lt_pow2; lia. }
  assert (Hlb' : 0 ≤ Z.log2 b ≤ 53).
  { split; [apply Z.log2_nonneg|].
    etrans; [apply Z.log2_le_mono, (proj2 Hb)|]. by rewrite Z.log2_pow2 by lia. }
  pose proof (Z.log2_nonneg (Z.pos my)) as Hl2.
  set (e1 := Z.log2 a - 52) in *.
  unfold divided_by, SFdiv.
  rewrite SFdiv_core_canonical by lia.
  set (d2 := Z.log2 (Z.pos my) + 1) in *.
  set (m' := Z.pos m1 * 2 ^ d2).
  set (q := m' / Z.pos my). set (r := m' mod Z.pos my).
  set (e' := e1 - ey - d2).
  set (k := - (- a / b)).
  cbn [xorb].
  (* the quotient *)
  assert (Hdm : m' = q * Z.pos my + r).
  { subst q r. rewrite (Z.mul_comm _ (Z.pos my)). apply Z.div_mod. lia. }
  assert (Hr : 0 ≤ r < Z.pos my) by (apply Z.mod_pos_bound; lia).
  pose proof (Z.log2_spec (Z.pos m1) ltac:(lia)) as Hs1. rewrite Hl1 in Hs1.
  change (Z.succ 52) with 53 in Hs1.
  pose proof (Z.log2_spec (Z.pos my) ltac:(lia)) as Hs2.
  replace (Z.succ (Z.log2 (Z.pos my))) with d2 in Hs2 by (subst d2; lia).
  replace (Z.log2 (Z.pos my)) with (d2 - 1) in Hs2 by (subst d2; lia).
  assert (Hd2 : 2 ^ d2 = 2 * 2 ^ (d2 - 1)).
  { rewrite <- Z.pow_succ_r by lia. f_equal. lia. }
  assert (Hp2 : 0 < 2 ^ (d2 - 1)) by (apply Z.pow_pos_nonneg; lia).
  assert (Hq : 2 ^ 52 ≤ q < 2 ^ 54).
  { subst q. split.
    - apply Z.div_le_lower_bound; [lia|]. subst m'. nia.
    - apply Z.div_lt_upper_bound; [lia|]. subst m'. nia. }
  (* the scale *)
  assert (He' : - e' = Z.log2 b + 1 - e1) by (subst e' d2; lia).
  set (U := 2 ^ (- e')).
  assert (HbU : b < U).
  { pose proof (Z.log2_spec b ltac:(lia)) as Hsb.
    subst U. rewrite He'.
    assert (2 ^ Z.succ (Z.log2 b) ≤ 2 ^ (Z.log2 b + 1 - e1)).
    { apply Z.pow_le_mono_r; lia. }
    lia. }
  assert (Hstar : m' * b = a * Z.pos my * U).
  { subst m' U. rewrite Hm1.
    replace (52 - Z.log2 a) with (- e1) by (subst e1; lia).
    unfold represents in Hry. destruct (Z.leb_spec 0 ey) as [Hey|Hey].
    - rewrite Hry. replace (- e') with (d2 + ey + - e1) by lia.
      rewrite !Z.pow_add_r by lia. ring.
    - rewrite Hry.
      assert (Hx : 2 ^ (- e1) * 2 ^ d2 = 2 ^ (- ey) * 2 ^ (- e')).
      { rewrite <- !Z.pow_add_r by lia. f_equal. lia. }
      transitivity (a * b * (2 ^ (- e1) * 2 ^ d2)); [ring|].
      rewrite Hx. ring. }
  destruct (quotient_bounds a b m' (Z.pos my) U q r k)
    as (Hqlo & Hqhi & Hqtop & Hqbot);
    [lia | lia | exact HbU | exact Hstar | exact Hdm | exact Hr
    | apply ceiling_bounds; lia |].
  assert (Hk : 0 < k ≤ 2 ^ 53).
  { pose proof (ceiling_bounds a b ltac:(lia)) as Hc. fold k in Hc.
    split.
    - apply Z.nle_gt. intros Hk0. assert (k * b ≤ 0 * b) by
        (apply Z.mul_le_mono_nonneg_r; lia). lia.
    - apply Z.nlt_ge. intros Hk1.
      assert (2 ^ 53 * 1 ≤ (k - 1) * b) by (apply Z.mul_le_mono_nonneg; lia).
      lia. }
  rewrite binary_round_aux_eq. unfold shr_fexp.
  rewrite Zdigits2_log2 by lia.
  rewrite new_location_spec.
  set (loc := if r =? 0 then loc_Exact else loc_Inexact (2 * r ?= Z.pos my)).
  destruct (Z_lt_le_dec q (2 ^ 53)) as [Hq53|Hq53].
  - (* a quotient of 53 bits *)
    assert (Hlq : Z.log2 q = 52).
    { apply Z.log2_unique; [lia|]. change (Z.succ 52) with 53. lia. }
    rewrite Hlq, fexp_normal by lia.
    replace (52 + 1 + e' - 53 - e') with 0 by lia.
    cbn [shr]. rewrite shr_m_of_loc, loc_of_shr_record_of_loc.
    destruct (round_nearest_even_range q loc) as (Hrange & Hexact & _).
    destruct (stored_spec false (round_nearest_even q loc) e')
      as (mf & j & -> & Hj & Hmf & _); [lia | lia |].
    apply (Math_ceil_stored mf (round_nearest_even q loc) e' j k);
      [lia | lia | exact Hmf | | lia].
    fold U. split; [lia|].
    destruct (Z.eq_dec q (k * U)) as [Htop|Hne]; [|lia].
    rewrite Hexact; [lia|]. subst loc. by rewrite (Hqtop Htop).
  - (* a quotient of 54 bits *)
    assert (Hlq : Z.log2 q = 53).
    { apply Z.log2_unique; [lia|]. change (Z.succ 53) with 54. lia. }
    rewrite Hlq, fexp_normal by lia.
    replace (53 + 1 + e' - 53 - e') with 1 by lia.
    cbn [shr SpecFloat.iter_pos].
    set (loc' := loc_of_shr_record (shr_1 (shr_record_of_loc q loc))).
    assert (Hshr : shr_m (shr_1 (shr_record_of_loc q loc)) = q / 2 ∧
                   (Z.odd q = false → r = 0 → loc' = loc_Exact) ∧
                   (Z.odd q = true → r ≠ 0 → loc' = loc_Inexact Gt)).
    { subst loc' loc. destruct (Z.eqb_spec r 0) as [Hr0|Hr0].
      - cbn [shr_record_of_loc]. rewrite shr_1_spec by lia. cbn.
        repeat split; [by intros -> | done].
      - destruct (2 * r ?= Z.pos my); cbn [shr_record_of_loc];
          rewrite shr_1_spec by lia; cbn; repeat split; try done;
          by intros ->. }
    destruct Hshr as (-> & Hexact' & Hup').
    destruct (round_nearest_even_range (q / 2) loc') as (Hrange & Hexact & Hup).
    pose proof (Z.div_mod q 2 ltac:(lia)) as Hq2.
    pose proof (Z.mod_pos_bound q 2 ltac:(lia)) as Hbit.
    assert (Hodd : Z.odd q = (q mod 2 =? 1)).
    { rewrite Zmod_odd. by destruct (Z.odd q). }
    assert (HU2 : U = 2 * 2 ^ (- (e' + 1))).
    { subst U. rewrite <- Z.pow_succ_r by lia. f_equal. lia. }
    assert (HU' : 0 < 2 ^ (- (e' + 1))) by (apply Z.pow_pos_nonneg; lia).
    destruct (stored_spec false (round_nearest_even (q / 2) loc') (e' + 1))
      as (mf & j & -> & Hj & Hmf & _); [lia | lia |].
    apply (Math_ceil_stored mf (round_nearest_even (q / 2) loc') (e' + 1) j k);
      [lia | lia | exact Hmf | | lia].
    split.
    + destruct (Z.eq_dec (q / 2) ((k - 1) * 2 ^ (- (e' + 1)))) as [Hbot|Hne];
        [|nia].
      rewrite Hup; [lia|]. apply Hup'.
      * rewrite Hodd. apply Z.eqb_eq. nia.
      * apply Hqbot. nia.
    + destruct (Z.eq_dec (q / 2) (k * 2 ^ (- (e' + 1)))) as [Htop|Hne]; [|nia].
      rewrite Hexact; [lia|].
      assert (q = k * U) by nia.
      apply Hexact'; [|by apply Hqtop].
      rewrite Hodd. apply Z.eqb_neq. nia.
Qed.

(** ** Pagination *)

Lemma window_length_le (o : find_options) (rs : list obj) (k l : Z) :
  fo_offset o = Some (Whole k) → fo_limit o = Some (Whole l) →
  0 ≤ k → 0 ≤ l →
  Z.of_nat (length (window o rs)) ≤ l.
Proof.
  intros Hk Hl Hk0 Hl0. unfold window, whole. rewrite Hk, Hl.
  destruct (Z.leb_spec 0 k), (Z.leb_spec 0 l); try lia.
  rewrite length_take. lia.
Qed.

(** The paginated [query], run. *)
Lemma query_paginated_run (opts : CrudOptions) (req : request)
    (params : gmap string string) (page limit : query_value) (w0 : world) :
  let page' := if truthy_query page then page else QNumber (number_of_Z 0) in
  let limit' := if truthy_query limit then limit else QNumber (number_of_Z 100) in
  let filter := Plain (query_filter opts req params) in
  let o := {| fo_offset :=
                Some (quantity_of
                        (QNumber (times (to_number page') (to_number limit'))));
              fo_limit := Some (quantity_of limit');
              fo_orderBy := orderBy_of opts |} in
  let total := Z.of_nat (length (select filter (rows w0))) in
  queryUsesPagination opts = true →
  query opts req params page limit w0
  = (Return (Paginated
               {| pg_data := window o (ordered o (select filter (rows w0)));
                  pg_total := total;
                  pg_page := page';
                  pg_limit := limit';
                  pg_totalPages :=
                    Math_ceil (divided_by (number_of_Z total)
                                 (to_number limit')) |}),
     {| rows := rows w0; calls := calls w0 ++ [FindAndCount filter o] |}).
Proof. intros page' limit' filter o total Hpg. unfold query. by rewrite Hpg. Qed.

Lemma quantity_of_whole (v : query_value) (z : Z) :
  quantity_of v = Whole z ↔ ∃ n, v = QNumber n ∧ integer_value n = Some z.
Proof.
  unfold quantity_of. split.
  - destruct v as [|s|n]; try discriminate.
    destruct (integer_value n) as [z'|] eqn:Hn; [|discriminate].
    intros [= <-]. eauto.
  - intros (n & -> & ->). reflexivity.
Qed.

(** C9: in a paginated list request a [limit] that is absent or falsy (the
    empty string, a zero, [NaN]) becomes 100 and a [page] that is absent or
    falsy becomes 0; any other value is kept as it came, a string such as
    ["0"] included. The one query that reaches the data layer has that limit
    and, as its offset, the product of page and limit in binary64
    arithmetic: the product of the integers when page and limit are integers
    and the product is at most [2^53] in magnitude. *)
Theorem query_pagination_defaults (opts : CrudOptions) (req : request)
    (params : gmap string string) (page limit : query_value) (w0 : world) :
  queryUsesPagination opts = true →
  ∃ p w1 o,
    query opts req params page limit w0 = (Return (Paginated p), w1) ∧
    calls w1 = calls w0 ++ [FindAndCount (Plain (query_filter opts req params)) o] ∧
    fo_offset o
    = Some (quantity_of
              (QNumber (times (to_number (pg_page p)) (to_number (pg_limit p))))) ∧
    fo_limit o = Some (quantity_of (pg_limit p)) ∧
    (truthy_query limit = false → pg_limit p = QNumber (number_of_Z 100)) ∧
    (truthy_query limit = true → pg_limit p = limit) ∧
    (truthy_query page = false → pg_page p = QNumber (number_of_Z 0)) ∧
    (truthy_query page = true → pg_page p = page) ∧
    (∀ a b, integer_value (to_number (pg_page p)) = Some a →
            integer_value (to_number (pg_limit p)) = Some b →
            Z.abs (a * b) ≤ 2 ^ 53 →
            fo_offset o = Some (Whole (a * b))).
Proof.
  intros Hpg. rewrite query_paginated_run by exact Hpg.
  eexists _, _, _. split; [reflexivity|]. cbn [calls pg_page pg_limit fo_offset fo_limit].
  split; [reflexivity|].
  split; [reflexivity|].
  split; [reflexivity|].
  repeat split; try (intros ->; reflexivity).
  intros a b Ha Hb Hab. cbn [fo_offset]. f_equal. apply quantity_of_whole.
  eexists. split; [reflexivity|]. by apply times_whole.
Qed.

(** C4: a paginated list request whose limit and whose offset
    [page * limit] are whole numbers, not negative, returns
    [total] equal to the number of rows that match the filter, [totalPages]
    equal to [Math.ceil(total / limit)], and at most [limit] rows, the query
    having been issued with that offset and that limit. For a limit and a
    total below [2^53], [totalPages] is the ceiling of the quotient of the
    integers; for a page that is a whole number whose product with the limit
    is at most [2^53] in magnitude, the offset is the product of the
    integers. *)
Theorem query_paginated_result (opts : CrudOptions) (req : request)
    (params : gmap string string) (page limit : query_value) (k l : Z)
    (w0 : world) :
  let page' := if truthy_query page then page else QNumber (number_of_Z 0) in
  let limit' := if truthy_query limit then limit else QNumber (number_of_Z 100) in
  queryUsesPagination opts = true →
  quantity_of limit' = Whole l →
  0 ≤ l →
  quantity_of (QNumber (times (to_number page') (to_number limit'))) = Whole k →
  0 ≤ k →
  ∃ p w1,
    query opts req params page limit w0 = (Return (Paginated p), w1) ∧
    rows w1 = rows w0 ∧
    calls w1 = calls w0 ++
      [FindAndCount (Plain (query_filter opts req params))
         {| fo_offset := Some (Whole k); fo_limit := Some (Whole l);
            fo_orderBy := orderBy_of opts |}] ∧
    pg_page p = page' ∧ pg_limit p = limit' ∧
    pg_total p
      = Z.of_nat (length (select (Plain (query_filter opts req params)) (rows w0))) ∧
    pg_totalPages p
      = Math_ceil (divided_by (number_of_Z (pg_total p)) (to_number limit')) ∧
    Z.of_nat (length (pg_data p)) ≤ l ∧
    (0 < l ≤ 2 ^ 53 → pg_total p < 2 ^ 53 →
     ∃ pages, integer_value (pg_totalPages p) = Some pages ∧
              l * (pages - 1) < pg_total p ≤ l * pages) ∧
    (∀ a, integer_value (to_number page') = Some a →
          Z.abs (a * l) ≤ 2 ^ 53 → k = a * l).
Proof.
  intros page' limit' Hpg Hl Hpos Hk Hk0.
  rewrite query_paginated_run by exact Hpg. fold page' limit'.
  rewrite Hl, Hk.
  apply quantity_of_whole in Hl as (n & Hn & Hnl).
  eexists _, _. split; [reflexivity|].
  cbn [rows calls pg_page pg_limit pg_total pg_totalPages pg_data].
  repeat split.
  - by apply (window_length_le _ _ k l).
  - intros Hl53 Htotal. exists (- (- Z.of_nat (length (select (Plain (query_filter opts req params)) (rows w0))) / l)).
    split.
    + apply divided_by_ceil; [lia | lia |]. by rewrite Hn.
    + pose proof (ceiling_bounds
                    (Z.of_nat (length (select (Plain (query_filter opts req params))
                                         (rows w0)))) l ltac:(lia)).
      lia.
  - intros a Ha Hal.
    assert (Hprod : integer_value (times (to_number page') (to_number limit'))
                    = Some (a * l)).
    { apply times_whole; [exact Ha | by rewrite Hn | exact Hal]. }
    apply quantity_of_whole in Hk as (n' & [= <-] & Hn'). congruence.
Qed.

(** ** Export *)

Lemma logged_nil (w : world) : logged [] w = w.
Proof. destruct w. unfold logged. cbn. by rewrite app_nil_r. Qed.

Lemma logged_logged (c1 c2 : list call) (w : world) :
  logged c2 (logged c1 w) = logged (c1 ++ c2) w.
Proof. unfold logged. cbn. by rewrite app_assoc. Qed.

Lemma step_LoopHead (w : where_arg) (page : nat) (w1 : world) :
  generateData_step w false (LoopHead (Z.of_nat page)) w1
  = (Return (if decide (length (batch w (rows w1) page) = 0%nat)
             then (Finished, None)
             else (Yielding (Z.of_nat page) (batch w (rows w1) page)
                     (length (batch w (rows w1) page)), None)),
     logged [fetch_call w page] w1).
Proof.
  unfold generateData_step, service_query, repository_findAndCount.
  unfold window, whole, ordered, batch, logged. run. cbn.
  replace (0 <=? Z.of_nat page * batchSize) with true
    by (symmetry; apply Z.leb_le; unfold batchSize; lia).
  replace (Z.to_nat (Z.of_nat page * batchSize)) with (page * 500)%nat
    by (unfold batchSize; lia).
  replace (Z.to_nat batchSize) with 500%nat by reflexivity.
  destruct (decide _); reflexivity.
Qed.

Lemma generateData_Finished (w : where_arg) (k : nat) (w1 : world) :
  generateData w (replicate k false) false Finished w1
  = (Return ([], Finished), w1).
Proof.
  induction k as [|k IH]; [reflexivity|].
  cbn. cbn in IH. unfold mbind, M_bind in *. cbn. rewrite IH. reflexivity.
Qed.

Lemma generateData_Yielding (w : where_arg) (items : list obj) (page : Z)
    (n k : nat) (w1 : world) :
  generateData w (replicate (length items + k) false) false
    (Yielding page items n) w1
  = after_yields (instanceToPlain <$> items)
      (generateData w (replicate k false) false (Yielding page [] n) w1).
Proof.
  induction items as [|item items IH].
  - cbn [length Nat.add fmap list_fmap app].
    destruct (generateData w (replicate k false) false (Yielding page [] n) w1)
      as [[[ys final]|e] w2]; reflexivity.
  - cbn [length Nat.add replicate generateData orb].
    unfold mbind at 1, M_bind at 1. cbn [generateData_step mret M_ret].
    unfold mbind at 1, M_bind at 1. rewrite IH.
    destruct (generateData w (replicate k false) false (Yielding page [] n) w1)
      as [[[ys final]|e] w2]; reflexivity.
Qed.

Lemma step_batch_end (w : where_arg) (page : Z) (n : nat) (w1 : world) :
  generateData_step w false (Yielding page [] n) w1
  = (Return (if Z.of_nat n <? batchSize then Finished else LoopHead (page + 1),
             None), w1).
Proof. cbn. destruct (Z.of_nat n <? batchSize); reflexivity. Qed.

Lemma generateData_cons (w : where_arg) (k : nat) (st : gen_state) (w1 : world) :
  generateData w (replicate (S k) false) false st w1
  = match generateData_step w false st w1 with
    | (Return (st', y), w2) =>
        after_yields (option_list y)
          (generateData w (replicate k false) false st' w2)
    | (Throw e, w2) => (Throw e, w2)
    end.
Proof.
  cbn [replicate generateData orb]. unfold mbind at 1, M_bind at 1.
  destruct (generateData_step w false st w1) as [[[st' y]|e] w2]; [|reflexivity].
  unfold mbind, M_bind, mret, M_ret, after_yields.
  destruct (generateData w (replicate k false) false st' w2)
    as [[[ys final]|e] w3]; reflexivity.
Qed.

(** From the head of the loop at page [i], with [j] more pages to come: the
    generator yields the rest of the result set and fetches the pages
    [i .. i + j], and no other. *)
Lemma generateData_from_page (w : where_arg) (w0 : world) (j : nat) :
  ∀ (i k : nat) (w1 : world),
    (i + j = length (select w (rows w0)) / 500)%nat →
    rows w1 = rows w0 →
    (length (select w (rows w0)) - 500 * i + 2 * (j + 1) ≤ k)%nat →
    generateData w (replicate k false) false (LoopHead (Z.of_nat i)) w1
    = (Return (instanceToPlain <$> drop (i * 500) (select w (rows w0)), Finished),
       logged (fetch_call w <$> seq i (S j)) w1).
Proof.
  set (R := select w (rows w0)).
  pose proof (Nat.div_mod_eq (length R) 500) as Hdm.
  pose proof (Nat.mod_upper_bound (length R) 500 ltac:(lia)) as Hmod.
  induction j as [|j IH]; intros i k w1 Hq Hrows Hk.
  - destruct k as [|k]; [lia|].
    rewrite generateData_cons, step_LoopHead. unfold batch. rewrite Hrows.
    fold R.
    assert (Hshort : (length (drop (i * 500) R) < 500)%nat)
      by (rewrite length_drop; lia).
    rewrite take_ge by lia.
    destruct (decide _) as [Hz|Hnz].
    + rewrite generateData_Finished. cbn.
      apply nil_length_inv in Hz. rewrite Hz. reflexivity.
    + replace k with (length (drop (i * 500) R) + S (k - length (drop (i * 500) R) - 1))%nat
        by (rewrite length_drop in *; lia).
      rewrite generateData_Yielding, generateData_cons, step_batch_end.
      replace (Z.of_nat (length (drop (i * 500) R)) <? batchSize) with true
        by (symmetry; apply Z.ltb_lt; unfold batchSize; lia).
      rewrite generateData_Finished. cbn. by rewrite app_nil_r.
  - destruct k as [|k]; [lia|].
    rewrite generateData_cons, step_LoopHead. unfold batch. rewrite Hrows.
    fold R.
    assert (Hfull : length (take 500 (drop (i * 500) R)) = 500%nat)
      by (rewrite length_take, length_drop; lia).
    rewrite Hfull.
    destruct (decide _) as [Hz|_]; [discriminate|].
    replace k with (length (take 500 (drop (i * 500) R)) + S (k - 501))%nat
      by (rewrite Hfull; lia).
    rewrite generateData_Yielding, generateData_cons, step_batch_end.
    replace (Z.of_nat 500 <? batchSize) with false by reflexivity.
    replace (Z.of_nat i + 1) with (Z.of_nat (S i)) by lia.
    rewrite (IH (S i)); [| lia | exact Hrows | lia].
    cbn [after_yields option_list app]. rewrite logged_logged.
    change (option_list (@None obj)) with (@nil obj).
    cbn [app]. rewrite <- fmap_app.
    replace (S i * 500)%nat with (i * 500 + 500)%nat by lia.
    rewrite <- drop_drop, take_drop. reflexivity.
Qed.

Lemma generateData_step_returns (w : where_arg) (a : bool) (st : gen_state)
    (w1 : world) :
  ∃ st' y w2, generateData_step w a st w1 = (Return (st', y), w2).
Proof.
  destruct st as [page|page [|item rest] n|]; cbn; destruct a; eauto.
  - unfold service_query, repository_findAndCount. run.
    destruct (decide _); eauto.
  - destruct (_ <? _); eauto.
  - destruct (_ <? _); eauto.
Qed.

Lemma generateData_returns (w : where_arg) (cs : list bool) :
  ∀ (a : bool) (st : gen_state) (w1 : world),
    ∃ ys final w2, generateData w cs a st w1 = (Return (ys, final), w2).
Proof.
  induction cs as [|c cs IH]; intros a st w1; [cbn; eauto|].
  cbn [generateData]. unfold mbind at 1, M_bind at 1.
  destruct (generateData_step_returns w (a || c) st w1) as (st' & y & w2 & ->).
  unfold mbind, M_bind.
  destruct (IH (a || c) st' w2) as (ys & final & w3 & ->). cbn. eauto.
Qed.

(** With [aborted] set, a resumption never reaches the data layer. *)
Lemma generateData_step_aborted (w : where_arg) (st : gen_state) (w1 : world) :
  ∃ st' y, generateData_step w true st w1 = (Return (st', y), w1).
Proof.
  destruct st as [page|page [|item rest] n|]; cbn; eauto.
  destruct (_ <? _); eauto.
Qed.

Lemma generateData_aborted (w : where_arg) (cs : list bool) :
  ∀ (st : gen_state) (w1 : world),
    ∃ ys final, generateData w cs true st w1 = (Return (ys, final), w1).
Proof.
  induction cs as [|c cs IH]; intros st w1; [cbn; eauto|].
  cbn [generateData orb]. unfold mbind at 1, M_bind at 1.
  destruct (generateData_step_aborted w st w1) as (st' & y & ->).
  unfold mbind, M_bind.
  destruct (IH st' w1) as (ys & final & ->). cbn. eauto.
Qed.

Lemma after_yields_app (ys1 ys2 : list obj)
    (r : outcome (list obj * gen_state) * world) :
  after_yields (ys1 ++ ys2) r = after_yields ys1 (after_yields ys2 r).
Proof.
  destruct r as [[[ys final]|e] w2]; cbn; [|reflexivity].
  by rewrite app_assoc.
Qed.

(** A run over [cs1 ++ cs2] is the run over [cs1] followed by the run over
    [cs2] from where the first one stopped. *)
Lemma generateData_app (w : where_arg) (cs1 cs2 : list bool) :
  ∀ (a : bool) (st : gen_state) (w1 : world),
    generateData w (cs1 ++ cs2) a st w1
    = match generateData w cs1 a st w1 with
      | (Return (ys, st'), w2) =>
          after_yields ys (generateData w cs2 (foldl orb a cs1) st' w2)
      | (Throw e, w2) => (Throw e, w2)
      end.
Proof.
  induction cs1 as [|c cs1 IH]; intros a st w1.
  - cbn. destruct (generateData w cs2 a st w1) as [[[ys final]|e] w2];
      reflexivity.
  - cbn [app generateData foldl]. unfold mbind at 1 3, M_bind at 1 3.
    destruct (generateData_step w (a || c) st w1) as [[[st' y]|e] w2];
      [|reflexivity].
    unfold mbind at 1 2, M_bind at 1 2. rewrite IH.
    destruct (generateData w cs1 (a || c) st' w2) as [[[ys st'']|e] w3];
      [|reflexivity].
    cbn [mret M_ret]. rewrite after_yields_app.
    destruct (generateData w cs2 (foldl orb (a || c) cs1) st'' w3)
      as [[[ys' final]|e] w4]; reflexivity.
Qed.

(** A filter that the scoping callback returns directly reaches the data
    layer as it is; without a callback the filter is [{}]. *)
Lemma export_filter_now (opts : CrudOptions) (req : request)
    (params : gmap string string) (f : where_) :
  call_filter opts req params = Now (Some f) →
  pass_unawaited (call_filter opts req params) = Plain f.
Proof. intros ->. reflexivity. Qed.

(** [export] is the run of [generateData] on the filter as the callback
    returned it, with the response made of what the run has yielded. *)
Lemma export_run (opts : CrudOptions) (req : request)
    (params : gmap string string) (closes : list bool) (ys : list obj)
    (final : gen_state) (w0 w1 : world) :
  generateData (pass_unawaited (call_filter opts req params)) closes false
    (LoopHead 0) w0 = (Return (ys, final), w1) →
  export opts req params closes w0
  = (Return (export_response opts req ys final, final), w1).
Proof. intros H. unfold export, mbind, M_bind. by rewrite H. Qed.

(** X27: [export] hands the data layer, as the filter, what the scoping
    callback returned, not awaited. It reads the rows that this argument
    selects in pages of 500 rows, page [i] with [offset = i * 500], and
    stops after the first page that is empty or has fewer than 500 rows;
    driven to the end without a ['close'] event, it has yielded the plain
    form of every such row, in query order, once. Once the ['close'] event
    is delivered, no further query reaches the data layer, whatever the
    consumer still pulls. *)
Theorem export_streams_in_batches (opts : CrudOptions) (req : request)
    (params : gmap string string) (w0 : world) :
  let w := pass_unawaited (call_filter opts req params) in
  let R := select w (rows w0) in
  (∀ k, (2 * length R + 2 ≤ k)%nat →
     export opts req params (replicate k false) w0
     = (Return (export_response opts req (instanceToPlain <$> R) Finished,
                Finished),
        {| rows := rows w0;
           calls := calls w0 ++
             ((λ page, FindAndCount w
                         {| fo_offset := Some (Whole (Z.of_nat page * 500));
                            fo_limit := Some (Whole 500);
                            fo_orderBy := None |})
                <$> seq 0 (S (length R / 500))) |})) ∧
  (∀ i, (i < length R / 500)%nat → length (batch w (rows w0) i) = 500%nat) ∧
  (length (batch w (rows w0) (length R / 500)) < 500)%nat ∧
  (∀ cs1 cs2, ∃ ys1 st1 w1 ys2 final,
     export opts req params cs1 w0
     = (Return (export_response opts req ys1 st1, st1), w1) ∧
     export opts req params (cs1 ++ true :: cs2) w0
     = (Return (export_response opts req (ys1 ++ ys2) final, final), w1)).
Proof.
  intros w R.
  pose proof (Nat.div_mod_eq (length R) 500) as Hdm.
  pose proof (Nat.mod_upper_bound (length R) 500 ltac:(lia)) as Hmod.
  repeat split.
  - intros k Hk. apply export_run. fold w.
    change (LoopHead 0) with (LoopHead (Z.of_nat 0)).
    rewrite (generateData_from_page w w0 (length R / 500) 0 k w0);
      [reflexivity | reflexivity | reflexivity | fold R; lia].
  - intros i Hi. unfold batch. fold R. rewrite length_take, length_drop. lia.
  - unfold batch. fold R. rewrite length_take, length_drop. lia.
  - intros cs1 cs2.
    destruct (generateData_returns w cs1 false (LoopHead 0) w0)
      as (ys1 & st1 & w1 & Hrun1).
    destruct (generateData_step_aborted w st1 w1) as (st' & y & Hstep).
    destruct (generateData_aborted w cs2 st' w1) as (ys & final & Hrest).
    exists ys1, st1, w1, (option_list y ++ ys), final.
    split; [by apply export_run|]. apply export_run. fold w.
    rewrite generateData_app, Hrun1.
    cbn [generateData]. rewrite orb_true_r.
    unfold mbind at 1, M_bind at 1. rewrite Hstep.
    unfold mbind, M_bind. rewrite Hrest. reflexivity.
Qed.

(** ** Handlers on one entity *)

Lemma parseId_world (opts : CrudOptions) (id : string) (w0 : world) :
  (parseId opts id w0).2 = w0.
Proof.
  unfold parseId. destruct (primaryKeyType opts); try reflexivity;
    destruct (new_ObjectId id); reflexivity.
Qed.

(** [parseId] raises nothing but what the [ObjectId] constructor throws. *)
Lemma parseId_outcome (opts : CrudOptions) (id : string) (w0 : world) :
  (∃ v, parseId opts id w0 = (Return v, w0)) ∨
  parseId opts id w0 = (Throw BSONError, w0).
Proof.
  unfold parseId. destruct (primaryKeyType opts); eauto;
    destruct (new_ObjectId id); eauto.
Qed.

(** The [where] object that the handlers look the entity up with, once the
    id is parsed. *)
Lemma id_where_parsed (opts : CrudOptions) (req : request)
    (params : gmap string string) (id : string) (v : prim) (w0 : world) :
  parseId opts id w0 = (Return v, w0) →
  id_where opts req params id w0
  = (Return (Plain (<[primaryKey opts := CVal v]>
                      (spread_unawaited (call_filter opts req params)))), w0).
Proof. intros H. unfold id_where. run. rewrite H. reflexivity. Qed.

(** X2: When the lookup of the handler finds nothing, [delete], [replace] and
    [update] raise [NotFoundException] after that one lookup, and the table
    is as before. *)
Lemma absent_entity_not_found (opts : CrudOptions) (svc : BaseService)
    (body : obj) (req : request) (params : gmap string string) (id : string)
    (v : prim) (w0 : world) :
  let w := Plain (<[primaryKey opts := CVal v]>
                    (spread_unawaited (call_filter opts req params))) in
  parseId opts id w0 = (Return v, w0) →
  head (select w (rows w0)) = None →
  delete_ opts svc req params id w0
  = (Throw (NotFoundException (not_found_message opts)), logged [FindOne w] w0) ∧
  replace opts svc body req params id w0
  = (Throw (NotFoundException (not_found_message opts)), logged [FindOne w] w0) ∧
  update opts svc body req params id w0
  = (Throw (NotFoundException (not_found_message opts)), logged [FindOne w] w0).
Proof.
  intros w Hid Habsent.
  unfold delete_, replace, update, service_findOne, repository_findOne.
  run. rewrite !(id_where_parsed _ _ _ _ _ _ Hid). fold w.
  cbn [rows calls]. rewrite Habsent. auto.
Qed.

(** X3: No path of the handlers raises [BadRequestException]. *)
Lemma handlers_never_bad_request (opts : CrudOptions) (svc : BaseService)
    (body : obj) (req : request) (params : gmap string string) (id : string)
    (w0 w1 : world) (msg : string) :
  read opts req params id w0 ≠ (Throw (BadRequestException msg), w1) ∧
  delete_ opts svc req params id w0 ≠ (Throw (BadRequestException msg), w1) ∧
  replace opts svc body req params id w0 ≠ (Throw (BadRequestException msg), w1) ∧
  update opts svc body req params id w0 ≠ (Throw (BadRequestException msg), w1).
Proof.
  unfold read, delete_, replace, update, id_where.
  unfold service_delete, service_update, assign_and_flush, emit,
    repository_nativeDelete, service_findOne, repository_findOne.
  destruct (eventEmitter svc);
    destruct (parseId_outcome opts id w0) as [[v Hv] | Hthrow];
    repeat split; run; rewrite ?Hv, ?Hthrow; run;
    repeat (match goal with
            | |- context [match head ?x with _ => _ end] => destruct (head x)
            end; run);
    congruence.
Qed.

(** ** Partial update *)

Lemma delete_undefined_lookup (body : obj) (k : string) :
  delete_undefined (Object_assign ∅ body) !! k
  = match body !! k with
    | Some PUndef => None
    | x => x
    end.
Proof.
  unfold delete_undefined, Object_assign. rewrite (right_id ∅ (∪)).
  destruct (body !! k) as [x|] eqn:Hk.
  - destruct (decide (x = PUndef)) as [->|Hx].
    + apply map_lookup_filter_None. right. intros y Hy. cbn. congruence.
    + transitivity (Some x); [|by destruct x].
      apply map_lookup_filter_Some. done.
  - apply map_lookup_filter_None. by left.
Qed.

Lemma update_first_split (P : obj → bool) (f : obj → obj) (l : list obj)
    (e : obj) :
  head (List.filter P l) = Some e →
  ∃ pre post,
    l = pre ++ e :: post ∧
    Forall (λ x, P x = false) pre ∧
    update_first P f l = pre ++ f e :: post.
Proof.
  induction l as [|x l IH]; cbn; [discriminate|].
  destruct (P x) eqn:HP; cbn.
  - intros [= ->]. exists [], l. auto.
  - intros H. destruct (IH H) as (pre & post & -> & Hpre & ->).
    exists (x :: pre), post. repeat split; auto.
Qed.

(** C10: in a partial update the payload handed to the service is the
    request body without the keys whose value is [undefined]; the entity
    takes the value of every key that is left, every other field keeps its
    stored value, and no other row of the table changes. *)
Theorem update_keeps_unsupplied_fields (opts : CrudOptions) (svc : BaseService)
    (body : obj) (req : request) (params : gmap string string) (id : string)
    (v : prim) (r e : obj) (w0 : world) :
  let w := Plain (<[primaryKey opts := CVal v]>
                    (spread_unawaited (call_filter opts req params))) in
  let payload := delete_undefined (Object_assign ∅ body) in
  parseId opts id w0 = (Return v, w0) →
  head (select w (rows w0)) = Some r →
  head (select (key_where opts r) (rows w0)) = Some e →
  ∃ pre post w1,
    update opts svc body req params id w0 = (Return (payload ∪ e), w1) ∧
    (∀ k, payload !! k = match body !! k with
                         | Some PUndef => None
                         | x => x
                         end) ∧
    calls w1 = calls w0 ++
      [FindOne w; FindOne (key_where opts r); Flush payload] ++
      (if eventEmitter svc
       then [Emit (slug svc +:+ ".updated") (Some (payload ∪ e))] else []) ∧
    rows w0 = pre ++ e :: post ∧
    rows w1 = pre ++ (payload ∪ e) :: post ∧
    (∀ k, body !! k = None ∨ body !! k = Some PUndef →
          (payload ∪ e) !! k = e !! k) ∧
    (∀ k x, body !! k = Some x → x ≠ PUndef → (payload ∪ e) !! k = Some x).
Proof.
  intros w payload Hid Hr He.
  destruct (update_first_split (matches (key_where opts r))
              (λ e0, payload ∪ e0) (rows w0) e He)
    as (pre & post & Hrows & _ & Hupd).
  exists pre, post.
  assert (Hrun : ∃ w1,
    update opts svc body req params id w0 = (Return (payload ∪ e), w1) ∧
    calls w1 = calls w0 ++
      [FindOne w; FindOne (key_where opts r); Flush payload] ++
      (if eventEmitter svc
       then [Emit (slug svc +:+ ".updated") (Some (payload ∪ e))] else []) ∧
    rows w1 = update_first (matches (key_where opts r))
                (λ e0, payload ∪ e0) (rows w0)).
  { unfold update, service_findOne, repository_findOne. run.
    rewrite (id_where_parsed _ _ _ _ _ _ Hid). fold w. cbn [rows calls].
    rewrite Hr. unfold service_update, service_findOne, repository_findOne.
    run. rewrite He. unfold assign_and_flush, emit. run.
    fold payload.
    destruct (eventEmitter svc); run; eexists; (split; [reflexivity|]);
      cbn [rows calls]; rewrite <- ?app_assoc; split; reflexivity. }
  destruct Hrun as (w1 & Hrun & Hcalls & Hrows1).
  exists w1. split; [exact Hrun|]. split; [|split; [exact Hcalls|split; [exact Hrows|split]]].
  - apply delete_undefined_lookup.
  - by rewrite Hrows1.
  - split.
    + intros k Hk. apply lookup_union_r. unfold payload.
      rewrite delete_undefined_lookup. by destruct Hk as [-> | ->].
    + intros k x Hk Hx. apply lookup_union_Some_l. unfold payload.
      rewrite delete_undefined_lookup, Hk. by destruct x.
Qed.

(** ** The entity-fetch interceptor *)

(** The block under [// Parse ID] on an id that is no [ObjectId], or no
    number. *)
Lemma intercept_parse_rejects (metadata : option EntityMetadata)
    (opts : CrudOptions) (pk idValue : string) (prop : EntityProperty)
    (w0 : world) :
  metadata ≫= (λ m, property_of m pk) = Some prop →
  (is_ObjectId_type (type prop) = true → new_ObjectId idValue = None →
   intercept_parse metadata opts pk idValue w0
   = (Throw (BadRequestException "Invalid ObjectId"), w0)) ∧
  (is_ObjectId_type (type prop) = false → is_number_type (type prop) = true →
   isNaN (Number idValue) = true →
   intercept_parse metadata opts pk idValue w0
   = (Throw (BadRequestException "Invalid ID"), w0)).
Proof.
  intros Hprop. unfold intercept_parse. rewrite Hprop. split.
  - intros -> Hbad. unfold parse_ObjectId. by rewrite Hbad.
  - intros -> -> Hnan. unfold parse_Number. by rewrite Hnan.
Qed.

(** X12: When the request carries a non-empty id under the entity's key and
    the schema declares that key as an [ObjectId], or as a number, an id that
    is no [ObjectId], or no number, makes the interceptor raise a bad request
    before any lookup. *)
Theorem intercept_rejects_bad_id (metadata : option EntityMetadata)
    (opts : CrudOptions) (req : request) (idValue : string)
    (prop : EntityProperty) (w0 : world) :
  req_params req !! intercept_primaryKey metadata = Some idValue →
  idValue ≠ "" →
  metadata ≫= (λ m, property_of m (intercept_primaryKey metadata)) = Some prop →
  (is_ObjectId_type (type prop) = true → new_ObjectId idValue = None →
   intercept metadata (Some opts) req w0
   = (Throw (BadRequestException "Invalid ObjectId"), w0)) ∧
  (is_ObjectId_type (type prop) = false → is_number_type (type prop) = true →
   isNaN (Number idValue) = true →
   intercept metadata (Some opts) req w0
   = (Throw (BadRequestException "Invalid ID"), w0)).
Proof.
  intros Hid Hne Hprop. unfold intercept. rewrite Hid.
  apply String.eqb_neq in Hne. rewrite Hne.
  destruct (intercept_parse_rejects metadata opts
              (intercept_primaryKey metadata) idValue prop w0 Hprop)
    as [Hoid Hnum].
  split.
  - intros Ht Hbad. unfold mbind, M_bind. by rewrite (Hoid Ht Hbad).
  - intros Ht Hn Hnan. unfold mbind, M_bind. by rewrite (Hnum Ht Hn Hnan).
Qed.

Lemma intercept_parse_outcome (metadata : option EntityMetadata)
    (opts : CrudOptions) (pk idValue : string) (w0 : world) :
  (∃ v, intercept_parse metadata opts pk idValue w0 = (Return v, w0)) ∨
  (∃ msg, intercept_parse metadata opts pk idValue w0
          = (Throw (BadRequestException msg), w0)).
Proof.
  unfold intercept_parse, parse_ObjectId, parse_Number.
  repeat (match goal with
          | |- context [match ?x with _ => _ end] => destruct x
          end); eauto.
Qed.

(** X13: The interceptor either lets the request through untouched, or raises a
    bad request before any lookup, or looks the entity up once and then
    raises not-found or attaches the entity it found. *)
Lemma intercept_outcome (metadata : option EntityMetadata)
    (options : option CrudOptions) (req : request) (w0 : world) :
  intercept metadata options req w0 = (Return req, w0) ∨
  (∃ msg, intercept metadata options req w0
          = (Throw (BadRequestException msg), w0)) ∨
  (∃ opts w, options = Some opts ∧
     ((head (select w (rows w0)) = None ∧
       intercept metadata options req w0
       = (Throw (NotFoundException (not_found_message opts)),
          logged [FindOne w] w0)) ∨
      (∃ e, head (select w (rows w0)) = Some e ∧
         intercept metadata options req w0
         = (Return (set_fetched e req), logged [FindOne w] w0)))).
Proof.
  unfold intercept. destruct options as [opts|]; [|by left].
  destruct (req_params req !! intercept_primaryKey metadata) as [idValue|];
    [|by left].
  destruct (String.eqb idValue ""); [by left|].
  unfold repository_findOne. run.
  destruct (intercept_parse_outcome metadata opts
              (intercept_primaryKey metadata) idValue w0)
    as [[v ->] | [msg ->]]; [|right; left; eauto].
  right. right. cbn [rows calls].
  match goal with |- context [FindOne ?x] => set (w := x) end.
  exists opts, w. split; [reflexivity|].
  destruct (head (select w (rows w0))) as [e|] eqn:He; [right | left]; eauto.
Qed.

(** ** Query filters *)



Lemma isString_not_others (t : option type_ref) :
  isString t = true → isNumber t = false ∧ isDate t = false ∧ isBoolean t = false.
Proof.
  unfold isString. intros H. apply bool_decide_eq_true in H.
  destruct H as [-> | ->]; repeat split; reflexivity.
Qed.








(** ** DTO derivation *)

(** Reduces the projections of the options after a DTO was stored. *)
Ltac options_simpl :=
  cbn beta iota delta
    [fst snd createDto updateDto entity set_createDto set_updateDto].

Lemma createDtos_both_set (options : CrudOptions) (reg : registry) :
  is_Some (createDto (createDtos options reg).1) ∧
  is_Some (updateDto (createDtos options reg).1).
Proof.
  unfold createDtos.
  destruct (createDto options) as [c|] eqn:Hc,
           (updateDto options) as [u|] eqn:Hu;
    repeat (options_simpl; rewrite ?Hc, ?Hu;
            try match goal with
                | |- context [DefaultCreateDto ?e ?x ?r] =>
                    destruct (DefaultCreateDto e x r)
                | |- context [DefaultUpdateDto ?e ?c ?r] =>
                    destruct (DefaultUpdateDto e c r)
                end);
    eauto.
Qed.

(** C8: the DTOs are derived when [Crud] is evaluated and stored in the
    options; a second call of the factory with these options changes neither
    the options nor the storages, so both DTOs stay those of the first call,
    and a DTO that the options already named is kept. *)
Theorem createDtos_idempotent (options : CrudOptions) (reg : registry) :
  createDtos (Crud options reg).1 (Crud options reg).2 = Crud options reg ∧
  is_Some (createDto (Crud options reg).1) ∧
  is_Some (updateDto (Crud options reg).1) ∧
  (∀ c, createDto options = Some c → createDto (Crud options reg).1 = Some c) ∧
  (∀ u, updateDto options = Some u → updateDto (Crud options reg).1 = Some u).
Proof.
  unfold Crud.
  destruct (createDtos_both_set options reg) as [[c Hc] [u Hu]].
  split; [|split; [eauto|split; [eauto|]]].
  - destruct (createDtos options reg) as [o1 r1]. cbn in *.
    unfold createDtos. rewrite Hc, Hu. reflexivity.
  - unfold createDtos. split.
    + intros c' Hc'. rewrite Hc'.
      destruct (updateDto options) as [u'|] eqn:Hu';
        repeat (options_simpl; rewrite ?Hc', ?Hu';
                try match goal with
                    | |- context [DefaultUpdateDto ?e ?c ?r] =>
                        destruct (DefaultUpdateDto e c r)
                    end);
        reflexivity.
    + intros u' Hu'. rewrite Hu'.
      destruct (createDto options) as [c'|] eqn:Hc';
        repeat (options_simpl; rewrite ?Hc', ?Hu';
                try match goal with
                    | |- context [DefaultCreateDto ?e ?x ?r] =>
                        destruct (DefaultCreateDto e x r)
                    end);
        reflexivity.
Qed.

(** ** More on the handlers and the service *)

Lemma head_filter_Some (P : obj → bool) (l : list obj) (e : obj) :
  head (List.filter P l) = Some e → e ∈ l ∧ P e = true.
Proof.
  intros H. assert (Hin : In e (List.filter P l)).
  { destruct (List.filter P l); [discriminate|]. injection H as ->. by left. }
  apply filter_In in Hin as [Hin HP]. split; [by apply list_elem_of_In | exact HP].
Qed.

(** X1: [read] never changes the table. It ends in the error of the [ObjectId]
    constructor before any lookup, or after one lookup in not-found, or in
    the first row of the table that satisfies the scoping filter and has the
    key. *)
Theorem read_outcome (opts : CrudOptions) (req : request)
    (params : gmap string string) (id : string) (w0 : world) :
  read opts req params id w0 = (Throw BSONError, w0) ∨
  ∃ v,
    let w := Plain (<[primaryKey opts := CVal v]>
                      (spread_unawaited (call_filter opts req params))) in
    parseId opts id w0 = (Return v, w0) ∧
    ((head (select w (rows w0)) = None ∧
      read opts req params id w0
      = (Throw (NotFoundException (not_found_message opts)),
         logged [FindOne w] w0)) ∨
     (∃ r, r ∈ rows w0 ∧ matches w r = true ∧
        read opts req params id w0 = (Return r, logged [FindOne w] w0))).
Proof.
  unfold read, service_findOne, repository_findOne.
  destruct (parseId_outcome opts id w0) as [[v Hv] | Hthrow].
  - right. exists v. split; [exact Hv|]. run.
    rewrite (id_where_parsed _ _ _ _ _ _ Hv). cbn [rows calls].
    destruct (head _) as [r|] eqn:Hr; [right | left; auto].
    apply head_filter_Some in Hr as [Hin Hm]. eauto.
  - left. unfold id_where. run. by rewrite Hthrow.
Qed.

Lemma select_after_delete (w : where_arg) (l : list obj) :
  select w (List.filter (λ e, negb (matches w e)) l) = [].
Proof.
  unfold select. induction l as [|e l IH]; cbn; [reflexivity|].
  destruct (matches w e) eqn:He; cbn; rewrite ?He; exact IH.
Qed.

Lemma elem_of_after_delete (w : where_arg) (l : list obj) (e : obj) :
  e ∈ List.filter (λ e, negb (matches w e)) l ↔ e ∈ l ∧ matches w e = false.
Proof.
  rewrite !list_elem_of_In, filter_In, negb_true_iff. reflexivity.
Qed.

(** X6: [BaseService.delete] removes the rows that the [where] selects and no
    other, keeps the order of the rest, and returns how many it removed; the
    [deleted] event carries the first of them, or nothing when there was
    none. *)
Theorem service_delete_spec (svc : BaseService) (w : where_arg) (w0 : world) :
  ∃ w1,
    service_delete svc w w0
    = (Return (Z.of_nat (length (select w (rows w0)))), w1) ∧
    rows w1 = List.filter (λ e, negb (matches w e)) (rows w0) ∧
    select w (rows w1) = [] ∧
    (∀ e, e ∈ rows w1 ↔ e ∈ rows w0 ∧ matches w e = false) ∧
    calls w1 = calls w0 ++ [FindOne w] ++
      (if eventEmitter svc
       then [Emit (slug svc +:+ ".deleted") (head (select w (rows w0)))]
       else []) ++ [NativeDelete w].
Proof.
  unfold service_delete, service_findOne, repository_findOne,
    repository_nativeDelete, emit.
  destruct (eventEmitter svc); run; eexists; (split; [reflexivity|]);
    cbn [rows calls]; (split; [reflexivity|]);
    (split; [apply select_after_delete|]);
    (split; [intros e; apply elem_of_after_delete|]);
    rewrite <- ?app_assoc; reflexivity.
Qed.

(** X7: [BaseService.update] with a [where] that selects no row fails in
    [Object.assign] on [null]: nothing is written and no event is emitted. *)
Theorem service_update_absent (svc : BaseService) (w : where_arg) (data : obj)
    (w0 : world) :
  head (select w (rows w0)) = None →
  service_update svc w data w0 = (Throw TypeError, logged [FindOne w] w0).
Proof.
  intros H. unfold service_update, service_findOne, repository_findOne. run.
  by rewrite H.
Qed.

(** X8: With pagination switched off, [query] ignores [page] and [limit] and
    returns every row that the awaited filter selects, in the order that
    the configured sort gives, after one unbounded [find]. *)
Theorem query_unpaginated (opts : CrudOptions) (req : request)
    (params : gmap string string) (page limit : query_value) (w0 : world) :
  queryUsesPagination opts = false →
  query opts req params page limit w0
  = (Return (Listed (match orderBy_of opts with
                     | Some ob => sort_rows ob
                                    (select (Plain (query_filter opts req params))
                                       (rows w0))
                     | None => select (Plain (query_filter opts req params))
                                 (rows w0)
                     end)),
     logged [Find (Plain (query_filter opts req params))
               {| fo_offset := None; fo_limit := None;
                  fo_orderBy := orderBy_of opts |}] w0).
Proof.
  intros H. unfold query. rewrite H.
  unfold service_findAll, repository_find, window, ordered. run. cbn.
  destruct (orderBy_of opts); reflexivity.
Qed.

(** X9: In [create] a field set by [defaultValues] wins over one set by
    [persist], which wins over the one of the request body; the entity built
    from the merged data becomes the last row of the table and is the
    payload of the [created] event. *)
Theorem create_merges_by_priority (em_create : obj → obj)
    (persist defaultValues :
       option (request → gmap string string → awaitable (option obj)))
    (svc : BaseService) (body : obj) (req : request)
    (params : gmap string string) (w0 : world) :
  let data := with_persist_and_defaults persist defaultValues req params body in
  (∀ k, data !! k
        = match call_values defaultValues req params !! k with
          | Some v => Some v
          | None => match call_values persist req params !! k with
                    | Some v => Some v
                    | None => body !! k
                    end
          end) ∧
  create em_create persist defaultValues svc body req params w0
  = (Return (em_create data),
     {| rows := rows w0 ++ [em_create data];
        calls := calls w0 ++ [Flush (em_create data)] ++
          (if eventEmitter svc
           then [Emit (slug svc +:+ ".created") (Some (em_create data))]
           else []) |}).
Proof.
  intros data. split.
  - intros k. unfold data, with_persist_and_defaults, Object_assign.
    rewrite !lookup_union.
    destruct (call_values defaultValues req params !! k),
             (call_values persist req params !! k), (body !! k); reflexivity.
  - unfold create, service_create, persist_and_flush, emit. fold data.
    destruct (eventEmitter svc); run; rewrite <- ?app_assoc, ?app_nil_r;
      reflexivity.
Qed.

Lemma persist_one (entity : obj) (w1 : world) :
  persist_and_flush entity w1
  = (Return tt, {| rows := rows w1 ++ [entity];
                   calls := calls w1 ++ [Flush entity] |}).
Proof. reflexivity. Qed.

Lemma emit_one (svc : BaseService) (event : string) (payload : option obj)
    (w1 : world) :
  emit svc event payload w1
  = (Return tt,
     logged (if eventEmitter svc then [Emit (slug svc +:+ event) payload]
             else []) w1).
Proof.
  unfold emit. destruct (eventEmitter svc); [reflexivity|].
  by rewrite logged_nil.
Qed.

Lemma persist_all (entities : list obj) :
  ∀ w1,
    foldr (λ entity k, _ ← persist_and_flush entity; k) (mret tt) entities w1
    = (Return tt, {| rows := rows w1 ++ entities;
                     calls := calls w1 ++ (Flush <$> entities) |}).
Proof.
  induction entities as [|e l IH]; intros w1.
  - destruct w1. cbn. by rewrite !app_nil_r.
  - cbn [foldr]. unfold mbind at 1, M_bind at 1.
    rewrite persist_one, IH. cbn. by rewrite <- !app_assoc.
Qed.

Lemma emit_all (svc : BaseService) (event : string) (entities : list obj) :
  ∀ w1,
    foldr (λ entity k, _ ← emit svc event (Some entity); k) (mret tt) entities w1
    = (Return tt,
       logged (if eventEmitter svc
               then (λ e, Emit (slug svc +:+ event) (Some e)) <$> entities
               else []) w1).
Proof.
  induction entities as [|e l IH]; intros w1.
  - cbn. destruct (eventEmitter svc); by rewrite logged_nil.
  - cbn [foldr]. unfold mbind at 1, M_bind at 1.
    rewrite emit_one, IH, logged_logged.
    destruct (eventEmitter svc); reflexivity.
Qed.

(** X10: [import] merges [persist] and [defaultValues] into every item, appends
    the entities to the table in the order of the request, and only then
    emits one [created] event per entity, in that order. *)
Theorem import_appends_in_order (em_create : obj → obj)
    (persist defaultValues :
       option (request → gmap string string → awaitable (option obj)))
    (svc : BaseService) (body : list obj) (req : request)
    (params : gmap string string) (w0 : world) :
  let entities :=
    (λ item, em_create
               (with_persist_and_defaults persist defaultValues req params item))
      <$> body in
  import em_create persist defaultValues svc body req params w0
  = (Return entities,
     {| rows := rows w0 ++ entities;
        calls := calls w0 ++ (Flush <$> entities) ++
          (if eventEmitter svc
           then (λ e, Emit (slug svc +:+ ".created") (Some e)) <$> entities
           else []) |}).
Proof.
  intros entities. unfold import, service_createMany.
  rewrite <- list_fmap_compose. fold entities.
  unfold mbind at 1, M_bind at 1. rewrite persist_all.
  unfold mbind at 1, M_bind at 1. rewrite emit_all.
  unfold logged, mret, M_ret. cbn. by rewrite <- app_assoc.
Qed.

(** ** Export under any schedule *)

(** One resumption yields the next row that was still to come, or nothing,
    and leaves the rest to come, or gives up what was to come. *)
Lemma generateData_step_future (w : where_arg) (rs : list obj) (a : bool)
    (st : gen_state) (w1 : world) :
  gen_ok w rs st → rows w1 = rs →
  ∃ st' y w2,
    generateData_step w a st w1 = (Return (st', instanceToPlain <$> y), w2) ∧
    gen_ok w rs st' ∧ rows w2 = rs ∧
    (option_list y ++ future w rs st') `prefix_of` future w rs st.
Proof.
  intros Hok Hrows. destruct st as [page | page [|item rest] n |].
  - destruct a.
    + exists Finished, None, w1. cbn. repeat split; auto. apply prefix_nil.
    + cbn in Hok. replace page with (Z.of_nat (Z.to_nat page)) by lia.
      rewrite step_LoopHead, Hrows.
      destruct (decide _) as [Hz | Hnz].
      * exists Finished, None. eexists. repeat split; auto. apply prefix_nil.
      * exists (Yielding (Z.of_nat (Z.to_nat page))
                  (batch w rs (Z.to_nat page))
                  (length (batch w rs (Z.to_nat page)))), None.
        eexists. split; [reflexivity|]. cbn [gen_ok future option_list app].
        rewrite !Nat2Z.id.
        split; [split; [lia | split; [reflexivity | by exists []]]|].
        split; [exact Hrows|].
        unfold batch.
        replace ((Z.to_nat page + 1) * 500)%nat
          with (Z.to_nat page * 500 + 500)%nat by lia.
        rewrite <- drop_drop, take_drop. reflexivity.
  - destruct Hok as (Hp & Hn & pre & Hpre).
    destruct (Z.of_nat n <? batchSize) eqn:Hlt.
    + exists Finished, None, w1. cbn. rewrite Hlt.
      split; [reflexivity|]. split; [exact I|]. split; [exact Hrows|].
      apply prefix_nil.
    + exists (LoopHead (page + 1)), None, w1. cbn. rewrite Hlt.
      split; [reflexivity|]. split; [lia|]. split; [exact Hrows|].
      replace (Z.to_nat (page + 1)) with (Z.to_nat page + 1)%nat by lia.
      reflexivity.
  - exists (Yielding page rest n), (Some item), w1. cbn.
    destruct Hok as (Hp & Hn & pre & Hpre).
    split; [reflexivity|].
    split; [split; [exact Hp | split; [exact Hn|]]|].
    + exists (pre ++ [item]). by rewrite <- app_assoc.
    + split; [exact Hrows | reflexivity].
  - exists Finished, None, w1. cbn. repeat split; auto.
Qed.

Lemma generateData_future (w : where_arg) (rs : list obj) (closes : list bool) :
  ∀ (a : bool) (st : gen_state) (w1 : world),
    gen_ok w rs st → rows w1 = rs →
    ∃ ys final w2,
      generateData w closes a st w1
      = (Return (instanceToPlain <$> ys, final), w2) ∧
      rows w2 = rs ∧ ys `prefix_of` future w rs st.
Proof.
  induction closes as [|c cs IH]; intros a st w1 Hok Hrows.
  - exists [], st, w1. cbn. repeat split; auto. apply prefix_nil.
  - cbn [generateData]. unfold mbind at 1, M_bind at 1.
    destruct (generateData_step_future w rs (a || c) st w1 Hok Hrows)
      as (st' & y & w2 & -> & Hok' & Hrows' & Hpre).
    unfold mbind, M_bind.
    destruct (IH (a || c) st' w2 Hok' Hrows') as (ys & final & w3 & -> & Hrows3 & Hys).
    exists (option_list y ++ ys), final, w3. cbn.
    split; [|split; [exact Hrows3|]].
    + rewrite fmap_app. by destruct y.
    + etrans; [|exact Hpre]. by apply prefix_app.
Qed.

(** X11: Whatever the consumer pulls and whenever the connection closes, what
    [export] has yielded is the plain form of a prefix, in query order, of
    the rows that its where-argument selects, and the table is as before.
    The where-argument is what the scoping callback returned, not awaited:
    the filter itself when the callback answers at once or is absent, the
    promise when the callback is asynchronous. *)
Theorem export_yields_prefix (opts : CrudOptions) (req : request)
    (params : gmap string string) (closes : list bool) (w0 : world) :
  ∃ ys final w1,
    export opts req params closes w0
    = (Return (export_response opts req (instanceToPlain <$> ys) final, final),
       w1) ∧
    rows w1 = rows w0 ∧
    ys `prefix_of` select (pass_unawaited (call_filter opts req params)) (rows w0) ∧
    (∀ f, call_filter opts req params = Now f →
          ys `prefix_of` select (Plain (query_filter opts req params)) (rows w0)) ∧
    (∀ f, call_filter opts req params = Promise f →
          ys `prefix_of` select (Pending f) (rows w0)).
Proof.
  destruct (generateData_future (pass_unawaited (call_filter opts req params))
              (rows w0) closes false (LoopHead 0) w0)
    as (ys & final & w1 & H & Hrows & Hpre); [cbn; lia | reflexivity |].
  exists ys, final, w1. split; [by apply export_run|].
  split; [exact Hrows|]. split; [exact Hpre|].
  split; intros f Hf.
  - unfold query_filter. rewrite Hf in Hpre |- *. by destruct f.
  - by rewrite Hf in Hpre.
Qed.

(** ** More on the query filters *)

Lemma elem_of_swagger_params (meta : EntityMetadata) (entity : class_)
    (l : list (string * filter_config)) (p : ApiQueryOptions) :
  ∀ acc,
    p ∈ foldl (λ params entry, params ++ swagger_entry meta entity entry) acc l
    ↔ p ∈ acc ∨ ∃ entry, entry ∈ l ∧ p ∈ swagger_entry meta entity entry.
Proof.
  induction l as [|e l IH]; intros acc; cbn [foldl].
  - split; [auto|]. intros [H | (e & He & _)]; [exact H|].
    by apply elem_of_nil in He.
  - rewrite IH, elem_of_app. split.
    + intros [[H | H] | (e' & He' & H)]; auto.
      * right. exists e. split; [left | exact H].
      * right. exists e'. split; [by right | exact H].
    + intros [H | (e' & [-> | He']%elem_of_cons & H)]; eauto.
Qed.

(** Two queries that agree on the parameters documented for an entry are
    parsed alike by that entry. *)
Lemma parse_entry_agree (meta : EntityMetadata) (entity : class_)
    (q1 q2 : gmap string string) (where' : where_)
    (entry : string * filter_config) :
  (∀ p, p ∈ swagger_entry meta entity entry → q1 !! q_name p = q2 !! q_name p) →
  parse_entry meta entity q1 where' entry = parse_entry meta entity q2 where' entry.
Proof.
  destruct entry as [key [[|]|f]]; unfold swagger_entry, parse_entry;
    intros Hagree; [|reflexivity|].
  - destruct (property_of meta key) as [prop|]; [|reflexivity].
    pose proof (Hagree _ ltac:(left)) as He. cbn [q_name] in He. rewrite He.
    destruct (isString (type prop)) eqn:Hs.
    + pose proof (Hagree _ ltac:(right; left)) as Hc. cbn [q_name] in Hc.
      rewrite Hc.
      destruct (isString_not_others _ Hs) as (-> & -> & _). reflexivity.
    + destruct (isNumber (type prop) || isDate (type prop)) eqn:Hnd.
      * pose proof (Hagree _ ltac:(right; left)) as Hmin.
        pose proof (Hagree _ ltac:(right; right; left)) as Hmax.
        cbn [q_name] in Hmin, Hmax. rewrite Hmin, Hmax.
        destruct (q1 !! (exposedName_of entity key +:+ ".contains")),
                 (q2 !! (exposedName_of entity key +:+ ".contains"));
          reflexivity.
      * cbn [andb].
        destruct (q1 !! (exposedName_of entity key +:+ ".contains")),
                 (q2 !! (exposedName_of entity key +:+ ".contains"));
          reflexivity.
  - pose proof (Hagree _ ltac:(left)) as He. cbn [q_name] in He. by rewrite He.
Qed.

(** X15: [parseQueryFilters] reads the query through the parameters that
    [getSwaggerQueryParams] documents, and through no other: two queries
    that agree on every documented name give the same filter. *)
Theorem parseQueryFilters_reads_documented_parameters (entity : class_)
    (filterConfig : list (string * filter_config)) (q1 q2 : gmap string string) :
  (∀ p, p ∈ getSwaggerQueryParams entity filterConfig →
        q1 !! q_name p = q2 !! q_name p) →
  parseQueryFilters q1 filterConfig entity
  = parseQueryFilters q2 filterConfig entity.
Proof.
  unfold getSwaggerQueryParams, parseQueryFilters.
  destruct (orm_metadata (info entity)) as [meta|]; [|reflexivity].
  intros Hagree.
  assert (Hentries : ∀ entry p, entry ∈ filterConfig →
            p ∈ swagger_entry meta entity entry → q1 !! q_name p = q2 !! q_name p).
  { intros entry p He Hp. apply Hagree, elem_of_swagger_params. eauto. }
  clear Hagree. generalize (∅ : where_).
  induction filterConfig as [|e l IH]; intros where'; cbn [foldl]; [reflexivity|].
  rewrite (parse_entry_agree meta entity q1 q2 where' e).
  - apply IH. intros entry p He. apply Hentries. by right.
  - intros p. apply Hentries. left.
Qed.

Lemma parse_entry_origin (meta : EntityMetadata) (entity : class_)
    (query : gmap string string) (where' : where_)
    (entry : string * filter_config) (k : string) :
  is_Some (parse_entry meta entity query where' entry !! k) →
  is_Some (where' !! k) ∨ condition_origin meta entity query entry k.
Proof.
  destruct entry as [key [[|]|f]]; unfold parse_entry, condition_origin;
    cbn [fst snd]; [|auto|].
  - destruct (property_of meta key) as [prop|] eqn:Hprop; [|auto].
    destruct (decide (key = k)) as [-> | Hne].
    + intros H.
      destruct (query !! exposedName_of entity k) as [x|] eqn:Hx;
        [right; split; [reflexivity|]; exists prop; split; [exact Hprop|];
         left; eauto |].
      destruct (isString (type prop)) eqn:Hs.
      * destruct (query !! (exposedName_of entity k +:+ ".contains")) as [c|] eqn:Hc.
        -- right. split; [reflexivity|]. exists prop. split; [exact Hprop|].
           right. left. eauto.
        -- destruct (isString_not_others _ Hs) as (Hn & Hd & _).
           rewrite Hn, Hd in H. cbn in H. auto.
      * destruct (isNumber (type prop) || isDate (type prop)) eqn:Hnd.
        -- destruct (bool_decide (is_Some (query !! (exposedName_of entity k +:+ ".min")))
                     || bool_decide (is_Some (query !! (exposedName_of entity k +:+ ".max"))))
             eqn:Hb.
           ++ right. split; [reflexivity|]. exists prop. split; [exact Hprop|].
              right. right. split; [exact Hnd|].
              apply orb_true_iff in Hb as [Hb | Hb];
                apply bool_decide_eq_true in Hb; auto.
           ++ cbn [andb] in H.
              destruct (query !! (exposedName_of entity k +:+ ".contains")); auto.
        -- cbn [andb] in H.
           destruct (query !! (exposedName_of entity k +:+ ".contains")); auto.
    + intros H. left. revert H.
      repeat (match goal with
              | |- context [match ?x with _ => _ end] => destruct x
              end; rewrite ?lookup_insert_ne by exact Hne); auto.
  - destruct (query !! exposedName_of entity key) as [v|] eqn:Hv; [|auto].
    intros [c Hc]. apply lookup_union_Some_raw in Hc as [Hc | [_ Hc]]; eauto.
Qed.

(** X16: Every condition of the filter that [parseQueryFilters] builds comes from
    an entry of the configuration: from an enabled field that the schema
    knows and for which the query carries a parameter, or from a custom
    function called on its parameter. A disabled field, a field unknown to
    the schema and a field without parameter leave no condition. *)
Theorem parseQueryFilters_condition_origin (entity : class_)
    (filterConfig : list (string * filter_config)) (query : gmap string string)
    (k : string) :
  is_Some (parseQueryFilters query filterConfig entity !! k) →
  ∃ meta entry,
    orm_metadata (info entity) = Some meta ∧ entry ∈ filterConfig ∧
    condition_origin meta entity query entry k.
Proof.
  unfold parseQueryFilters.
  destruct (orm_metadata (info entity)) as [meta|];
    [|rewrite lookup_empty; by intros [? ?]].
  intros H. exists meta.
  assert (Hgen : ∀ where' : where_,
            is_Some (foldl (parse_entry meta entity query) where' filterConfig !! k) →
            is_Some (where' !! k)
            ∨ ∃ entry, entry ∈ filterConfig ∧
                       condition_origin meta entity query entry k).
  { clear H. induction filterConfig as [|e l IH]; intros where' H; cbn [foldl] in H.
    - by left.
    - destruct (IH _ H) as [H' | (entry & He & Ho)].
      + destruct (parse_entry_origin _ _ _ _ _ _ H') as [Hw | Ho]; [by left|].
        right. exists e. split; [left | exact Ho].
      + right. exists entry. split; [by right | exact Ho]. }
  destruct (Hgen ∅ H) as [[c Hc] | (entry & He & Ho)]; [|eauto].
  by rewrite lookup_empty in Hc.
Qed.

Lemma parse_entry_empty_query (meta : EntityMetadata) (entity : class_)
    (where' : where_) (entry : string * filter_config) :
  parse_entry meta entity ∅ where' entry = where'.
Proof.
  destruct entry as [key [[|]|f]]; unfold parse_entry;
    rewrite ?lookup_empty; [|reflexivity..].
  destruct (property_of meta key) as [prop|]; [|reflexivity].
  cbn zeta. rewrite andb_false_r. reflexivity.
Qed.

(** X17: A query without parameters gives the empty filter, whatever the
    configuration. *)
Theorem parseQueryFilters_empty_query (entity : class_)
    (filterConfig : list (string * filter_config)) :
  parseQueryFilters ∅ filterConfig entity = ∅.
Proof.
  unfold parseQueryFilters.
  destruct (orm_metadata (info entity)) as [meta|]; [|reflexivity].
  induction filterConfig as [|entry l IH]; cbn [foldl]; [reflexivity|].
  rewrite parse_entry_empty_query. exact IH.
Qed.

(** ** The handlers on an entity that is found *)

(** X4: When the lookup of the handler finds an entity, [delete] removes the
    rows that the primary key of that entity selects, the scoping filter
    taking no part in the removal, and keeps every other row in its place;
    the event carries the row that the second lookup finds. *)
Theorem delete_removes_by_key (opts : CrudOptions) (svc : BaseService)
    (req : request) (params : gmap string string) (id : string) (v : prim)
    (r : obj) (w0 : world) :
  let w := Plain (<[primaryKey opts := CVal v]>
                    (spread_unawaited (call_filter opts req params))) in
  let key := key_where opts r in
  parseId opts id w0 = (Return v, w0) →
  head (select w (rows w0)) = Some r →
  ∃ w1,
    delete_ opts svc req params id w0 = (Return tt, w1) ∧
    rows w1 = List.filter (λ e, negb (matches key e)) (rows w0) ∧
    (∀ e, e ∈ rows w1 ↔ e ∈ rows w0 ∧ matches key e = false) ∧
    calls w1 = calls w0 ++ [FindOne w; FindOne key] ++
      (if eventEmitter svc
       then [Emit (slug svc +:+ ".deleted") (head (select key (rows w0)))]
       else []) ++ [NativeDelete key].
Proof.
  intros w key Hid Hr.
  unfold delete_, service_findOne, repository_findOne. run.
  rewrite (id_where_parsed _ _ _ _ _ _ Hid). fold w. cbn [rows calls].
  rewrite Hr. fold key.
  unfold service_delete, service_findOne, repository_findOne,
    repository_nativeDelete, emit.
  destruct (eventEmitter svc); run; eexists; (split; [reflexivity|]);
    cbn [rows calls]; (split; [reflexivity|]);
    (split; [intros e; apply elem_of_after_delete|]);
    rewrite <- ?app_assoc; reflexivity.
Qed.

(** X5: When the lookup of the handler finds an entity, [replace] merges the
    body into the first row that the primary key of that entity selects:
    every key of the body is written, a key whose value is [undefined]
    included, every field that the body does not have keeps its stored
    value, and no other row changes. *)
Theorem replace_merges_body (opts : CrudOptions) (svc : BaseService)
    (body : obj) (req : request) (params : gmap string string) (id : string)
    (v : prim) (r e : obj) (w0 : world) :
  let w := Plain (<[primaryKey opts := CVal v]>
                    (spread_unawaited (call_filter opts req params))) in
  parseId opts id w0 = (Return v, w0) →
  head (select w (rows w0)) = Some r →
  head (select (key_where opts r) (rows w0)) = Some e →
  ∃ pre post w1,
    replace opts svc body req params id w0 = (Return (body ∪ e), w1) ∧
    rows w0 = pre ++ e :: post ∧
    rows w1 = pre ++ (body ∪ e) :: post ∧
    (∀ k x, body !! k = Some x → (body ∪ e) !! k = Some x) ∧
    (∀ k, body !! k = None → (body ∪ e) !! k = e !! k) ∧
    calls w1 = calls w0 ++
      [FindOne w; FindOne (key_where opts r); Flush body] ++
      (if eventEmitter svc
       then [Emit (slug svc +:+ ".updated") (Some (body ∪ e))] else []).
Proof.
  intros w Hid Hr He.
  destruct (update_first_split (matches (key_where opts r))
              (λ e0, body ∪ e0) (rows w0) e He)
    as (pre & post & Hrows & _ & Hupd).
  exists pre, post.
  assert (Hrun : ∃ w1,
    replace opts svc body req params id w0 = (Return (body ∪ e), w1) ∧
    calls w1 = calls w0 ++
      [FindOne w; FindOne (key_where opts r); Flush body] ++
      (if eventEmitter svc
       then [Emit (slug svc +:+ ".updated") (Some (body ∪ e))] else []) ∧
    rows w1 = update_first (matches (key_where opts r))
                (λ e0, body ∪ e0) (rows w0)).
  { unfold replace, service_findOne, repository_findOne. run.
    rewrite (id_where_parsed _ _ _ _ _ _ Hid). fold w. cbn [rows calls].
    rewrite Hr. unfold service_update, service_findOne, repository_findOne.
    run. rewrite He. unfold assign_and_flush, emit. run.
    destruct (eventEmitter svc); run; eexists; (split; [reflexivity|]);
      cbn [rows calls]; rewrite <- ?app_assoc; split; reflexivity. }
  destruct Hrun as (w1 & Hrun & Hcalls & Hrows1).
  exists w1. split; [exact Hrun|]. split; [exact Hrows|].
  split; [by rewrite Hrows1|]. split; [|split; [|exact Hcalls]].
  - intros k x Hk. by apply lookup_union_Some_l.
  - intros k Hk. by apply lookup_union_r.
Qed.

End Runtime.

(** * The DTO factory *)

(** *** The scan of the class chain *)

Lemma foldl_preserves {A S : Type} (P : S → Prop) (step : S → A → S)
    (l : list A) :
  (∀ st x, P st → P (step st x)) → ∀ st, P st → P (foldl step st l).
Proof. intros Hstep. induction l as [|x l IH]; cbn; auto. Qed.

Lemma foldl_elem {A : Type} (proj : scan → gset string) (I : scan → Prop)
    (step : scan → A → scan) (adds : A → string → Prop) (l : list A) :
  (∀ st x, I st → I (step st x)) →
  (∀ st x g, I st → g ∈ proj (step st x) ↔ g ∈ proj st ∨ adds x g) →
  ∀ st, I st →
    ∀ f, f ∈ proj (foldl step st l) ↔ f ∈ proj st ∨ ∃ x, x ∈ l ∧ adds x f.
Proof.
  intros HI Hstep. induction l as [|x l IH]; intros st Hst f; cbn [foldl].
  - split; [auto|]. intros [H | (x & Hx & _)]; [exact H|].
    by apply elem_of_nil in Hx.
  - rewrite IH by auto. rewrite Hstep by exact Hst. split.
    + intros [[H | H] | (y & Hy & H)]; auto.
      * right. exists x. split; [left | exact H].
      * right. exists y. split; [by right | exact H].
    + intros [H | (y & Hy & H)]; [auto|].
      apply elem_of_cons in Hy as [-> | Hy]; eauto.
Qed.

Lemma foldl_excluded {A : Type} (I : scan → Prop) (step : scan → A → scan)
    (adds : A → string → Prop) (l : list A) :
  (∀ st x, I st → I (step st x)) →
  (∀ st x g, I st → g ∈ excluded (step st x) ↔ g ∈ excluded st ∨ adds x g) →
  ∀ st, I st →
    ∀ f, f ∈ excluded (foldl step st l)
         ↔ f ∈ excluded st ∨ ∃ x, x ∈ l ∧ adds x f.
Proof. apply (foldl_elem excluded). Qed.

Lemma same_transformer_refl (st : scan) : same_transformer st st.
Proof. by repeat split. Qed.

Lemma same_transformer_trans (st1 st2 st3 : scan) :
  same_transformer st1 st2 → same_transformer st2 st3 →
  same_transformer st1 st3.
Proof. intros (? & ? & ?) (? & ? & ?). repeat split; congruence. Qed.

Lemma add_excluded_if_same (b : bool) (p : string) (st : scan) :
  same_transformer st (add_excluded_if b p st).
Proof. destruct b; by repeat split. Qed.

Lemma add_excluded_if_elem (b : bool) (p : string) (st : scan) (g : string) :
  g ∈ excluded (add_excluded_if b p st) ↔ g ∈ excluded st ∨ (b = true ∧ g = p).
Proof.
  destruct b; cbn.
  - rewrite elem_of_union, elem_of_singleton. intuition congruence.
  - intuition congruence.
Qed.

Lemma scan_strategy_excluded (c : class_) (st : scan) :
  excluded (scan_strategy c st) = excluded st ∧
  exposedTransformerProps (scan_strategy c st) = exposedTransformerProps st ∧
  excludedTransformerProps (scan_strategy c st) = excludedTransformerProps st ∧
  transformerStrategy (scan_strategy c st)
  = match getStrategy (info c) with
    | Some none | None => transformerStrategy st
    | Some s => s
    end.
Proof.
  unfold scan_strategy. destruct (getStrategy (info c)) as [[| |]|]; auto.
Qed.

Lemma scan_exposed_spec (c : class_) (st : scan) :
  excluded (scan_exposed c st) = excluded st ∧
  transformerStrategy (scan_exposed c st) = transformerStrategy st ∧
  excludedTransformerProps (scan_exposed c st) = excludedTransformerProps st ∧
  ∀ g, g ∈ exposedTransformerProps (scan_exposed c st)
       ↔ g ∈ exposedTransformerProps st
         ∨ ∃ m, m ∈ getExposedMetadatas (info c) ∧
                expose_propertyName m = Some g ∧ expose_toPlainOnly m = false.
Proof.
  unfold scan_exposed.
  assert (Hkeep :
            (λ st'', excluded st'' = excluded st ∧
                     transformerStrategy st'' = transformerStrategy st ∧
                     excludedTransformerProps st'' = excludedTransformerProps st)
              (foldl (λ st m,
                 match expose_toPlainOnly m, expose_propertyName m with
                 | false, Some p =>
                     {| transformerStrategy := transformerStrategy st;
                        exposedTransformerProps := {[p]} ∪ exposedTransformerProps st;
                        excludedTransformerProps := excludedTransformerProps st;
                        excluded := excluded st |}
                 | _, _ => st
                 end) st (getExposedMetadatas (info c)))).
  { apply foldl_preserves; [|auto].
    intros st' m (HE & HS & HK).
    destruct (expose_toPlainOnly m), (expose_propertyName m); auto. }
  destruct Hkeep as (HE & HS & HY).
  split; [exact HE|]. split; [exact HS|]. split; [exact HY|].
  intros g.
  rewrite (foldl_elem exposedTransformerProps (λ _, True) _
             (λ m g, expose_propertyName m = Some g ∧ expose_toPlainOnly m = false));
    [reflexivity | auto | | exact I].
  intros st' m g' _.
  destruct (expose_toPlainOnly m), (expose_propertyName m) as [p|];
    cbn [exposedTransformerProps];
    rewrite ?elem_of_union, ?elem_of_singleton; intuition congruence.
Qed.

Lemma scan_excludedMeta_spec (c : class_) (st : scan) :
  excluded (scan_excludedMeta c st) = excluded st ∧
  transformerStrategy (scan_excludedMeta c st) = transformerStrategy st ∧
  exposedTransformerProps (scan_excludedMeta c st) = exposedTransformerProps st ∧
  ∀ g, g ∈ excludedTransformerProps (scan_excludedMeta c st)
       ↔ g ∈ excludedTransformerProps st
         ∨ ∃ m, m ∈ getExcludedMetadatas (info c) ∧
                exclude_propertyName m = Some g ∧ exclude_toPlainOnly m = false.
Proof.
  unfold scan_excludedMeta.
  assert (Hkeep :
            (λ st'', excluded st'' = excluded st ∧
                     transformerStrategy st'' = transformerStrategy st ∧
                     exposedTransformerProps st'' = exposedTransformerProps st)
              (foldl (λ st m,
                 match exclude_toPlainOnly m, exclude_propertyName m with
                 | false, Some p =>
                     {| transformerStrategy := transformerStrategy st;
                        exposedTransformerProps := exposedTransformerProps st;
                        excludedTransformerProps := {[p]} ∪ excludedTransformerProps st;
                        excluded := excluded st |}
                 | _, _ => st
                 end) st (getExcludedMetadatas (info c)))).
  { apply foldl_preserves; [|auto].
    intros st' m (HE & HS & HK).
    destruct (exclude_toPlainOnly m), (exclude_propertyName m); auto. }
  destruct Hkeep as (HE & HS & HX).
  split; [exact HE|]. split; [exact HS|]. split; [exact HX|].
  intros g.
  rewrite (foldl_elem excludedTransformerProps (λ _, True) _
             (λ m g, exclude_propertyName m = Some g ∧ exclude_toPlainOnly m = false));
    [reflexivity | auto | | exact I].
  intros st' m g' _.
  destruct (exclude_toPlainOnly m), (exclude_propertyName m) as [p|];
    cbn [excludedTransformerProps];
    rewrite ?elem_of_union, ?elem_of_singleton; intuition congruence.
Qed.

Lemma scan_swaggerProps_spec (c : class_) (st : scan) :
  same_transformer st (scan_swaggerProps c st) ∧
  ∀ g, g ∈ excluded (scan_swaggerProps c st)
       ↔ g ∈ excluded st
         ∨ ∃ entry, entry ∈ default [] (getMetadata own_swagger_array c) ∧
             propertyKey_of entry = g ∧
             (swagger_readOnly c g = true ∨
              ∃ d, own_descriptor c g = Some d ∧ writable d = false).
Proof.
  unfold scan_swaggerProps. split.
  - apply (foldl_preserves (same_transformer st)); [|apply same_transformer_refl].
    intros st' prop Hst'. eapply same_transformer_trans; [exact Hst'|].
    eapply same_transformer_trans; [apply add_excluded_if_same|].
    destruct (own_descriptor c (propertyKey_of prop));
      [apply add_excluded_if_same | apply same_transformer_refl].
  - intros g.
    rewrite (foldl_excluded (λ _, True) _
               (λ entry g, propertyKey_of entry = g ∧
                  (swagger_readOnly c g = true ∨
                   ∃ d, own_descriptor c g = Some d ∧ writable d = false)));
      [reflexivity | auto | | exact I].
    intros st' prop g' _.
    destruct (own_descriptor c (propertyKey_of prop)) as [d|] eqn:Hd;
      rewrite ?add_excluded_if_elem; [rewrite negb_true_iff|]; split.
    + intros [[H | [H ->]] | [H ->]]; eauto 8.
    + intros [H | [<- [H | (d' & Hd' & H)]]]; auto.
      rewrite Hd in Hd'. injection Hd' as <-. auto.
    + intros [H | [H ->]]; eauto 8.
    + intros [H | [<- [H | (d' & Hd' & H)]]]; auto.
      rewrite Hd in Hd'. discriminate.
Qed.

Lemma scan_propertyNames_spec (c : class_) (st : scan) :
  same_transformer st (scan_propertyNames c st) ∧
  ∀ g, g ∈ excluded (scan_propertyNames c st)
       ↔ g ∈ excluded st
         ∨ ∃ nd, nd ∈ own_properties (info c) ∧ nd.1 = g ∧
             ((∃ d, own_descriptor c g = Some d ∧
                    has_get d || negb (writable d) = true)
              ∨ readonly_metadata c g = true).
Proof.
  unfold scan_propertyNames. split.
  - apply (foldl_preserves (same_transformer st)); [|apply same_transformer_refl].
    intros st' nd Hst'. eapply same_transformer_trans; [exact Hst'|].
    eapply same_transformer_trans; [|apply add_excluded_if_same].
    destruct (own_descriptor c nd.1);
      [apply add_excluded_if_same | apply same_transformer_refl].
  - intros g.
    rewrite (foldl_excluded (λ _, True) _
               (λ nd g, nd.1 = g ∧
                  ((∃ d, own_descriptor c g = Some d ∧
                         has_get d || negb (writable d) = true)
                   ∨ readonly_metadata c g = true)));
      [reflexivity | auto | | exact I].
    intros st' nd g' _. rewrite add_excluded_if_elem.
    destruct (own_descriptor c nd.1) as [d|] eqn:Hd;
      rewrite ?add_excluded_if_elem; split.
    + intros [[H | [H ->]] | [H ->]]; eauto 8.
    + intros [H | [<- [(d' & Hd' & H) | H]]]; auto.
      rewrite Hd in Hd'. injection Hd' as <-. auto.
    + intros [H | [H ->]]; eauto 8.
    + intros [H | [<- [(d' & Hd' & H) | H]]]; auto.
      rewrite Hd in Hd'. discriminate.
Qed.

(** One round of the loop: what it adds to the excluded properties and what
    it reads from class-transformer. *)
Lemma scan_class_spec (c : class_) (st : scan) :
  (∀ g, g ∈ excluded (scan_class c st) ↔ g ∈ excluded st ∨ class_excludes c g) ∧
  transformerStrategy (scan_class c st)
  = match getStrategy (info c) with
    | Some none | None => transformerStrategy st
    | Some s => s
    end ∧
  (∀ g, g ∈ exposedTransformerProps (scan_class c st)
        ↔ g ∈ exposedTransformerProps st
          ∨ ∃ m, m ∈ getExposedMetadatas (info c) ∧
                 expose_propertyName m = Some g ∧ expose_toPlainOnly m = false) ∧
  (∀ g, g ∈ excludedTransformerProps (scan_class c st)
        ↔ g ∈ excludedTransformerProps st
          ∨ ∃ m, m ∈ getExcludedMetadatas (info c) ∧
                 exclude_propertyName m = Some g ∧ exclude_toPlainOnly m = false).
Proof.
  unfold scan_class.
  set (st1 := scan_strategy c st).
  set (st2 := scan_exposed c st1).
  set (st3 := scan_excludedMeta c st2).
  set (st4 := scan_swaggerProps c st3).
  destruct (scan_strategy_excluded c st) as (E1 & X1 & Y1 & S1).
  destruct (scan_exposed_spec c st1) as (E2 & S2 & Y2 & X2).
  destruct (scan_excludedMeta_spec c st2) as (E3 & S3 & X3 & Y3).
  destruct (scan_swaggerProps_spec c st3) as ((S4 & X4 & Y4) & E4).
  destruct (scan_propertyNames_spec c st4) as ((S5 & X5 & Y5) & E5).
  fold st1 in E1, X1, Y1, S1. fold st2 in E2, S2, Y2, X2.
  fold st3 in E3, S3, X3, Y3. fold st4 in S4, X4, Y4, E4.
  split; [|split; [|split]].
  - intros g. rewrite E5, E4, E3, E2, E1. unfold class_excludes. tauto.
  - congruence.
  - intros g. rewrite X5, X4, X3, X2, X1. reflexivity.
  - intros g. rewrite Y5, Y4, Y3, Y2, Y1. reflexivity.
Qed.

Lemma chain_head (c : class_) : c ∈ chain c.
Proof. destruct c; left. Qed.

(** The whole loop. *)
Lemma scan_chain_spec (c : class_) :
  ∀ st,
    (∀ g, g ∈ excluded (scan_chain c st)
          ↔ g ∈ excluded st ∨ ∃ c', c' ∈ chain c ∧ class_excludes c' g) ∧
    transformerStrategy (scan_chain c st)
    = foldl (λ acc c', match getStrategy (info c') with
                       | Some none | None => acc
                       | Some s => s
                       end)
            (transformerStrategy st) (chain c) ∧
    (∀ g, g ∈ exposedTransformerProps (scan_chain c st)
          ↔ g ∈ exposedTransformerProps st
            ∨ ∃ c' m, c' ∈ chain c ∧ m ∈ getExposedMetadatas (info c') ∧
                expose_propertyName m = Some g ∧ expose_toPlainOnly m = false) ∧
    (∀ g, g ∈ excludedTransformerProps (scan_chain c st)
          ↔ g ∈ excludedTransformerProps st
            ∨ ∃ c' m, c' ∈ chain c ∧ m ∈ getExcludedMetadatas (info c') ∧
                exclude_propertyName m = Some g ∧ exclude_toPlainOnly m = false).
Proof.
  induction c as [i | i parent IH]; intros st.
  - cbn [scan_chain chain foldl].
    destruct (scan_class_spec (Base i) st) as (E & S & X & Y).
    split; [|split; [exact S|split]].
    + intros g. rewrite E. split; intros [H | H]; auto.
      * right. exists (Base i). split; [left | exact H].
      * destruct H as (c' & Hc' & H).
        apply list_elem_of_singleton in Hc' as ->. auto.
    + intros g. rewrite X. split; intros [H | H]; auto.
      * destruct H as (m & H). right. exists (Base i), m. split; [left | exact H].
      * destruct H as (c' & m & Hc' & H).
        apply list_elem_of_singleton in Hc' as ->. eauto.
    + intros g. rewrite Y. split; intros [H | H]; auto.
      * destruct H as (m & H). right. exists (Base i), m. split; [left | exact H].
      * destruct H as (c' & m & Hc' & H).
        apply list_elem_of_singleton in Hc' as ->. eauto.
  - cbn [scan_chain chain foldl].
    destruct (scan_class_spec (Extends i parent) st) as (E & S & X & Y).
    destruct (IH (scan_class (Extends i parent) st)) as (E' & S' & X' & Y').
    split; [|split; [|split]].
    + intros g. rewrite E', E. split.
      * intros [[H | H] | (c' & Hc' & H)]; auto.
        -- right. exists (Extends i parent). split; [left | exact H].
        -- right. exists c'. split; [by right | exact H].
      * intros [H | (c' & Hc' & H)]; auto.
        apply elem_of_cons in Hc' as [-> | Hc']; eauto.
    + rewrite S', S. reflexivity.
    + intros g. rewrite X', X. split.
      * intros [[H | (m & H)] | (c' & m & Hc' & H)]; auto.
        -- right. exists (Extends i parent), m. split; [left | exact H].
        -- right. exists c', m. split; [by right | exact H].
      * intros [H | (c' & m & Hc' & H)]; auto.
        apply elem_of_cons in Hc' as [-> | Hc']; eauto 6.
    + intros g. rewrite Y', Y. split.
      * intros [[H | (m & H)] | (c' & m & Hc' & H)]; auto.
        -- right. exists (Extends i parent), m. split; [left | exact H].
        -- right. exists c', m. split; [by right | exact H].
      * intros [H | (c' & m & Hc' & H)]; auto.
        apply elem_of_cons in Hc' as [-> | Hc']; eauto 6.
Qed.

Lemma scan_property_spec (target : class_) (st : scan) (prop : EntityProperty) :
  same_transformer st (scan_property target st prop) ∧
  ∀ g, g ∈ excluded (scan_property target st prop)
       ↔ g ∈ excluded st ∨ (name prop = g ∧ property_excludes target st prop).
Proof.
  unfold scan_property, property_excludes, auto_generated.
  set (st1 := add_excluded_if (primary prop) (name prop) st).
  set (st2 := add_excluded_if (bool_decide (persist prop = Some false)) (name prop) st1).
  set (st3 := add_excluded_if (autoincrement prop) (name prop) st2).
  set (st4 := add_excluded_if (onCreate prop) (name prop) st3).
  set (st5 := add_excluded_if (onUpdate prop) (name prop) st4).
  set (st6 := add_excluded_if (version prop) (name prop) st5).
  set (st7 := add_excluded_if (readonly_metadata target (name prop)) (name prop) st6).
  assert (Hsame : same_transformer st st7).
  { repeat (eapply same_transformer_trans; [|apply add_excluded_if_same]).
    apply same_transformer_refl. }
  destruct Hsame as (HS & HX & HY).
  assert (H7 : ∀ g, g ∈ excluded st7
                ↔ g ∈ excluded st
                  ∨ (name prop = g ∧
                     (primary prop = true
                      ∨ (autoincrement prop = true ∨ onCreate prop = true
                         ∨ onUpdate prop = true ∨ version prop = true
                         ∨ persist prop = Some false)
                      ∨ readonly_metadata target (name prop) = true))).
  { intros g. unfold st7, st6, st5, st4, st3, st2, st1.
    rewrite !add_excluded_if_elem, bool_decide_eq_true.
    intuition congruence. }
  rewrite HS.
  destruct (decide (transformerStrategy st = excludeAll)) as [Hs | Hs].
  - split.
    + eapply same_transformer_trans; [|apply add_excluded_if_same].
      by repeat split.
    + intros g. rewrite add_excluded_if_elem, H7, bool_decide_eq_true, HX.
      intuition congruence.
  - split.
    + eapply same_transformer_trans; [|apply add_excluded_if_same].
      by repeat split.
    + intros g. rewrite add_excluded_if_elem, H7, bool_decide_eq_true, HY.
      intuition congruence.
Qed.

Lemma property_excludes_same (target : class_) (st st' : scan)
    (prop : EntityProperty) :
  same_transformer st st' →
  property_excludes target st' prop ↔ property_excludes target st prop.
Proof.
  intros (HS & HX & HY). unfold property_excludes. by rewrite HS, HX, HY.
Qed.

Lemma scan_properties_spec (target : class_) (props : list EntityProperty)
    (st : scan) (f : string) :
  f ∈ excluded (foldl (scan_property target) st props)
  ↔ f ∈ excluded st
    ∨ ∃ prop, prop ∈ props ∧ name prop = f ∧ property_excludes target st prop.
Proof.
  rewrite (foldl_excluded (same_transformer st) _
             (λ prop g, name prop = g ∧ property_excludes target st prop));
    [reflexivity | | | apply same_transformer_refl].
  - intros st' prop Hst'. eapply same_transformer_trans; [exact Hst'|].
    apply scan_property_spec.
  - intros st' prop g Hst'.
    rewrite (proj2 (scan_property_spec target st' prop)).
    by rewrite (property_excludes_same target st st' prop Hst').
Qed.

(** *** From the scan to the marks on the schema *)

Lemma chain_sub (c c' x : class_) : c' ∈ chain c → x ∈ chain c' → x ∈ chain c.
Proof.
  induction c as [i | i parent IH]; cbn [chain].
  - intros ->%list_elem_of_singleton. auto.
  - intros [-> | H]%elem_of_cons; [auto|]. intros Hx. right. auto.
Qed.

Lemma getMetadata_Some {A : Type} (own : class_info → option A) (c : class_)
    (a : A) :
  getMetadata own c = Some a → ∃ c', c' ∈ chain c ∧ own (info c') = Some a.
Proof.
  induction c as [i | i parent IH]; cbn [getMetadata chain].
  - intros H. exists (Base i). split; [left | exact H].
  - destruct (own i) as [a'|] eqn:Hown.
    + intros [= ->]. exists (Extends i parent). split; [left | exact Hown].
    + intros H. destruct (IH H) as (c' & Hc' & H'). exists c'.
      split; [by right | exact H'].
Qed.

Lemma getMetadata_own {A : Type} (own : class_info → option A) (c : class_)
    (a : A) :
  own (info c) = Some a → getMetadata own c = Some a.
Proof. destruct c as [i | i parent]; cbn; intros ->; reflexivity. Qed.

Lemma readonly_metadata_chain (c : class_) (f : string) :
  readonly_metadata c f = true ↔ ∃ c', c' ∈ chain c ∧ f ∈ own_readonly (info c').
Proof.
  unfold readonly_metadata.
  induction c as [i | i parent IH]; cbn [getMetadata chain].
  - destruct (decide (f ∈ own_readonly i)) as [Hin | Hnot]; cbn; split.
    + intros _. exists (Base i). split; [left | exact Hin].
    + reflexivity.
    + discriminate.
    + intros (c' & ->%list_elem_of_singleton & H). contradiction.
  - destruct (decide (f ∈ own_readonly i)) as [Hin | Hnot]; cbn.
    + split; [|reflexivity]. intros _. exists (Extends i parent).
      split; [left | exact Hin].
    + rewrite IH. split.
      * intros (c' & Hc' & H). exists c'. split; [by right | exact H].
      * intros (c' & [-> | Hc']%elem_of_cons & H); [contradiction | eauto].
Qed.

Lemma own_descriptor_listed (c : class_) (f : string) (d : descriptor) :
  own_descriptor c f = Some d →
  ∃ nd, nd ∈ own_properties (info c) ∧ nd.1 = f.
Proof.
  unfold own_descriptor.
  destruct (List.find _ _) as [nd|] eqn:Hfind; [|discriminate].
  intros _. apply find_some in Hfind as [Hin Heq].
  exists nd. split; [by apply list_elem_of_In|]. by apply String.eqb_eq.
Qed.

(** What a round of the loop excludes is marked read-only. *)
Lemma class_excludes_readonly (target c : class_) (f : string) :
  c ∈ chain target → class_excludes c f → readonly target f.
Proof.
  intros Hc [(entry & _ & _ & [Hro | (d & Hd & Hw)])
            | (nd & _ & _ & [(d & Hd & Hgw) | Hro])].
  - right. left. unfold swagger_readOnly in Hro.
    destruct (getMetadata _ c) as [b|] eqn:Hmeta; [|discriminate].
    cbn in Hro. subst b.
    apply getMetadata_Some in Hmeta as (c' & Hc' & Hown).
    exists c'. split; [by eapply chain_sub | exact Hown].
  - right. right. exists c, d. auto.
  - right. right. exists c, d. split; [exact Hc|]. split; [exact Hd|].
    apply orb_true_iff in Hgw as [? | ?%negb_true_iff]; auto.
  - left. apply readonly_metadata_chain in Hro as (c' & Hc' & Hin).
    exists c'. split; [by eapply chain_sub | exact Hin].
Qed.

(** What is marked read-only is excluded by a round of the loop, or carries
    the [@ReadOnly] metadata that the pass over the schema looks for. *)
Lemma readonly_excluded (target : class_) (f : string) :
  swagger_lists_its_properties target →
  readonly target f →
  (∃ c, c ∈ chain target ∧ class_excludes c f)
  ∨ readonly_metadata target f = true.
Proof.
  intros Hwf [(c & Hc & Hin) | [(c & Hc & Hown) | (c & d & Hc & Hd & Hgw)]].
  - right. apply readonly_metadata_chain. eauto.
  - left. exists c. split; [exact Hc|]. left.
    destruct (Hwf c f true Hc Hown) as (entry & Hentry & Hkey).
    exists entry. split; [exact Hentry|]. split; [exact Hkey|]. left.
    unfold swagger_readOnly.
    by rewrite (getMetadata_own (λ i, own_swagger_readOnly i !! f) c true).
  - left. exists c. split; [exact Hc|]. right.
    destruct (own_descriptor_listed c f d Hd) as (nd & Hnd & Hname).
    exists nd. split; [exact Hnd|]. split; [exact Hname|]. left.
    exists d. split; [exact Hd|]. apply orb_true_iff.
    destruct Hgw as [? | ?]; [left | right; apply negb_true_iff]; auto.
Qed.

(** Under the strategy in force, the pass over the schema excludes a
    property for class-transformer exactly when it is not exposed. *)
Lemma not_exposed_iff (target : class_) (f : string) :
  (if decide (transformerStrategy (scan_chain target scan_start) = excludeAll)
   then f ∉ exposedTransformerProps (scan_chain target scan_start)
   else f ∈ excludedTransformerProps (scan_chain target scan_start))
  ↔ ¬ exposed target f.
Proof.
  destruct (scan_chain_spec target scan_start) as (_ & HS & HX & HY).
  unfold exposed, strategy_of. rewrite HS. cbn [scan_start transformerStrategy].
  destruct (decide _) as [_ | _].
  - rewrite HX. cbn. unfold has_Expose. split.
    + intros H (c & m & Hm). apply H. right. eauto.
    + intros H [Hin | (c & m & Hm)]; [by apply not_elem_of_empty in Hin|].
      apply H. eauto.
  - rewrite HY. cbn. unfold has_Exclude. split.
    + intros [Hin | (c & m & Hm)] H; [by apply not_elem_of_empty in Hin|].
      eauto.
    + intros H.
      destruct (decide (f ∈ excludedTransformerProps (scan_chain target scan_start)))
        as [Hin | Hnot].
      * apply HY in Hin as [Hin | Hin]; [by apply not_elem_of_empty in Hin|].
        right. exact Hin.
      * exfalso. apply H. intros (c & m & Hm). apply Hnot, HY. right. eauto.
Qed.

Lemma NoDup_name_eq (props : list EntityProperty) (p q : EntityProperty) :
  NoDup (name <$> props) → p ∈ props → q ∈ props → name p = name q → p = q.
Proof.
  induction props as [|x props IH]; cbn; intros Hnd Hp Hq Hname.
  - by apply elem_of_nil in Hp.
  - apply NoDup_cons in Hnd as [Hx Hnd].
    apply elem_of_cons in Hp as [-> | Hp], Hq as [-> | Hq]; auto.
    + exfalso. apply Hx. rewrite Hname. by apply list_elem_of_fmap_2.
    + exfalso. apply Hx. rewrite <- Hname. by apply list_elem_of_fmap_2.
Qed.

(** The factory excludes a property of the schema exactly when it is a
    primary key, auto-generated, marked read-only or not exposed. *)
Lemma excluded_properties_spec (target : class_) (meta : EntityMetadata)
    (prop : EntityProperty) :
  orm_metadata (info target) = Some meta →
  NoDup (name <$> properties meta) →
  swagger_lists_its_properties target →
  prop ∈ properties meta →
  name prop ∈ excluded_properties target
  ↔ primary prop = true ∨ auto_generated prop ∨ readonly target (name prop)
    ∨ ¬ exposed target (name prop).
Proof.
  intros Hmeta Hnodup Hwf Hprop.
  unfold excluded_properties. rewrite Hmeta. fold scan_start.
  rewrite scan_properties_spec.
  destruct (scan_chain_spec target scan_start) as (HE & _).
  rewrite HE. unfold property_excludes. split.
  - intros [[Hin | (c & Hc & Hex)] | (prop' & Hprop' & Hname & Hex)].
    + by apply not_elem_of_empty in Hin.
    + right. right. left. by eapply class_excludes_readonly.
    + assert (prop' = prop) as -> by (by eapply NoDup_name_eq).
      destruct Hex as [H | [H | [H | H]]]; auto.
      * right. right. left. left. by apply readonly_metadata_chain.
      * right. right. right. by apply not_exposed_iff.
  - intros [H | [H | [H | H]]].
    + right. exists prop. tauto.
    + right. exists prop. tauto.
    + destruct (readonly_excluded target (name prop) Hwf H) as [Hc | Hro].
      * left. right. exact Hc.
      * right. exists prop. tauto.
    + right. exists prop. split; [exact Hprop|]. split; [reflexivity|].
      right. right. right. by apply not_exposed_iff.
Qed.

(** *** The create DTO *)

Lemma extends_for_refl (cls : dto) (reg : registry) : extends_for cls reg reg.
Proof.
  repeat split; exists []; by rewrite app_nil_r.
Qed.

Lemma extends_for_trans (cls : dto) (r1 r2 r3 : registry) :
  extends_for cls r1 r2 → extends_for cls r2 r3 → extends_for cls r1 r3.
Proof.
  intros (N1 & X1 & (vs1 & V1 & F1) & (as1 & A1 & G1) & (ts1 & T1 & H1))
         (N2 & X2 & (vs2 & V2 & F2) & (as2 & A2 & G2) & (ts2 & T2 & H2)).
  split; [congruence|]. split; [congruence|]. split; [|split].
  - exists (vs1 ++ vs2). rewrite V2, V1, app_assoc. split; [reflexivity|].
    by apply Forall_app.
  - exists (as1 ++ as2). rewrite A2, A1, app_assoc. split; [reflexivity|].
    by apply Forall_app.
  - exists (ts1 ++ ts2). rewrite T2, T1, app_assoc. split; [reflexivity|].
    by apply Forall_app.
Qed.

Lemma validate_extends (r : rule) (each : option bool) (cls : dto)
    (f : string) (reg : registry) :
  extends_for cls reg (validate r each cls f reg).
Proof.
  unfold validate, addValidationMetadata. split; [reflexivity|].
  split; [reflexivity|]. split; [|split].
  - eexists [_]. split; [reflexivity|]. by repeat constructor.
  - exists []. by rewrite app_nil_r.
  - exists []. by rewrite app_nil_r.
Qed.

Lemma ApiProperty_extends (o : ApiOptions) (cls : dto) (f : string)
    (reg : registry) :
  extends_for cls reg (ApiProperty o cls f reg).
Proof.
  unfold ApiProperty. split; [reflexivity|]. split; [reflexivity|].
  split; [|split].
  - exists []. by rewrite app_nil_r.
  - eexists [_]. split; [reflexivity|]. by repeat constructor.
  - exists []. by rewrite app_nil_r.
Qed.

Lemma TypeTransformer_extends (t : ctor) (cls : dto) (f : string)
    (reg : registry) :
  extends_for cls reg (TypeTransformer t cls f reg).
Proof.
  unfold TypeTransformer. split; [reflexivity|]. split; [reflexivity|].
  split; [|split].
  - exists []. by rewrite app_nil_r.
  - exists []. by rewrite app_nil_r.
  - eexists [_]. split; [reflexivity|]. by repeat constructor.
Qed.

Lemma validate_own (r : rule) (each : option bool) (cls : dto) (p : string)
    (reg : registry) (c : dto) (f : string) :
  (own_validation (validate r each cls p reg) c f
   ↔ own_validation reg c f ∨ (c = cls ∧ f = p)) ∧
  (own_api (validate r each cls p reg) c f ↔ own_api reg c f).
Proof.
  unfold own_validation, own_api, validate, addValidationMetadata. cbn.
  split; [|reflexivity]. split.
  - intros (m & [Hm | ->%list_elem_of_singleton]%elem_of_app & Ht & Hn).
    + left. eauto.
    + right. cbn in *. split; congruence.
  - intros [(m & Hm & H) | [-> ->]].
    + exists m. split; [apply elem_of_app; by left | exact H].
    + eexists. split; [apply elem_of_app; right; by left|]. by cbn.
Qed.

Lemma ApiProperty_own (o : ApiOptions) (cls : dto) (p : string)
    (reg : registry) (c : dto) (f : string) :
  (own_validation (ApiProperty o cls p reg) c f ↔ own_validation reg c f) ∧
  (own_api (ApiProperty o cls p reg) c f
   ↔ own_api reg c f ∨ (c = cls ∧ f = p)).
Proof.
  unfold own_validation, own_api, ApiProperty. cbn.
  split; [reflexivity|]. split.
  - intros (o' & [Hm | Hm%list_elem_of_singleton]%elem_of_app).
    + left. eauto.
    + right. split; congruence.
  - intros [(o' & Hm) | [-> ->]].
    + exists o'. apply elem_of_app; by left.
    + exists o. apply elem_of_app; right; by left.
Qed.

Lemma TypeTransformer_own (t : ctor) (cls : dto) (p : string)
    (reg : registry) (c : dto) (f : string) :
  (own_validation (TypeTransformer t cls p reg) c f ↔ own_validation reg c f) ∧
  (own_api (TypeTransformer t cls p reg) c f ↔ own_api reg c f).
Proof. split; reflexivity. Qed.

Lemma more_rules_for_refl (cls : dto) (p : string) (reg : registry) :
  more_rules_for cls p reg reg.
Proof. intros c f. tauto. Qed.

Lemma more_rules_for_trans (cls : dto) (p : string) (r1 r2 r3 : registry) :
  more_rules_for cls p r1 r2 → more_rules_for cls p r2 r3 →
  more_rules_for cls p r1 r3.
Proof.
  intros H12 H23 c f.
  destruct (H12 c f) as (A1 & B1 & C1), (H23 c f) as (A2 & B2 & C2).
  rewrite C2, C1. tauto.
Qed.

Lemma validate_more_rules (r : rule) (each : option bool) (cls : dto)
    (p : string) (reg : registry) :
  more_rules_for cls p reg (validate r each cls p reg).
Proof.
  intros c f. destruct (validate_own r each cls p reg c f) as [-> ->]. tauto.
Qed.

Lemma TypeTransformer_more_rules (t : ctor) (cls : dto) (p : string)
    (reg : registry) :
  more_rules_for cls p reg (TypeTransformer t cls p reg).
Proof. intros c f. repeat split; auto. Qed.

(** The decorators of one property: rules and documentation for that
    property of the DTO class, and nothing else. *)
Lemma decorate_field_spec (entity : class_) (cls : dto) (prop : EntityProperty)
    (reg : registry) :
  extends_for cls reg (decorate_field entity cls prop reg) ∧
  ∀ c f,
    (own_validation (decorate_field entity cls prop reg) c f
     ↔ own_validation reg c f ∨ (c = cls ∧ f = name prop)) ∧
    (own_api (decorate_field entity cls prop reg) c f
     ↔ own_api reg c f ∨ (c = cls ∧ f = name prop)).
Proof.
  unfold decorate_field.
  set (each := if isArray entity prop then Some true else None).
  set (reg1 := match typeToCheck entity prop with
               | Some String_ => _ | Some Number_ => _ | Some Boolean_ => _
               | Some Date_ => _ | _ => reg end).
  set (reg2 := match enum prop, items prop with
               | true, Some values => _ | _, _ => reg1 end).
  set (reg3 := if array prop || isArray entity prop then _ else reg2).
  assert (H1 : extends_for cls reg reg1 ∧ more_rules_for cls (name prop) reg reg1).
  { unfold reg1. destruct (typeToCheck entity prop) as [[| | | | | | |?]|];
      try destruct (isInt prop);
      (split; [ repeat (first [ apply extends_for_refl
                              | apply validate_extends
                              | eapply extends_for_trans;
                                [apply validate_extends
                                |apply TypeTransformer_extends] ])
              | repeat (first [ apply more_rules_for_refl
                              | apply validate_more_rules
                              | eapply more_rules_for_trans;
                                [apply validate_more_rules
                                |apply TypeTransformer_more_rules] ]) ]). }
  assert (H2 : extends_for cls reg1 reg2 ∧ more_rules_for cls (name prop) reg1 reg2).
  { unfold reg2. destruct (enum prop), (items prop);
      (split; [ first [apply extends_for_refl | apply validate_extends]
              | first [apply more_rules_for_refl | apply validate_more_rules] ]). }
  assert (H3 : extends_for cls reg2 reg3 ∧ more_rules_for cls (name prop) reg2 reg3).
  { unfold reg3. destruct (array prop || isArray entity prop);
      (split; [ first [apply extends_for_refl | apply validate_extends]
              | first [apply more_rules_for_refl | apply validate_more_rules] ]). }
  assert (H : extends_for cls reg reg3 ∧ more_rules_for cls (name prop) reg reg3).
  { destruct H1, H2, H3. split.
    - eapply extends_for_trans; [|eassumption].
      eapply extends_for_trans; eassumption.
    - eapply more_rules_for_trans; [|eassumption].
      eapply more_rules_for_trans; eassumption. }
  clearbody reg3. clear H1 H2 H3 reg1 reg2. destruct H as [Hext Hmore].
  split.
  - destruct (nullable prop);
      (eapply extends_for_trans; [exact Hext|]);
      (eapply extends_for_trans; [apply validate_extends|]);
      apply ApiProperty_extends.
  - intros c f. destruct (Hmore c f) as (A & B & C).
    destruct (nullable prop);
      rewrite (proj1 (ApiProperty_own _ _ _ _ _ _)),
              (proj2 (ApiProperty_own _ _ _ _ _ _)),
              (proj1 (validate_own _ _ _ _ _ _ _)),
              (proj2 (validate_own _ _ _ _ _ _ _)), C; tauto.
Qed.

(** ** The fields of the create DTO *)

Lemma decorate_fields_spec (entity : class_) (cls : dto) (excl : gset string)
    (props : list EntityProperty) :
  ∀ reg,
    let reg' := foldl (λ reg prop,
                         if bool_decide (name prop ∈ excl) then reg
                         else decorate_field entity cls prop reg)
                      reg props in
    extends_for cls reg reg' ∧
    ∀ c f,
      (own_validation reg' c f
       ↔ own_validation reg c f
         ∨ (c = cls ∧ ∃ prop, prop ∈ props ∧ name prop = f ∧ f ∉ excl)) ∧
      (own_api reg' c f
       ↔ own_api reg c f
         ∨ (c = cls ∧ ∃ prop, prop ∈ props ∧ name prop = f ∧ f ∉ excl)).
Proof.
  induction props as [|prop props IH]; intros reg; cbn [foldl].
  - split; [apply extends_for_refl|]. intros c f.
    split; (split; [auto|]; intros [H | (_ & prop & Hp & _)]; [exact H|];
            by apply elem_of_nil in Hp).
  - destruct (IH (if bool_decide (name prop ∈ excl) then reg
                  else decorate_field entity cls prop reg)) as (Hext & Hown).
    destruct (decorate_field_spec entity cls prop reg) as (Hext1 & Hown1).
    case_bool_decide as Hex.
    + split; [exact Hext|]. intros c f. destruct (Hown c f) as [-> ->].
      split; (split; [intros [H | (-> & p & Hp & Hn & Hf)]; [by left|];
                      right; split; [reflexivity|]; exists p;
                      split; [by right | auto]
                     |intros [H | (-> & p & [-> | Hp]%elem_of_cons & Hn & Hf)];
                      [by left | congruence | right; eauto]]).
    + split; [eapply extends_for_trans; eassumption|]. intros c f.
      destruct (Hown c f) as [-> ->]. destruct (Hown1 c f) as [-> ->].
      split; (split; [intros [[H | [-> ->]] | (-> & p & Hp & Hn & Hf)];
                      [by left
                      |right; split; [reflexivity|]; exists prop;
                       split; [left | auto]
                      |right; split; [reflexivity|]; exists p;
                       split; [by right | auto]]
                     |intros [H | (-> & p & [-> | Hp]%elem_of_cons & Hn & Hf)];
                      [by left; left | left; right; auto | right; eauto]]).
Qed.

Lemma ancestors_none (fuel : nat) (reg : registry) (c : dto) :
  (∀ p, (c, p) ∉ dto_extends reg) → ancestors fuel reg c = [].
Proof.
  intros Hnone. destruct fuel as [|fuel]; [reflexivity|]. cbn.
  destruct (List.find _ _) as [[c' p]|] eqn:Hfind; [|reflexivity].
  apply find_some in Hfind as [Hin Heq]. cbn in Heq.
  apply Nat.eqb_eq in Heq as ->. exfalso. apply (Hnone p).
  by apply list_elem_of_In.
Qed.

Lemma filter_nil_iff {A : Type} (P : A → bool) (l : list A) :
  (∀ x, x ∈ l → P x = false) → List.filter P l = [].
Proof.
  induction l as [|x l IH]; intros H; cbn; [reflexivity|].
  rewrite (H x) by left. apply IH. intros y Hy. apply H. by right.
Qed.

(** For a class that extends no other, the fields are those that carry
    metadata registered for the class itself. *)
Lemma has_field_own (reg : registry) (cls : dto) (f : string) :
  superclasses reg cls = [] →
  has_field reg cls f ↔ own_validation reg cls f ∨ own_api reg cls f.
Proof.
  intros Hsuper.
  unfold has_field, getTargetValidationMetadatas, getModelProperties.
  rewrite Hsuper.
  rewrite (filter_nil_iff (λ m, bool_decide (vm_target m ∈ []))
             (validationMetadatas reg)), app_nil_r
    by (intros m _; apply bool_decide_eq_false, not_elem_of_nil).
  unfold own_validation, own_api.
  assert (HA : (∃ m, m ∈ List.filter (λ m, Nat.eqb (vm_target m) cls)
                         (validationMetadatas reg)
                     ∧ vm_propertyName m = Some f)
               ↔ ∃ m, m ∈ validationMetadatas reg ∧ vm_target m = cls
                      ∧ vm_propertyName m = Some f).
  { split.
    - intros (m & Hm & Hn). apply list_elem_of_In, filter_In in Hm as [Hm Ht].
      apply Nat.eqb_eq in Ht. exists m. split; [by apply list_elem_of_In | auto].
    - intros (m & Hm & Ht & Hn). exists m. split; [|exact Hn].
      apply list_elem_of_In, filter_In. split; [by apply list_elem_of_In|].
      by apply Nat.eqb_eq. }
  assert (HB : f ∈ remove_dups
                     ((λ e, e.1.2) <$>
                        List.filter (λ e, bool_decide (e.1.1 ∈ [cls]))
                          (apiModelProperties reg))
               ↔ ∃ o, (cls, f, o) ∈ apiModelProperties reg).
  { rewrite elem_of_remove_dups, list_elem_of_fmap. split.
    - intros ([[c g] o] & -> & He). cbn.
      apply list_elem_of_In, filter_In in He as [He Ht]. cbn in Ht.
      apply bool_decide_eq_true, list_elem_of_singleton in Ht as ->.
      exists o. by apply list_elem_of_In.
    - intros (o & Ho). exists (cls, f, o). split; [reflexivity|].
      apply list_elem_of_In, filter_In. split; [by apply list_elem_of_In|].
      cbn. apply bool_decide_eq_true. left. }
  tauto.
Qed.

Lemma exposed_iff (target : class_) (f : string) :
  exposed target f
  ↔ (if decide (transformerStrategy (scan_chain target scan_start) = excludeAll)
     then f ∈ exposedTransformerProps (scan_chain target scan_start)
     else f ∉ excludedTransformerProps (scan_chain target scan_start)).
Proof.
  destruct (scan_chain_spec target scan_start) as (_ & HS & HX & HY).
  unfold exposed, strategy_of. rewrite HS. cbn [scan_start transformerStrategy].
  destruct (decide _) as [_ | _].
  - rewrite HX. cbn. unfold has_Expose. split.
    + intros H. right. exact H.
    + intros [Hin | H]; [by apply not_elem_of_empty in Hin | exact H].
  - rewrite HY. cbn. unfold has_Exclude. split.
    + intros H [Hin | H']; [by apply not_elem_of_empty in Hin | auto].
    + intros H H'. apply H. right. exact H'.
Qed.

Lemma exposed_or_not (target : class_) (f : string) :
  exposed target f ∨ ¬ exposed target f.
Proof.
  rewrite exposed_iff. destruct (decide _) as [_ | _].
  - destruct (decide (f ∈ exposedTransformerProps (scan_chain target scan_start)));
      auto.
  - destruct (decide (f ∈ excludedTransformerProps (scan_chain target scan_start)));
      auto.
Qed.

(** X18: The class that the factory creates for the create DTO has, for its
    fields, the properties of the schema that are neither primary key nor
    auto-generated nor marked read-only and that are exposed to incoming
    data; it is a new class that extends no other, and the metadata of the
    classes known before is kept. *)
Theorem DefaultCreateDto_fields (target : class_) (meta : EntityMetadata)
    (reg : registry) :
  registry_wf reg →
  orm_metadata (info target) = Some meta →
  NoDup (name <$> properties meta) →
  swagger_lists_its_properties target →
  let cls := (DefaultCreateDto target (excluded_properties target) reg).1 in
  let reg' := (DefaultCreateDto target (excluded_properties target) reg).2 in
  cls = next_dto reg ∧
  superclasses reg' cls = [] ∧
  registry_wf reg' ∧
  validationMetadatas reg `prefix_of` validationMetadatas reg' ∧
  ∀ f, has_field reg' cls f
       ↔ ∃ prop, prop ∈ properties meta ∧ name prop = f ∧
           primary prop = false ∧ ¬ auto_generated prop ∧
           ¬ readonly target f ∧ exposed target f.
Proof.
  intros (Wv & Wa & Wt & Wx) Hmeta Hnodup Hswagger.
  unfold DefaultCreateDto, new_class. rewrite Hmeta. cbn [fst snd].
  set (reg0 := {| next_dto := S (next_dto reg);
                  dto_names := _; dto_extends := dto_extends reg;
                  validationMetadatas := validationMetadatas reg;
                  apiModelProperties := apiModelProperties reg;
                  typeMetadatas := typeMetadatas reg |}).
  destruct (decorate_fields_spec target (next_dto reg)
              (excluded_properties target) (properties meta) reg0)
    as ((Hn & Hx & (vs & Hvs & Fvs) & (aps & Haps & Faps) & (ts & Hts & Fts))
        & Hown).
  cbn zeta in Hn, Hx, Hvs, Haps, Hts, Hown.
  set (reg' := foldl _ reg0 (properties meta)) in *.
  assert (Hsuper : superclasses reg' (next_dto reg) = []).
  { apply ancestors_none. intros p Hp. rewrite Hx in Hp. cbn in Hp.
    apply Wx in Hp. lia. }
  split; [reflexivity|]. split; [exact Hsuper|]. split; [|split].
  - unfold registry_wf. rewrite Hn, Hx, Hvs, Haps, Hts. cbn.
    repeat split.
    + intros m [Hm | Hm]%elem_of_app; [apply Wv in Hm; lia|].
      rewrite Forall_forall in Fvs. rewrite (Fvs m Hm). lia.
    + intros e [He | He]%elem_of_app; [apply Wa in He; lia|].
      rewrite Forall_forall in Faps. rewrite (Faps e He). lia.
    + intros e [He | He]%elem_of_app; [apply Wt in He; lia|].
      rewrite Forall_forall in Fts. rewrite (Fts e He). lia.
    + apply Wx in H. lia.
    + apply Wx in H. lia.
  - rewrite Hvs. cbn. by exists vs.
  - intros f. rewrite (has_field_own _ _ _ Hsuper).
    destruct (Hown (next_dto reg) f) as [-> ->].
    assert (Hold : ¬ own_validation reg0 (next_dto reg) f
                   ∧ ¬ own_api reg0 (next_dto reg) f).
    { split.
      - intros (m & Hm & Ht & _). apply Wv in Hm. lia.
      - intros (o & Ho). apply Wa in Ho. cbn in Ho. lia. }
    split.
    + intros H.
      assert (∃ prop, prop ∈ properties meta ∧ name prop = f
                      ∧ f ∉ excluded_properties target)
        as (prop & Hprop & <- & Hnot) by tauto.
      exists prop. split; [exact Hprop|]. split; [reflexivity|].
      rewrite (excluded_properties_spec target meta prop Hmeta Hnodup
                 Hswagger Hprop) in Hnot.
      split; [destruct (primary prop); tauto|].
      split; [tauto|]. split; [tauto|].
      destruct (exposed_or_not target (name prop)); tauto.
    + intros (prop & Hprop & <- & Hp & Ha & Hr & He).
      left. right. split; [reflexivity|]. exists prop.
      split; [exact Hprop|]. split; [reflexivity|].
      rewrite (excluded_properties_spec target meta prop Hmeta Hnodup
                 Hswagger Hprop).
      rewrite Hp. intros [? | [? | [? | ?]]]; [discriminate | tauto..].
Qed.

(** The fields of the class made for the create DTO are the properties of
    the schema that the factory has not excluded. *)
Lemma DefaultCreateDto_kept (target : class_) (meta : EntityMetadata)
    (reg : registry) (f : string) :
  registry_wf reg → orm_metadata (info target) = Some meta →
  has_field (DefaultCreateDto target (excluded_properties target) reg).2
    (DefaultCreateDto target (excluded_properties target) reg).1 f
  ↔ ∃ prop, prop ∈ properties meta ∧ name prop = f ∧
            f ∉ excluded_properties target.
Proof.
  intros (Wv & Wa & Wt & Wx) Hmeta.
  unfold DefaultCreateDto, new_class. rewrite Hmeta. cbn [fst snd].
  set (reg0 := {| next_dto := S (next_dto reg);
                  dto_names := _; dto_extends := dto_extends reg;
                  validationMetadatas := validationMetadatas reg;
                  apiModelProperties := apiModelProperties reg;
                  typeMetadatas := typeMetadatas reg |}).
  destruct (decorate_fields_spec target (next_dto reg)
              (excluded_properties target) (properties meta) reg0)
    as ((Hn & Hx & _) & Hown).
  cbn zeta in Hn, Hx, Hown.
  set (reg' := foldl _ reg0 (properties meta)) in *.
  assert (Hsuper : superclasses reg' (next_dto reg) = []).
  { apply ancestors_none. intros p Hp. rewrite Hx in Hp. cbn in Hp.
    apply Wx in Hp. lia. }
  rewrite (has_field_own _ _ _ Hsuper).
  destruct (Hown (next_dto reg) f) as [-> ->].
  assert (Hold : ¬ own_validation reg0 (next_dto reg) f
                 ∧ ¬ own_api reg0 (next_dto reg) f).
  { split.
    - intros (m & Hm & Ht & _). apply Wv in Hm. lia.
    - intros (o & Ho). apply Wa in Ho. cbn in Ho. lia. }
  tauto.
Qed.

(** C2: of the properties of the schema, the create DTO that the factory
    synthesizes has none that is a primary key, none that is auto-generated
    (autoincrement, onCreate, onUpdate, version, not persisted) and none that
    is marked read-only (by [@ReadOnly], by a swagger [readOnly] flag, or by a
    getter or a non-writable property descriptor on a class of the prototype
    chain); every other property that is exposed to incoming data is a field
    of it, and it has no field besides. *)
Theorem DefaultCreateDto_excludes (target : class_) (meta : EntityMetadata)
    (reg : registry) (prop : EntityProperty) :
  registry_wf reg →
  orm_metadata (info target) = Some meta →
  NoDup (name <$> properties meta) →
  swagger_lists_its_properties target →
  prop ∈ properties meta →
  let cls := (DefaultCreateDto target (excluded_properties target) reg).1 in
  let reg' := (DefaultCreateDto target (excluded_properties target) reg).2 in
  (primary prop = true → ¬ has_field reg' cls (name prop)) ∧
  (auto_generated prop → ¬ has_field reg' cls (name prop)) ∧
  (marked_ReadOnly target (name prop) → ¬ has_field reg' cls (name prop)) ∧
  (marked_swagger_readOnly target (name prop) →
   ¬ has_field reg' cls (name prop)) ∧
  (marked_by_descriptor target (name prop) →
   ¬ has_field reg' cls (name prop)) ∧
  (primary prop = false → ¬ auto_generated prop →
   ¬ readonly target (name prop) → exposed target (name prop) →
   has_field reg' cls (name prop)) ∧
  (∀ f, has_field reg' cls f → ∃ p, p ∈ properties meta ∧ name p = f).
Proof.
  intros Wf Hmeta Hnodup Hswagger Hprop cls reg'. subst cls reg'.
  pose proof (excluded_properties_spec target meta prop Hmeta Hnodup Hswagger
                Hprop) as Hexcl.
  assert (Hout : name prop ∈ excluded_properties target →
                 ¬ has_field (DefaultCreateDto target (excluded_properties target) reg).2
                     (DefaultCreateDto target (excluded_properties target) reg).1
                     (name prop)).
  { intros Hin (p & _ & _ & Hnot)%(DefaultCreateDto_kept _ _ _ _ Wf Hmeta).
    by apply Hnot. }
  unfold readonly in *.
  repeat split.
  - intros H. apply Hout, Hexcl. by left.
  - intros H. apply Hout, Hexcl. right. by left.
  - intros H. apply Hout, Hexcl. right. right. left. by left.
  - intros H. apply Hout, Hexcl. right. right. left. right. by left.
  - intros H. apply Hout, Hexcl. right. right. left. right. by right.
  - intros Hp Ha Hr He. apply (DefaultCreateDto_kept _ _ _ _ Wf Hmeta).
    exists prop. split; [exact Hprop|]. split; [reflexivity|].
    rewrite Hexcl, Hp. intros [? | [? | [? | ?]]]; [discriminate | tauto..].
  - intros f (p & Hp & Hn & _)%(DefaultCreateDto_kept _ _ _ _ Wf Hmeta). eauto.
Qed.

(** ** Required and optional fields of the create DTO *)

Lemma validate_own_rule (r : rule) (each : option bool) (cls : dto)
    (p : string) (reg : registry) (c : dto) (f : string) (r' : rule) :
  own_rule (validate r each cls p reg) c f r'
  ↔ own_rule reg c f r' ∨ (c = cls ∧ f = p ∧ r' = r).
Proof.
  unfold own_rule, validate, addValidationMetadata. cbn. split.
  - intros (m & [Hm | ->%list_elem_of_singleton]%elem_of_app & Ht & Hn & Hr).
    + left. eauto.
    + right. cbn in *. repeat split; congruence.
  - intros [(m & Hm & H) | (-> & -> & ->)].
    + exists m. split; [apply elem_of_app; by left | exact H].
    + eexists. split; [apply elem_of_app; right; by left|]. by cbn.
Qed.

Lemma other_rules_for_refl (cls : dto) (p : string) (reg : registry) :
  other_rules_for cls p reg reg.
Proof. intros c f r. tauto. Qed.

Lemma other_rules_for_trans (cls : dto) (p : string) (r1 r2 r3 : registry) :
  other_rules_for cls p r1 r2 → other_rules_for cls p r2 r3 →
  other_rules_for cls p r1 r3.
Proof.
  intros H12 H23 c f r.
  destruct (H12 c f r) as (A1 & B1), (H23 c f r) as (A2 & B2). tauto.
Qed.

Lemma validate_other_rule (r : rule) (each : option bool) (cls : dto)
    (p : string) (reg : registry) :
  r ≠ IsOptional → r ≠ IsNotEmpty →
  other_rules_for cls p reg (validate r each cls p reg).
Proof.
  intros H1 H2 c f r'. rewrite validate_own_rule. split; [|tauto].
  intros [H | (-> & -> & ->)]; auto.
Qed.

Lemma TypeTransformer_other_rule (t : ctor) (cls : dto) (p : string)
    (reg : registry) :
  other_rules_for cls p reg (TypeTransformer t cls p reg).
Proof. intros c f r. split; auto. Qed.

(** Of [IsOptional] and [IsNotEmpty], the decorators of a property add the
    first when the property is nullable and the second when it is not. *)
Lemma decorate_field_presence (entity : class_) (cls : dto)
    (prop : EntityProperty) (reg : registry) (c : dto) (f : string) :
  (own_rule (decorate_field entity cls prop reg) c f IsOptional
   ↔ own_rule reg c f IsOptional
     ∨ (c = cls ∧ f = name prop ∧ nullable prop = true)) ∧
  (own_rule (decorate_field entity cls prop reg) c f IsNotEmpty
   ↔ own_rule reg c f IsNotEmpty
     ∨ (c = cls ∧ f = name prop ∧ nullable prop = false)).
Proof.
  unfold decorate_field.
  set (each := if isArray entity prop then Some true else None).
  set (reg1 := match typeToCheck entity prop with
               | Some String_ => _ | Some Number_ => _ | Some Boolean_ => _
               | Some Date_ => _ | _ => reg end).
  set (reg2 := match enum prop, items prop with
               | true, Some values => _ | _, _ => reg1 end).
  set (reg3 := if array prop || isArray entity prop then _ else reg2).
  assert (H1 : other_rules_for cls (name prop) reg reg1).
  { unfold reg1. destruct (typeToCheck entity prop) as [[| | | | | | |?]|];
      try destruct (isInt prop);
      repeat (first [ apply other_rules_for_refl
                    | apply validate_other_rule; discriminate
                    | eapply other_rules_for_trans;
                      [apply validate_other_rule; discriminate
                      |apply TypeTransformer_other_rule] ]). }
  assert (H2 : other_rules_for cls (name prop) reg1 reg2).
  { unfold reg2. destruct (enum prop), (items prop);
      first [apply other_rules_for_refl
            | apply validate_other_rule; discriminate]. }
  assert (H3 : other_rules_for cls (name prop) reg2 reg3).
  { unfold reg3. destruct (array prop || isArray entity prop);
      first [apply other_rules_for_refl
            | apply validate_other_rule; discriminate]. }
  assert (H : other_rules_for cls (name prop) reg reg3).
  { eapply other_rules_for_trans; [|exact H3].
    eapply other_rules_for_trans; eassumption. }
  clearbody reg3. clear H1 H2 H3 reg1 reg2.
  destruct (H c f IsOptional) as (A1 & B1), (H c f IsNotEmpty) as (A2 & B2).
  destruct (nullable prop).
  - change (own_rule (ApiProperty ?o ?x ?y ?z) c f ?r)
      with (own_rule z c f r).
    rewrite !validate_own_rule. clear H. intuition congruence.
  - change (own_rule (ApiProperty ?o ?x ?y ?z) c f ?r)
      with (own_rule z c f r).
    rewrite !validate_own_rule. clear H. intuition congruence.
Qed.

Lemma decorate_fields_presence (entity : class_) (cls : dto)
    (excl : gset string) (props : list EntityProperty) :
  ∀ reg c f,
    let reg' := foldl (λ reg prop,
                         if bool_decide (name prop ∈ excl) then reg
                         else decorate_field entity cls prop reg)
                      reg props in
    (own_rule reg' c f IsOptional
     ↔ own_rule reg c f IsOptional
       ∨ (c = cls ∧ ∃ prop, prop ∈ props ∧ name prop = f ∧ (f ∉ excl)
                            ∧ nullable prop = true)) ∧
    (own_rule reg' c f IsNotEmpty
     ↔ own_rule reg c f IsNotEmpty
       ∨ (c = cls ∧ ∃ prop, prop ∈ props ∧ name prop = f ∧ (f ∉ excl)
                            ∧ nullable prop = false)).
Proof.
  induction props as [|prop props IH]; intros reg c f; cbn [foldl].
  - split; (split; [auto|]; intros [H | (_ & prop & Hp & _)]; [exact H|];
            by apply elem_of_nil in Hp).
  - destruct (IH (if bool_decide (name prop ∈ excl) then reg
                  else decorate_field entity cls prop reg) c f) as [-> ->].
    destruct (decorate_field_presence entity cls prop reg c f) as [H1 H2].
    case_bool_decide as Hex.
    + split; (split; [intros [H | (-> & p & Hp & Hn & Hf & Hb)]; [by left|];
                      right; split; [reflexivity|]; exists p;
                      split; [by right | auto]
                     |intros [H | (-> & p & [-> | Hp]%elem_of_cons & Hn & Hf & Hb)];
                      [by left | congruence | right; eauto 7]]).
    + rewrite H1, H2.
      split; (split; [intros [[H | (-> & -> & Hb)] | (-> & p & Hp & Hn & Hf & Hb)];
                      [by left
                      |right; split; [reflexivity|]; exists prop;
                       split; [left | auto]
                      |right; split; [reflexivity|]; exists p;
                       split; [by right | auto]]
                     |intros [H | (-> & p & [-> | Hp]%elem_of_cons & Hn & Hf & Hb)];
                      [by left; left | left; right; auto | right; eauto 7]]).
Qed.

Lemma elem_of_filter_bool {A : Type} (P : A → bool) (l : list A) (x : A) :
  x ∈ List.filter P l ↔ x ∈ l ∧ P x = true.
Proof. rewrite !list_elem_of_In. apply filter_In. Qed.

(** For a class that extends no other, the rules are those registered for
    the class itself. *)
Lemma carries_rule_own (reg : registry) (cls : dto) (f : string) (r : rule) :
  superclasses reg cls = [] →
  carries_rule reg cls f r ↔ own_rule reg cls f r.
Proof.
  intros Hsuper. unfold carries_rule, own_rule, getTargetValidationMetadatas.
  rewrite Hsuper.
  rewrite (filter_nil_iff (λ m, bool_decide (vm_target m ∈ []))
             (validationMetadatas reg)), app_nil_r
    by (intros m _; apply bool_decide_eq_false, not_elem_of_nil).
  split.
  - intros (m & [Hm Ht]%elem_of_filter_bool & H). apply Nat.eqb_eq in Ht. eauto.
  - intros (m & Hm & Ht & H). exists m. split; [|exact H].
    apply elem_of_filter_bool. split; [exact Hm | by apply Nat.eqb_eq].
Qed.

(** X19: A field of the create DTO is optional exactly when the property is
    nullable, and must not be empty exactly when it is not: no field is
    both, and every field is one of the two. *)
Theorem DefaultCreateDto_required_or_optional (target : class_)
    (meta : EntityMetadata) (reg : registry) (prop : EntityProperty) :
  registry_wf reg →
  orm_metadata (info target) = Some meta →
  NoDup (name <$> properties meta) →
  prop ∈ properties meta →
  name prop ∉ excluded_properties target →
  let cls := (DefaultCreateDto target (excluded_properties target) reg).1 in
  let reg' := (DefaultCreateDto target (excluded_properties target) reg).2 in
  (carries_rule reg' cls (name prop) IsOptional ↔ nullable prop = true) ∧
  (carries_rule reg' cls (name prop) IsNotEmpty ↔ nullable prop = false).
Proof.
  intros (Wv & Wa & Wt & Wx) Hmeta Hnodup Hprop Hnot.
  unfold DefaultCreateDto, new_class. rewrite Hmeta. cbn [fst snd].
  set (reg0 := {| next_dto := S (next_dto reg);
                  dto_names := _; dto_extends := dto_extends reg;
                  validationMetadatas := validationMetadatas reg;
                  apiModelProperties := apiModelProperties reg;
                  typeMetadatas := typeMetadatas reg |}).
  destruct (decorate_fields_spec target (next_dto reg)
              (excluded_properties target) (properties meta) reg0)
    as ((_ & Hx & _) & _).
  destruct (decorate_fields_presence target (next_dto reg)
              (excluded_properties target) (properties meta) reg0
              (next_dto reg) (name prop)) as [HO HN].
  cbn zeta in Hx, HO, HN.
  set (reg' := foldl _ reg0 (properties meta)) in *.
  assert (Hsuper : superclasses reg' (next_dto reg) = []).
  { apply ancestors_none. intros p Hp. rewrite Hx in Hp. cbn in Hp.
    apply Wx in Hp. lia. }
  rewrite !(carries_rule_own _ _ _ _ Hsuper), HO, HN.
  assert (Hold : ∀ r, ¬ own_rule reg0 (next_dto reg) (name prop) r).
  { intros r (m & Hm & Ht & _). apply Wv in Hm. lia. }
  assert (Hsame : ∀ p, p ∈ properties meta → name p = name prop → p = prop).
  { intros p Hp Hname.
    apply list_elem_of_lookup in Hp as [i Hi].
    apply list_elem_of_lookup in Hprop as [j Hj].
    assert (i = j) as ->; [|congruence].
    apply (NoDup_lookup _ i j (name prop) Hnodup);
      rewrite list_lookup_fmap; [rewrite Hi | rewrite Hj]; cbn; congruence. }
  split; split.
  - intros [H | (_ & p & Hp & Hn & _ & Hb)]; [by apply Hold in H|].
    by rewrite <- (Hsame p Hp Hn).
  - intros Hb. right. split; [reflexivity|]. exists prop. auto.
  - intros [H | (_ & p & Hp & Hn & _ & Hb)]; [by apply Hold in H|].
    by rewrite <- (Hsame p Hp Hn).
  - intros Hb. right. split; [reflexivity|]. exists prop. auto.
Qed.

(** ** The update DTO *)

Lemma find_app_first {A : Type} (f : A → bool) (l1 l2 : list A) :
  List.find f (l1 ++ l2)
  = match List.find f l1 with Some x => Some x | None => List.find f l2 end.
Proof. induction l1 as [|x l1 IH]; cbn; [reflexivity|]. destruct (f x); auto. Qed.

Lemma ancestors_lt (reg : registry) :
  (∀ c p, (c, p) ∈ dto_extends reg → p < c)%nat →
  ∀ fuel c p, p ∈ ancestors fuel reg c → (p < c)%nat.
Proof.
  intros Wx. induction fuel as [|fuel IH]; intros c p; cbn;
    [by intros ?%elem_of_nil|].
  destruct (List.find _ _) as [[c' q]|] eqn:Hfind; [|by intros ?%elem_of_nil].
  apply find_some in Hfind as [Hin Heq]. cbn in Heq.
  apply Nat.eqb_eq in Heq as ->. apply list_elem_of_In, Wx in Hin.
  intros [-> | Hp]%elem_of_cons; [exact Hin|]. apply IH in Hp. lia.
Qed.

Lemma ancestors_fuel (reg : registry) :
  (∀ c p, (c, p) ∈ dto_extends reg → p < c)%nat →
  ∀ fuel1 fuel2 c, (c < fuel1)%nat → (c < fuel2)%nat →
    ancestors fuel1 reg c = ancestors fuel2 reg c.
Proof.
  intros Wx. induction fuel1 as [|fuel1 IH]; intros fuel2 c H1 H2; [lia|].
  destruct fuel2 as [|fuel2]; [lia|]. cbn.
  destruct (List.find _ _) as [[c' q]|] eqn:Hfind; [|reflexivity].
  apply find_some in Hfind as [Hin Heq]. cbn in Heq.
  apply Nat.eqb_eq in Heq as ->. apply list_elem_of_In, Wx in Hin.
  f_equal. apply IH; lia.
Qed.

Lemma ancestors_extends_app (reg reg' : registry) (n : nat)
    (xs : list (nat * nat)) :
  (∀ c p, (c, p) ∈ dto_extends reg → p < c)%nat →
  dto_extends reg' = dto_extends reg ++ xs →
  Forall (λ cp, n ≤ cp.1)%nat xs →
  ∀ fuel c, (c < n)%nat → ancestors fuel reg' c = ancestors fuel reg c.
Proof.
  intros Wx Hx Hxs. induction fuel as [|fuel IH]; intros c Hc; cbn;
    [reflexivity|].
  rewrite Hx, find_app_first.
  destruct (List.find _ (dto_extends reg)) as [[c' q]|] eqn:Hfind.
  - apply find_some in Hfind as [Hin Heq]. cbn in Heq.
    apply Nat.eqb_eq in Heq as ->. apply list_elem_of_In, Wx in Hin.
    f_equal. apply IH. lia.
  - destruct (List.find _ xs) as [[c' q]|] eqn:Hfind'; [|reflexivity].
    apply find_some in Hfind' as [Hin Heq]. cbn in Heq.
    apply Nat.eqb_eq in Heq as ->. rewrite Forall_forall in Hxs.
    apply list_elem_of_In, Hxs in Hin. cbn in Hin. lia.
Qed.

Lemma superclasses_stable (reg reg' : registry) (xs : list (nat * nat))
    (c : nat) :
  registry_wf reg → (c < next_dto reg)%nat →
  (next_dto reg ≤ next_dto reg')%nat →
  dto_extends reg' = dto_extends reg ++ xs →
  Forall (λ cp, next_dto reg ≤ cp.1)%nat xs →
  superclasses reg' c = superclasses reg c.
Proof.
  intros (_ & _ & _ & Wx) Hc Hn Hx Hxs. unfold superclasses.
  assert (Wx' : ∀ c p, (c, p) ∈ dto_extends reg → (p < c)%nat).
  { intros c' p Hp. apply Wx in Hp. lia. }
  rewrite (ancestors_extends_app reg reg' (next_dto reg) xs Wx' Hx Hxs _ _ Hc).
  apply ancestors_fuel; [exact Wx' | lia | lia].
Qed.

Lemma superclasses_lt (reg : registry) (c p : nat) :
  registry_wf reg → p ∈ superclasses reg c → (p < c)%nat.
Proof.
  intros (_ & _ & _ & Wx). apply ancestors_lt.
  intros c' p' Hp. apply Wx in Hp. lia.
Qed.

Lemma elem_of_getTargetValidationMetadatas (reg : registry) (cls : nat)
    (m : ValidationMetadata) :
  m ∈ getTargetValidationMetadatas reg cls
  ↔ m ∈ validationMetadatas reg ∧
    (vm_target m = cls
     ∨ (vm_target m ∈ superclasses reg cls ∧
        ∀ o, o ∈ validationMetadatas reg → vm_target o = cls →
             ¬ (vm_propertyName o = vm_propertyName m
                ∧ type_of_rule (vm_rule o) = type_of_rule (vm_rule m)))).
Proof.
  unfold getTargetValidationMetadatas.
  rewrite elem_of_app, !elem_of_filter_bool. split.
  - intros [[Hm Ht] | [[Hm Hs] Hu]]; (split; [exact Hm|]).
    + left. by apply Nat.eqb_eq.
    + right. split; [by apply bool_decide_eq_true in Hs|].
      intros o Ho Hto [Hn Hty]. apply negb_true_iff in Hu.
      assert (He : existsb
                (λ original,
                   bool_decide (vm_propertyName original = vm_propertyName m)
                   && bool_decide (type_of_rule (vm_rule original)
                                   = type_of_rule (vm_rule m)))
                (List.filter (λ m0, Nat.eqb (vm_target m0) cls)
                   (validationMetadatas reg)) = true); [|congruence].
      apply existsb_exists. exists o. split.
      * apply list_elem_of_In, elem_of_filter_bool.
        split; [exact Ho | by apply Nat.eqb_eq].
      * by rewrite !bool_decide_eq_true_2.
  - intros [Hm [Ht | [Hs Hu]]].
    + left. split; [exact Hm | by apply Nat.eqb_eq].
    + right. split; [split; [exact Hm | by apply bool_decide_eq_true]|].
      apply negb_true_iff. destruct (existsb _ _) eqn:He; [|reflexivity].
      apply existsb_exists in He as (o & Ho & Hc).
      apply list_elem_of_In, elem_of_filter_bool in Ho as [Ho Hto].
      apply Nat.eqb_eq in Hto.
      apply andb_true_iff in Hc as [H1 H2].
      apply bool_decide_eq_true in H1, H2. exfalso. by apply (Hu o).
Qed.

Lemma elem_of_getModelProperties (reg : registry) (c : nat) (f : string) :
  f ∈ getModelProperties reg c
  ↔ ∃ t o, (t, f, o) ∈ apiModelProperties reg ∧ t ∈ c :: superclasses reg c.
Proof.
  unfold getModelProperties.
  rewrite elem_of_remove_dups, list_elem_of_fmap. split.
  - intros ([[t g] o] & -> & [He Ht]%elem_of_filter_bool). cbn in *.
    apply bool_decide_eq_true in Ht. eauto.
  - intros (t & o & Ho & Ht). exists (t, f, o). split; [reflexivity|].
    apply elem_of_filter_bool. split; [exact Ho|].
    by apply bool_decide_eq_true.
Qed.

Lemma fold_retarget_spec (P : nat) (T : list ValidationMetadata) :
  ∀ reg reg',
    reg' = foldl (λ reg m, addValidationMetadata (retarget P m) reg) reg T →
    next_dto reg' = next_dto reg ∧ dto_extends reg' = dto_extends reg ∧
    apiModelProperties reg' = apiModelProperties reg ∧
    validationMetadatas reg'
    = validationMetadatas reg ++ (retarget P <$> T).
Proof.
  induction T as [|m T IH]; intros reg reg' ->; cbn [foldl].
  - cbn. by rewrite app_nil_r.
  - destruct (IH (addValidationMetadata (retarget P m) reg) _ eq_refl)
      as (-> & -> & -> & ->).
    cbn. by rewrite <- app_assoc.
Qed.

Lemma fold_optional_spec (P : nat) (fields keys : list string) :
  ∀ reg reg',
    reg' = foldl (λ reg key,
                    if bool_decide (key ∈ fields) then reg
                    else IsOptional_ P key reg) reg keys →
    next_dto reg' = next_dto reg ∧ dto_extends reg' = dto_extends reg ∧
    apiModelProperties reg' = apiModelProperties reg ∧
    validationMetadatas reg'
    = validationMetadatas reg
      ++ (optional_rule P
            <$> List.filter (λ key, negb (bool_decide (key ∈ fields))) keys).
Proof.
  induction keys as [|key keys IH]; intros reg reg' ->; cbn [foldl].
  - cbn. by rewrite app_nil_r.
  - cbn [List.filter]. case_bool_decide; cbn [negb].
    + by apply IH.
    + destruct (IH (IsOptional_ P key reg) _ eq_refl)
        as (-> & -> & -> & ->).
      cbn. by rewrite <- app_assoc.
Qed.

Lemma fold_types_spec (P classRef : nat) (l : list (nat * string * ctor)) :
  ∀ reg reg',
    reg' = foldl (λ reg e,
                    if bool_decide
                         (e.1.1 ∈ classRef :: superclasses reg classRef)
                    then TypeTransformer e.2 P e.1.2 reg else reg) reg l →
    next_dto reg' = next_dto reg ∧ dto_extends reg' = dto_extends reg ∧
    apiModelProperties reg' = apiModelProperties reg ∧
    validationMetadatas reg' = validationMetadatas reg.
Proof.
  induction l as [|e l IH]; intros reg reg' ->; cbn [foldl]; [done|].
  case_bool_decide.
  - by destruct (IH (TypeTransformer e.2 P e.1.2 reg) _ eq_refl)
      as (-> & -> & -> & ->).
  - by apply IH.
Qed.

Lemma fold_fields_spec (P : nat) (step : registry → string → registry)
    (fields : list string) :
  ∀ reg reg',
    reg' = foldl step reg fields →
    (∀ reg key, ∃ o, step reg key
                    = IsOptional_ P key (ApiProperty o P key reg)) →
    next_dto reg' = next_dto reg ∧ dto_extends reg' = dto_extends reg ∧
    validationMetadatas reg'
    = validationMetadatas reg ++ (optional_rule P <$> fields) ∧
    ∃ aps, apiModelProperties reg' = apiModelProperties reg ++ aps ∧
           (λ e, e.1) <$> aps = (λ k, (P, k)) <$> fields.
Proof.
  induction fields as [|key fields IH]; intros reg reg' -> Hstep; cbn [foldl].
  - cbn. rewrite app_nil_r. repeat split. exists []. by rewrite app_nil_r.
  - destruct (Hstep reg key) as (o & ->).
    destruct (IH (IsOptional_ P key (ApiProperty o P key reg))
                 _ eq_refl Hstep) as (-> & -> & -> & aps & -> & Haps).
    cbn. rewrite <- app_assoc. repeat split.
    exists ((P, key, o) :: aps). rewrite <- app_assoc. cbn. by rewrite Haps.
Qed.

Lemma fold_update_spec (U : nat) (T : list ValidationMetadata) :
  ∀ reg reg',
    reg' = foldl (λ reg meta,
                    match vm_propertyName meta with
                    | Some propertyName =>
                        if String.eqb propertyName "" then reg
                        else IsOptional_ U propertyName
                               (addValidationMetadata
                                  (new_ValidationMetadata U meta) reg)
                    | None => reg
                    end) reg T →
    next_dto reg' = next_dto reg ∧ dto_extends reg' = dto_extends reg ∧
    apiModelProperties reg' = apiModelProperties reg ∧
    validationMetadatas reg'
    = validationMetadatas reg ++ flat_map (update_rules U) T.
Proof.
  induction T as [|m T IH]; intros reg reg' ->; cbn [foldl flat_map].
  - cbn. by rewrite app_nil_r.
  - unfold update_rules at 1.
    destruct (vm_propertyName m) as [pn|]; [|by apply IH].
    destruct (String.eqb pn ""); [by apply IH|].
    destruct (IH (IsOptional_ U pn
                    (addValidationMetadata (new_ValidationMetadata U m) reg))
                _ eq_refl)
      as (-> & -> & -> & ->).
    cbn. by rewrite <- !app_assoc.
Qed.

Lemma getTargetValidationMetadatas_stable (reg reg' : registry)
    (xs : list (nat * nat)) (vs : list ValidationMetadata) (c : nat) :
  registry_wf reg → (c < next_dto reg)%nat →
  (next_dto reg ≤ next_dto reg')%nat →
  dto_extends reg' = dto_extends reg ++ xs →
  Forall (λ cp, next_dto reg ≤ cp.1)%nat xs →
  validationMetadatas reg' = validationMetadatas reg ++ vs →
  Forall (λ m, next_dto reg ≤ vm_target m)%nat vs →
  getTargetValidationMetadatas reg' c = getTargetValidationMetadatas reg c.
Proof.
  intros Wf Hc Hn Hx Hxs Hv Hvs. unfold getTargetValidationMetadatas.
  rewrite (superclasses_stable reg reg' xs c Wf Hc Hn Hx Hxs), Hv.
  rewrite !List.filter_app.
  rewrite Forall_forall in Hvs.
  rewrite (filter_nil_iff (λ m, Nat.eqb (vm_target m) c) vs), !app_nil_r.
  2:{ intros m Hm. apply Hvs in Hm. apply Nat.eqb_neq. lia. }
  rewrite (filter_nil_iff (λ m, bool_decide (vm_target m ∈ superclasses reg c)) vs).
  2:{ intros m Hm. apply Hvs in Hm. apply bool_decide_eq_false.
      intros Hs%(superclasses_lt _ _ _ Wf). lia. }
  by rewrite app_nil_r.
Qed.

Lemma partial_rules_target (P : nat) (T : list ValidationMetadata)
    (fields : list string) :
  Forall (λ m, vm_target m = P) (partial_rules P T fields).
Proof.
  unfold partial_rules. rewrite !Forall_app, !Forall_fmap.
  repeat split; by apply Forall_true.
Qed.

Lemma PartialType_registry (c : nat) (reg : registry) :
  registry_wf reg → (c < next_dto reg)%nat →
  ∃ r4 aps,
    PartialType c reg = (next_dto reg, r4) ∧
    next_dto r4 = S (next_dto reg) ∧
    dto_extends r4 = dto_extends reg ∧
    validationMetadatas r4
    = validationMetadatas reg
      ++ partial_rules (next_dto reg) (getTargetValidationMetadatas reg c)
           (getModelProperties reg c) ∧
    apiModelProperties r4 = apiModelProperties reg ++ aps ∧
    (λ e, e.1) <$> aps
    = (λ k, (next_dto reg, k)) <$> getModelProperties reg c.
Proof.
  intros Wf Hc. unfold PartialType, new_class. cbv beta iota zeta.
  set (r0 := {| next_dto := S (next_dto reg); dto_names := _;
                dto_extends := dto_extends reg;
                validationMetadatas := validationMetadatas reg;
                apiModelProperties := apiModelProperties reg;
                typeMetadatas := typeMetadatas reg |}).
  rewrite (getTargetValidationMetadatas_stable reg r0 [] [] c Wf Hc)
    by (cbn; rewrite ?app_nil_r; auto).
  set (T := getTargetValidationMetadatas reg c).
  set (fields := getModelProperties reg c).
  set (r1 := foldl _ r0 T).
  destruct (fold_retarget_spec (next_dto reg) T r0 r1 eq_refl)
    as (Hn1 & Hx1 & Ha1 & Hv1).
  set (r2 := foldl _ r1 (remove_dups _)).
  destruct (fold_optional_spec (next_dto reg) fields _ r1 r2 eq_refl)
    as (Hn2 & Hx2 & Ha2 & Hv2).
  set (r3 := foldl _ r2 (typeMetadatas r2)).
  destruct (fold_types_spec (next_dto reg) c _ r2 r3 eq_refl)
    as (Hn3 & Hx3 & Ha3 & Hv3).
  set (r4 := foldl _ r3 fields).
  destruct (fold_fields_spec (next_dto reg) _ fields r3 r4 eq_refl)
    as (Hn4 & Hx4 & Hv4 & aps & Ha4 & Haps).
  { intros reg0 key. eexists. reflexivity. }
  exists r4, aps. split; [reflexivity|].
  rewrite Hn4, Hn3, Hn2, Hn1, Hx4, Hx3, Hx2, Hx1, Hv4, Hv3, Hv2, Hv1,
    Ha4, Ha3, Ha2, Ha1.
  unfold partial_rules. cbn. rewrite <- !app_assoc. auto.
Qed.

Lemma DefaultUpdateDto_registry (target : class_) (c : nat) (reg : registry) :
  registry_wf reg → (c < next_dto reg)%nat →
  let P := next_dto reg in
  let U := S P in
  let T := getTargetValidationMetadatas reg c in
  let fields := getModelProperties reg c in
  ∃ r6 aps,
    DefaultUpdateDto target c reg = (U, r6) ∧
    next_dto r6 = S U ∧
    dto_extends r6 = dto_extends reg ++ [(U, P)] ∧
    validationMetadatas r6
    = validationMetadatas reg ++ partial_rules P T fields
      ++ flat_map (update_rules U) T ∧
    apiModelProperties r6 = apiModelProperties reg ++ aps ∧
    (λ e, e.1) <$> aps = (λ k, (P, k)) <$> fields.
Proof.
  intros Wf Hc P U T fields. unfold DefaultUpdateDto.
  destruct (PartialType_registry c reg Wf Hc)
    as (r4 & aps & -> & Hn4 & Hx4 & Hv4 & Ha4 & Haps).
  unfold new_class. cbv beta iota zeta. rewrite Hn4, Hx4, Hv4, Ha4.
  fold P U T fields.
  set (r5 := {| next_dto := S U; dto_names := _;
                dto_extends := dto_extends reg ++ [(U, P)];
                validationMetadatas
                  := validationMetadatas reg ++ partial_rules P T fields;
                apiModelProperties := apiModelProperties reg ++ aps;
                typeMetadatas := typeMetadatas r4 |}).
  rewrite (getTargetValidationMetadatas_stable reg r5 [(U, P)]
             (partial_rules P T fields) c Wf Hc).
  2:{ cbn. lia. }
  2:{ reflexivity. }
  2:{ apply Forall_singleton. cbn. lia. }
  2:{ reflexivity. }
  2:{ eapply Forall_impl; [apply partial_rules_target|]. cbn. intros m ->. done. }
  fold T.
  set (r6 := foldl _ r5 T).
  destruct (fold_update_spec U T r5 r6 eq_refl) as (Hn6 & Hx6 & Ha6 & Hv6).
  exists r6, aps. rewrite Hn6, Hx6, Ha6, Hv6. cbn. rewrite <- app_assoc.
  repeat split. exact Haps.
Qed.

Lemma superclasses_update (reg r6 : registry) :
  registry_wf reg →
  next_dto r6 = S (S (next_dto reg)) →
  dto_extends r6 = dto_extends reg ++ [(S (next_dto reg), next_dto reg)] →
  superclasses r6 (S (next_dto reg)) = [next_dto reg].
Proof.
  intros (_ & _ & _ & Wx) Hn Hx. unfold superclasses. rewrite Hn.
  assert (Hnone : ∀ c, (next_dto reg ≤ c)%nat →
            List.find (λ cp : nat * nat, Nat.eqb cp.1 c) (dto_extends reg) = None).
  { intros c Hc. destruct (List.find _ _) as [[c' q]|] eqn:Hfind; [|reflexivity].
    apply find_some in Hfind as [Hin Heq]. cbn in Heq.
    apply Nat.eqb_eq in Heq as ->. apply list_elem_of_In, Wx in Hin. lia. }
  cbn [ancestors]. rewrite Hx, !find_app_first, !Hnone by lia.
  cbn [List.find fst]. rewrite Nat.eqb_refl. f_equal.
  rewrite find_app_first, Hnone by lia. cbn [List.find fst].
  destruct (Nat.eqb_spec (S (next_dto reg)) (next_dto reg)) as [?|_]; [lia|].
  reflexivity.
Qed.

Lemma elem_of_update_rules (U : nat) (T : list ValidationMetadata)
    (m : ValidationMetadata) :
  m ∈ flat_map (update_rules U) T
  ↔ ∃ meta pn, meta ∈ T ∧ vm_propertyName meta = Some pn ∧ pn ≠ "" ∧
               (m = new_ValidationMetadata U meta ∨ m = optional_rule U pn).
Proof.
  rewrite list_elem_of_In, in_flat_map. unfold update_rules. split.
  - intros (meta & Hmeta%list_elem_of_In & Hm). exists meta.
    destruct (vm_propertyName meta) as [pn|]; [|by destruct Hm].
    destruct (String.eqb_spec pn ""); [by destruct Hm|].
    exists pn. repeat split; [done..|].
    destruct Hm as [<- | [<- | []]]; auto.
  - intros (meta & pn & Hmeta & Hn & Hne & Hm). exists meta.
    split; [by apply list_elem_of_In|]. rewrite Hn.
    destruct (String.eqb_spec pn ""); [done|].
    destruct Hm as [-> | ->]; [by left | right; by left].
Qed.

Lemma elem_of_partial_rules (P : nat) (T : list ValidationMetadata)
    (fields : list string) (m : ValidationMetadata) :
  m ∈ partial_rules P T fields
  ↔ (∃ meta, meta ∈ T ∧ m = retarget P meta)
    ∨ (∃ key, (named T key ∨ key ∈ fields) ∧ m = optional_rule P key).
Proof.
  unfold partial_rules, named.
  rewrite !elem_of_app, !list_elem_of_fmap. split.
  - intros [(meta & -> & Hmeta) | [(key & -> & Hkey) | (key & -> & Hkey)]].
    + left. eauto.
    + right. exists key. split; [left | reflexivity].
      apply elem_of_filter_bool in Hkey as [Hkey _].
      apply elem_of_remove_dups, list_elem_of_omap in Hkey. exact Hkey.
    + right. eauto.
  - intros [(meta & Hmeta & ->) | (key & [Hkey | Hkey] & ->)].
    + left. eauto.
    + destruct (decide (key ∈ fields)) as [Hin | Hnot].
      * right. right. eauto.
      * right. left. exists key. split; [reflexivity|].
        apply elem_of_filter_bool. split.
        -- by apply elem_of_remove_dups, list_elem_of_omap.
        -- by rewrite bool_decide_eq_false_2.
    + right. right. eauto.
Qed.

Lemma update_rules_target (U : nat) (T : list ValidationMetadata)
    (m : ValidationMetadata) :
  m ∈ flat_map (update_rules U) T → vm_target m = U.
Proof.
  intros (meta & pn & _ & _ & _ & [-> | ->])%elem_of_update_rules; reflexivity.
Qed.

Lemma update_rules_named (U : nat) (T : list ValidationMetadata)
    (m : ValidationMetadata) (f : string) :
  m ∈ flat_map (update_rules U) T → vm_propertyName m = Some f →
  f ≠ "" ∧ named T f ∧ optional_rule U f ∈ flat_map (update_rules U) T.
Proof.
  intros Hm Hf.
  apply elem_of_update_rules in Hm as (meta & pn & Hmeta & Hn & Hne & Hm).
  assert (pn = f) as ->.
  { destruct Hm as [-> | ->]; cbn in Hf; congruence. }
  split; [exact Hne|]. split; [by exists meta|].
  apply elem_of_update_rules. exists meta, f. auto.
Qed.

Lemma partial_rules_named (P : nat) (T : list ValidationMetadata)
    (fields : list string) (m : ValidationMetadata) (f : string) :
  m ∈ partial_rules P T fields → vm_propertyName m = Some f →
  named T f ∨ f ∈ fields.
Proof.
  intros [(meta & Hmeta & ->) | (key & Hkey & ->)]%elem_of_partial_rules Hf;
    cbn in Hf.
  - left. by exists meta.
  - by injection Hf as ->.
Qed.

(** The metadata that class-validator reports for the update DTO: the
    rules registered for it, and those of the partial class that no rule of
    its own replaces. *)
Lemma DefaultUpdateDto_metadata (target : class_) (c : nat) (reg : registry) :
  registry_wf reg → (c < next_dto reg)%nat →
  let P := next_dto reg in
  let U := S P in
  let T := getTargetValidationMetadatas reg c in
  let fields := getModelProperties reg c in
  let reg' := (DefaultUpdateDto target c reg).2 in
  (DefaultUpdateDto target c reg).1 = U ∧
  (∀ m, m ∈ getTargetValidationMetadatas reg' U
        ↔ m ∈ flat_map (update_rules U) T
          ∨ (m ∈ partial_rules P T fields ∧
             ∀ o, o ∈ flat_map (update_rules U) T →
                  ¬ (vm_propertyName o = vm_propertyName m
                     ∧ type_of_rule (vm_rule o) = type_of_rule (vm_rule m)))) ∧
  (∀ f, f ∈ getModelProperties reg' U ↔ f ∈ fields).
Proof.
  intros Wf Hc P U T fields.
  destruct (DefaultUpdateDto_registry target c reg Wf Hc)
    as (r6 & aps & -> & Hn & Hx & Hv & Ha & Haps).
  cbn [fst snd]. fold P U T fields in Hn, Hx, Hv, Ha, Haps.
  pose proof (superclasses_update reg r6 Wf Hn Hx) as Hsuper.
  fold P U in Hsuper.
  destruct Wf as (Wv & Wa & _ & _).
  assert (HP : ∀ m, m ∈ partial_rules P T fields → vm_target m = P).
  { apply Forall_forall, partial_rules_target. }
  pose proof (update_rules_target U T) as HU.
  split; [reflexivity|]. split.
  - intros m. rewrite elem_of_getTargetValidationMetadatas, Hsuper, Hv.
    rewrite !elem_of_app. split.
    + intros [[Hm | [Hm | Hm]] [Ht | [Ht Hu]]].
      * apply Wv in Hm. fold P in Hm. subst U. lia.
      * apply list_elem_of_singleton in Ht. apply Wv in Hm. fold P in Hm. lia.
      * apply HP in Hm. subst U. lia.
      * right. split; [exact Hm|]. intros o Ho. apply Hu; [|by apply HU].
        rewrite !elem_of_app. auto.
      * by left.
      * by left.
    + intros [Hm | [Hm Hu]].
      * split; [auto|]. left. by apply HU.
      * split; [auto|]. right. split; [apply list_elem_of_singleton; by apply HP|].
        intros o Ho Hto. apply Hu. rewrite !elem_of_app in Ho.
        destruct Ho as [Ho | [Ho | Ho]]; [|  |exact Ho].
        -- apply Wv in Ho. fold P in Ho. subst U. lia.
        -- apply HP in Ho. subst U. lia.
  - intros f. rewrite elem_of_getModelProperties, Hsuper, Ha. split.
    + intros (t & o & [Ho | Ho]%elem_of_app & Ht).
      * apply Wa in Ho. cbn in Ho. fold P in Ho.
        apply elem_of_cons in Ht as [-> | ->%list_elem_of_singleton];
          subst U; lia.
      * assert (H : (t, f) ∈ (λ e : nat * string * ApiOptions, e.1) <$> aps).
        { apply list_elem_of_fmap. by exists (t, f, o). }
        rewrite Haps in H. apply list_elem_of_fmap in H as (k & [= -> ->] & Hk).
        exact Hk.
    + intros Hf.
      assert (H : (P, f) ∈ (λ e : nat * string * ApiOptions, e.1) <$> aps).
      { rewrite Haps. apply list_elem_of_fmap. by exists f. }
      apply list_elem_of_fmap in H as ([[t g] o] & [= <- <-] & Ho).
      exists P, o. split; [apply elem_of_app; by right|]. right. left.
Qed.

Lemma named_in_update (target : class_) (c : nat) (reg : registry)
    (m : ValidationMetadata) (f : string) :
  registry_wf reg → (c < next_dto reg)%nat →
  m ∈ getTargetValidationMetadatas reg c → vm_propertyName m = Some f →
  ∃ m', m' ∈ getTargetValidationMetadatas (DefaultUpdateDto target c reg).2
               (S (next_dto reg)) ∧
        vm_propertyName m' = Some f ∧ vm_rule m' = vm_rule m ∧
        (f ≠ "" → vm_each m' = Some false).
Proof.
  intros Wf Hc Hm Hf.
  destruct (DefaultUpdateDto_metadata target c reg Wf Hc) as (_ & Hmeta & _).
  cbn zeta in Hmeta. destruct (decide (f = "")) as [-> | Hne].
  - exists (retarget (next_dto reg) m). split; [|by cbn].
    apply Hmeta. right. split.
    + apply elem_of_partial_rules. left. eauto.
    + intros o Ho [Hn _]. cbn in Hn. rewrite Hf in Hn.
      by destruct (update_rules_named _ _ _ _ Ho Hn) as (? & _).
  - exists (new_ValidationMetadata (S (next_dto reg)) m). split; [|by cbn].
    apply Hmeta. left. apply elem_of_update_rules. exists m, f. auto.
Qed.

(** A rule that the update DTO reports for a property with a name, and
    that the create DTO has for it, is one of the copies made for the update
    DTO: they stand in front of the entries of the partial class. *)
Lemma update_rule_each (target : class_) (c : nat) (reg : registry)
    (m m' : ValidationMetadata) (f : string) :
  registry_wf reg → (c < next_dto reg)%nat →
  m ∈ getTargetValidationMetadatas reg c → vm_propertyName m = Some f →
  f ≠ "" →
  m' ∈ getTargetValidationMetadatas (DefaultUpdateDto target c reg).2
         (S (next_dto reg)) →
  vm_propertyName m' = Some f → vm_rule m' = vm_rule m →
  vm_each m' = Some false.
Proof.
  intros Wf Hc Hm Hf Hne Hm' Hf' Hr'.
  destruct (DefaultUpdateDto_metadata target c reg Wf Hc) as (_ & Hmeta & _).
  cbn zeta in Hmeta. apply Hmeta in Hm' as [Hown | [_ Hnone]].
  - by apply elem_of_update_rules
      in Hown as (meta & pn & _ & _ & _ & [-> | ->]).
  - exfalso. apply (Hnone (new_ValidationMetadata (S (next_dto reg)) m)).
    + apply elem_of_update_rules. exists m, f. auto.
    + cbn. by rewrite Hf, Hf', Hr'.
Qed.

Lemma update_field_origin (target : class_) (c : nat) (reg : registry)
    (f : string) :
  registry_wf reg → (c < next_dto reg)%nat →
  has_field (DefaultUpdateDto target c reg).2 (S (next_dto reg)) f →
  has_field reg c f.
Proof.
  intros Wf Hc.
  destruct (DefaultUpdateDto_metadata target c reg Wf Hc) as (_ & Hmeta & Hmodel).
  cbn zeta in Hmeta, Hmodel. unfold has_field.
  intros [(m & Hm & Hf) | Hf]; [|right; by apply Hmodel].
  apply Hmeta in Hm as [Hm | [Hm _]].
  - left. by destruct (update_rules_named _ _ _ _ Hm Hf) as (_ & ? & _).
  - by destruct (partial_rules_named _ _ _ _ _ Hm Hf) as [? | ?]; [left | right].
Qed.

(** ** What the derivation leaves as it was *)

Lemma grows_refl (reg : registry) : grows reg reg.
Proof.
  split; [lia|].
  repeat split; exists []; by rewrite app_nil_r.
Qed.

Lemma grows_trans (r1 r2 r3 : registry) :
  grows r1 r2 → grows r2 r3 → grows r1 r3.
Proof.
  intros (Hn1 & (xs1 & Hx1 & Fx1) & (vs1 & Hv1 & Fv1) & (as1 & Ha1 & Fa1)
          & (ts1 & Ht1 & Ft1))
         (Hn2 & (xs2 & Hx2 & Fx2) & (vs2 & Hv2 & Fv2) & (as2 & Ha2 & Fa2)
          & (ts2 & Ht2 & Ft2)).
  split; [lia|]. split; [|split; [|split]].
  - exists (xs1 ++ xs2). rewrite Hx2, Hx1, <- app_assoc. split; [done|].
    apply Forall_app. split; (eapply Forall_impl; [eassumption|]);
      cbn; intros; lia.
  - exists (vs1 ++ vs2). rewrite Hv2, Hv1, <- app_assoc. split; [done|].
    apply Forall_app. split; (eapply Forall_impl; [eassumption|]);
      cbn; intros; lia.
  - exists (as1 ++ as2). rewrite Ha2, Ha1, <- app_assoc. split; [done|].
    apply Forall_app. split; (eapply Forall_impl; [eassumption|]);
      cbn; intros; lia.
  - exists (ts1 ++ ts2). rewrite Ht2, Ht1, <- app_assoc. split; [done|].
    apply Forall_app. split; (eapply Forall_impl; [eassumption|]);
      cbn; intros; lia.
Qed.

Lemma grows_wf (reg reg' : registry) :
  registry_wf reg → grows reg reg' → registry_wf reg'.
Proof.
  intros (Wv & Wa & Wt & Wx)
         (Hn & (xs & Hx & Fx) & (vs & Hv & Fv) & (aps & Ha & Fa)
          & (ts & Ht & Ft)).
  rewrite Forall_forall in Fx. rewrite Forall_forall in Fv.
  rewrite Forall_forall in Fa. rewrite Forall_forall in Ft.
  unfold registry_wf. rewrite Hx, Hv, Ha, Ht. split; [|split; [|split]].
  - intros m [Hm | Hm]%elem_of_app; [apply Wv in Hm | apply Fv in Hm]; lia.
  - intros e [He | He]%elem_of_app; [apply Wa in He | apply Fa in He]; lia.
  - intros e [He | He]%elem_of_app; [apply Wt in He | apply Ft in He]; lia.
  - intros c p [He | He]%elem_of_app; [apply Wx in He | apply Fx in He];
      cbn in *; lia.
Qed.

Lemma grows_superclasses (reg reg' : registry) (c : nat) :
  registry_wf reg → grows reg reg' → (c < next_dto reg)%nat →
  superclasses reg' c = superclasses reg c.
Proof.
  intros Wf (Hn & (xs & Hx & Fx) & _) Hc.
  apply (superclasses_stable reg reg' xs c Wf Hc Hn Hx).
  eapply Forall_impl; [exact Fx|]. cbn. intros; lia.
Qed.

Lemma grows_getTargetValidationMetadatas (reg reg' : registry) (c : nat) :
  registry_wf reg → grows reg reg' → (c < next_dto reg)%nat →
  getTargetValidationMetadatas reg' c = getTargetValidationMetadatas reg c.
Proof.
  intros Wf (Hn & (xs & Hx & Fx) & (vs & Hv & Fv) & _) Hc.
  apply (getTargetValidationMetadatas_stable reg reg' xs vs c Wf Hc Hn Hx);
    [|exact Hv|]; (eapply Forall_impl; [eassumption|]); cbn; intros; lia.
Qed.

Lemma grows_getModelProperties (reg reg' : registry) (c : nat) :
  registry_wf reg → grows reg reg' → (c < next_dto reg)%nat →
  getModelProperties reg' c = getModelProperties reg c.
Proof.
  intros Wf Hg Hc. unfold getModelProperties.
  rewrite (grows_superclasses reg reg' c Wf Hg Hc).
  destruct Hg as (_ & _ & _ & (aps & -> & Fa) & _).
  rewrite List.filter_app.
  rewrite (filter_nil_iff _ aps), app_nil_r; [reflexivity|].
  rewrite Forall_forall in Fa. intros e He. apply Fa in He.
  apply bool_decide_eq_false.
  intros [Heq | Hs%(superclasses_lt _ _ _ Wf)]%elem_of_cons; lia.
Qed.

Lemma DefaultCreateDto_class (target : class_) (excl : gset string)
    (reg : registry) :
  (DefaultCreateDto target excl reg).1 = next_dto reg.
Proof.
  unfold DefaultCreateDto, new_class. by destruct (orm_metadata (info target)).
Qed.

Lemma DefaultCreateDto_grows (target : class_) (excl : gset string)
    (reg : registry) :
  next_dto (DefaultCreateDto target excl reg).2 = S (next_dto reg) ∧
  grows reg (DefaultCreateDto target excl reg).2.
Proof.
  unfold DefaultCreateDto, new_class.
  destruct (orm_metadata (info target)) as [meta|]; cbn [fst snd].
  - set (reg0 := {| next_dto := S (next_dto reg); dto_names := _;
                    dto_extends := dto_extends reg;
                    validationMetadatas := validationMetadatas reg;
                    apiModelProperties := apiModelProperties reg;
                    typeMetadatas := typeMetadatas reg |}).
    destruct (decorate_fields_spec target (next_dto reg) excl
                (properties meta) reg0)
      as ((Hn & Hx & (vs & Hvs & Fvs) & (aps & Haps & Faps)
           & (ts & Hts & Fts)) & _).
    cbn zeta in Hn, Hx, Hvs, Haps, Hts.
    set (reg' := foldl _ reg0 (properties meta)) in *.
    split; [exact Hn|]. unfold grows. rewrite Hn, Hx, Hvs, Haps, Hts. cbn.
    split; [lia|]. split; [exists []; by rewrite app_nil_r|].
    split; [|split]; eexists; (split; [reflexivity|]);
      (eapply Forall_impl; [eassumption|]); cbn; intros ? ->; lia.
  - split; [reflexivity|]. unfold grows. cbn. split; [lia|].
    repeat split; exists []; by rewrite app_nil_r.
Qed.

Lemma foldl_typeMetadatas {A : Type} (step : registry → A → registry)
    (l : list A) :
  (∀ r x, typeMetadatas (step r x) = typeMetadatas r) →
  ∀ r, typeMetadatas (foldl step r l) = typeMetadatas r.
Proof.
  intros Hstep. induction l as [|x l IH]; intros r; cbn; [reflexivity|].
  by rewrite IH.
Qed.

Lemma foldl_typeMetadatas_grow {A : Type} (P : nat)
    (step : registry → A → registry) (l : list A) :
  (∀ r x, ∃ ts, typeMetadatas (step r x) = typeMetadatas r ++ ts ∧
                Forall (λ e, e.1.1 = P) ts) →
  ∀ r, ∃ ts, typeMetadatas (foldl step r l) = typeMetadatas r ++ ts ∧
             Forall (λ e, e.1.1 = P) ts.
Proof.
  intros Hstep. induction l as [|x l IH]; intros r; cbn.
  - exists []. by rewrite app_nil_r.
  - destruct (IH (step r x)) as (ts & -> & Fts).
    destruct (Hstep r x) as (ts' & -> & Fts').
    exists (ts' ++ ts). rewrite <- app_assoc. split; [done|].
    by apply Forall_app.
Qed.

Lemma PartialType_types (c : nat) (reg : registry) :
  ∃ ts, typeMetadatas (PartialType c reg).2 = typeMetadatas reg ++ ts ∧
        Forall (λ e, e.1.1 = next_dto reg) ts.
Proof.
  unfold PartialType, new_class. cbv beta iota zeta. cbn [snd].
  rewrite foldl_typeMetadatas by done.
  match goal with
  | |- context [foldl ?step ?r0 (typeMetadatas ?r0)] =>
      pose proof (λ H, foldl_typeMetadatas_grow (next_dto reg) step
                         (typeMetadatas r0) H r0) as HG
  end.
  destruct HG as (ts & -> & Fts).
  { intros r x. case_bool_decide.
    - eexists. split; [reflexivity|]. by apply Forall_singleton.
    - exists []. by rewrite app_nil_r. }
  exists ts. split; [|exact Fts]. f_equal.
  rewrite foldl_typeMetadatas by (intros; by case_bool_decide).
  by rewrite foldl_typeMetadatas.
Qed.

Lemma DefaultUpdateDto_types (target : class_) (c : nat) (reg : registry) :
  ∃ ts, typeMetadatas (DefaultUpdateDto target c reg).2
        = typeMetadatas reg ++ ts ∧
        Forall (λ e, e.1.1 = next_dto reg) ts.
Proof.
  unfold DefaultUpdateDto.
  destruct (PartialType_types c reg) as (ts & Hts & Fts).
  destruct (PartialType c reg) as [partial r4]. cbn [snd] in Hts.
  unfold new_class. cbv beta iota zeta. cbn [snd].
  rewrite foldl_typeMetadatas.
  - cbn. eauto.
  - intros r x. destruct (vm_propertyName x) as [pn|]; [|reflexivity].
    by destruct (String.eqb pn "").
Qed.

Lemma DefaultUpdateDto_grows (target : class_) (c : nat) (reg : registry) :
  registry_wf reg → (c < next_dto reg)%nat →
  next_dto (DefaultUpdateDto target c reg).2 = S (S (next_dto reg)) ∧
  grows reg (DefaultUpdateDto target c reg).2.
Proof.
  intros Wf Hc.
  destruct (DefaultUpdateDto_types target c reg) as (ts & Hts & Fts).
  destruct (DefaultUpdateDto_registry target c reg Wf Hc)
    as (r6 & aps & Heq & Hn & Hx & Hv & Ha & Haps).
  rewrite Heq in Hts |- *. cbn [snd] in *.
  split; [exact Hn|]. unfold grows. rewrite Hn. split; [lia|].
  split; [|split; [|split]].
  - eexists. split; [exact Hx|]. apply Forall_singleton. cbn. lia.
  - eexists. split; [exact Hv|]. apply Forall_app. split.
    + eapply Forall_impl; [apply partial_rules_target|]. cbn. intros ? ->. lia.
    + apply Forall_forall. intros m Hm%update_rules_target. lia.
  - exists aps. split; [exact Ha|]. apply Forall_forall. intros e He.
    assert (H : e.1 ∈ (λ e : nat * string * ApiOptions, e.1) <$> aps)
      by (apply list_elem_of_fmap; eauto).
    rewrite Haps in H. apply list_elem_of_fmap in H as (k & -> & _). cbn. lia.
  - exists ts. split; [exact Hts|]. eapply Forall_impl; [exact Fts|].
    cbn. intros ? ->. lia.
Qed.

Lemma createDtos_grows (options : CrudOptions) (reg : registry) :
  registry_wf reg →
  (∀ d, createDto options = Some d → d < next_dto reg)%nat →
  grows reg (createDtos options reg).2.
Proof.
  intros Wf Hd. unfold createDtos.
  destruct (createDto options) as [c|] eqn:Hc.
  - destruct (updateDto options) as [u|] eqn:Hu; [apply grows_refl|].
    cbn beta iota delta [fst snd createDto updateDto]. rewrite ?Hc, ?Hu.
    destruct (DefaultUpdateDto_grows (entity options) c reg Wf (Hd c eq_refl))
      as (_ & Hg).
    destruct (DefaultUpdateDto (entity options) c reg). exact Hg.
  - pose proof (DefaultCreateDto_class (entity options)
                  (excluded_properties (entity options)) reg) as Hcls.
    destruct (DefaultCreateDto_grows (entity options)
                (excluded_properties (entity options)) reg) as (Hn1 & Hg1).
    destruct (DefaultCreateDto _ _ reg) as [cls reg1]. cbn [fst snd] in *.
    subst cls.
    cbn [set_createDto createDto updateDto entity].
    destruct (updateDto options) as [u|]; [exact Hg1|].
    destruct (DefaultUpdateDto_grows (entity options) (next_dto reg) reg1)
      as (_ & Hg2); [by eapply grows_wf | lia |].
    destruct (DefaultUpdateDto (entity options) (next_dto reg) reg1).
    cbn [snd] in *. by eapply grows_trans.
Qed.

(** X23: Deriving the DTOs of one entity leaves the classes known before as
    they were: their fields and their rules. *)
Theorem createDtos_leaves_other_classes (options : CrudOptions)
    (reg : registry) (c : nat) :
  registry_wf reg →
  (∀ d, createDto options = Some d → d < next_dto reg)%nat →
  (c < next_dto reg)%nat →
  let reg' := (createDtos options reg).2 in
  registry_wf reg' ∧
  (∀ f, has_field reg' c f ↔ has_field reg c f) ∧
  (∀ f r each, has_rule reg' c f r each ↔ has_rule reg c f r each).
Proof.
  intros Wf Hd Hc reg'. pose proof (createDtos_grows options reg Wf Hd) as Hg.
  fold reg' in Hg. split; [by eapply grows_wf|].
  unfold has_field, has_rule.
  rewrite (grows_getTargetValidationMetadatas reg reg' c Wf Hg Hc),
    (grows_getModelProperties reg reg' c Wf Hg Hc).
  done.
Qed.

(** ** The update DTO and the create DTO *)

(** X20: The update DTO has exactly the fields of the create DTO it is derived
    from, and the create DTO keeps the fields it had. *)
Theorem DefaultUpdateDto_same_fields (target : class_) (c : nat)
    (reg : registry) :
  registry_wf reg → (c < next_dto reg)%nat →
  let cls := (DefaultUpdateDto target c reg).1 in
  let reg' := (DefaultUpdateDto target c reg).2 in
  ∀ f, (has_field reg' c f ↔ has_field reg c f) ∧
       (has_field reg' cls f ↔ has_field reg' c f).
Proof.
  intros Wf Hc cls reg' f. subst cls reg'.
  destruct (DefaultUpdateDto_grows target c reg Wf Hc) as (_ & Hg).
  assert (Hframe : has_field (DefaultUpdateDto target c reg).2 c f
                   ↔ has_field reg c f).
  { unfold has_field.
    by rewrite (grows_getTargetValidationMetadatas _ _ c Wf Hg Hc),
         (grows_getModelProperties _ _ c Wf Hg Hc). }
  split; [exact Hframe|]. rewrite Hframe.
  destruct (DefaultUpdateDto_metadata target c reg Wf Hc) as (-> & _ & Hmodel).
  cbn zeta in Hmodel. split; [by apply update_field_origin|].
  intros [(m & Hm & Hf) | Hf].
  - destruct (named_in_update target c reg m f Wf Hc Hm Hf) as (m' & Hm' & Hf' & _).
    left. eauto.
  - right. by apply Hmodel.
Qed.

(** X21: Every field of the update DTO is optional. *)
Theorem DefaultUpdateDto_fields_optional (target : class_) (c : nat)
    (reg : registry) :
  registry_wf reg → (c < next_dto reg)%nat →
  let cls := (DefaultUpdateDto target c reg).1 in
  let reg' := (DefaultUpdateDto target c reg).2 in
  ∀ f, has_field reg' cls f → carries_rule reg' cls f IsOptional.
Proof.
  intros Wf Hc cls reg' f. subst cls reg'.
  destruct (DefaultUpdateDto_metadata target c reg Wf Hc) as (HU & Hmeta & _).
  intros Hfield. rewrite HU in Hfield |- *. cbn zeta in Hmeta.
  pose proof (update_field_origin target c reg f Wf Hc Hfield) as Horigin.
  set (U := S (next_dto reg)) in *.
  set (T := getTargetValidationMetadatas reg c) in *.
  destruct (decide (Exists (λ o, vm_propertyName o = Some f)
                      (flat_map (update_rules U) T))) as [Hex | Hnone].
  - apply Exists_exists in Hex as (o & Ho & Hf).
    destruct (update_rules_named _ _ _ _ Ho Hf) as (_ & _ & Hopt).
    exists (optional_rule U f). split; [|by cbn]. apply Hmeta. by left.
  - exists (optional_rule (next_dto reg) f). split; [|by cbn].
    apply Hmeta. right. split.
    + apply elem_of_partial_rules. right. exists f. split; [|reflexivity].
      exact Horigin.
    + intros o Ho [Hn _]. apply Hnone, Exists_exists. exists o. by split.
Qed.

(** X22: Every rule of a field of the create DTO is a rule of the same field
    of the update DTO. For a field with a name the update DTO reports the
    rule with [each] false, and with no other [each], whatever [each] was on
    the create DTO. *)
Theorem DefaultUpdateDto_keeps_rules (target : class_) (c : nat)
    (reg : registry) :
  registry_wf reg → (c < next_dto reg)%nat →
  let cls := (DefaultUpdateDto target c reg).1 in
  let reg' := (DefaultUpdateDto target c reg).2 in
  ∀ f r each,
    has_rule reg' c f r each →
    carries_rule reg' cls f r ∧
    (f ≠ "" →
     has_rule reg' cls f r (Some false) ∧
     ∀ each', has_rule reg' cls f r each' → each' = Some false).
Proof.
  intros Wf Hc cls reg' f r each. subst cls reg'.
  destruct (DefaultUpdateDto_grows target c reg Wf Hc) as (_ & Hg).
  unfold has_rule at 1.
  rewrite (grows_getTargetValidationMetadatas _ _ c Wf Hg Hc).
  intros (m & Hm & Hf & Hr & He).
  destruct (DefaultUpdateDto_metadata target c reg Wf Hc) as (-> & _ & _).
  destruct (named_in_update target c reg m f Wf Hc Hm Hf)
    as (m' & Hm' & Hf' & Hr' & He').
  split; [exists m'; repeat split; congruence|].
  intros Hne. split.
  - exists m'. repeat split; [done.. | congruence | by apply He'].
  - intros each' (m2 & Hm2 & Hf2 & Hr2 & <-).
    apply (update_rule_each target c reg m m2 f Wf Hc Hm Hf Hne Hm2 Hf2).
    congruence.
Qed.

(** ** The options after the derivation *)

(** X24: The factory never replaces a DTO that the options supply, and touches
    nothing else of the options. *)
Theorem createDtos_keeps_supplied (options : CrudOptions) (reg : registry) :
  let options' := (createDtos options reg).1 in
  entity options' = entity options ∧
  tag options' = tag options ∧
  filter options' = filter options ∧
  operations_query options' = operations_query options ∧
  (∀ c, createDto options = Some c → createDto options' = Some c) ∧
  (∀ u, updateDto options = Some u → updateDto options' = Some u).
Proof.
  unfold createDtos.
  destruct (createDto options) as [c|] eqn:Hc,
           (updateDto options) as [u|] eqn:Hu;
    repeat (cbn beta iota zeta delta
              [fst snd createDto updateDto entity tag filter
               operations_query set_createDto set_updateDto];
            rewrite ?Hc, ?Hu;
            try match goal with
                | |- context [DefaultCreateDto ?e ?x ?r] =>
                    destruct (DefaultCreateDto e x r)
                | |- context [DefaultUpdateDto ?e ?c ?r] =>
                    destruct (DefaultUpdateDto e c r)
                end);
    repeat split; intros; congruence.
Qed.

(** * The names in messages *)

Lemma trim_start_suffix (l : list ascii) :
  ∃ pre, l = pre ++ trim_start l.
Proof.
  induction l as [|c l [pre IH]]; cbn; [by exists []|].
  destruct (is_space c); [|by exists []].
  exists (c :: pre). cbn. by rewrite <- IH.
Qed.

Lemma trim_start_head (l : list ascii) (c : ascii) :
  head (trim_start l) = Some c → is_space c = false.
Proof.
  induction l as [|x l IH]; cbn; [discriminate|].
  destruct (is_space x) eqn:Hx; [exact IH|]. cbn. by intros [= <-].
Qed.

Lemma elem_of_trim_start (l : list ascii) (c : ascii) :
  c ∈ trim_start l → c ∈ l.
Proof.
  destruct (trim_start_suffix l) as [pre Hl]. intros H. rewrite Hl.
  apply elem_of_app. by right.
Qed.

Lemma last_rev_head {A : Type} (l : list A) : last (rev l) = head l.
Proof. destruct l as [|x l]; cbn; [reflexivity|]. apply last_snoc. Qed.

Lemma head_rev_last {A : Type} (l : list A) : head (rev l) = last l.
Proof. rewrite <- (rev_involutive l) at 2. by rewrite last_rev_head. Qed.

(** X25: The name that [routeToName] gives has no dash in it and no blank at
    either end. *)
Theorem routeToName_clean (route : string) :
  let l := list_ascii_of_string (routeToName route) in
  ("-"%char ∉ l) ∧
  (∀ c, head l = Some c → is_space c = false) ∧
  (∀ c, last l = Some c → is_space c = false).
Proof.
  unfold routeToName. cbv zeta. rewrite list_ascii_of_string_of_list_ascii.
  set (dashed := _ <$> list_ascii_of_string route).
  set (cut := match rev dashed with
              | c :: r => if Ascii.eqb c "s" then rev r else dashed
              | [] => dashed
              end).
  assert (Hdashed : "-"%char ∉ dashed).
  { unfold dashed. intros (c & Hc & _)%list_elem_of_fmap.
    destruct (Ascii.eqb_spec c "-"); [discriminate | congruence]. }
  assert (Hcut : ∀ c, c ∈ cut → c ∈ dashed).
  { unfold cut. intros c. destruct (rev dashed) as [|x r] eqn:Hrev; [done|].
    destruct (Ascii.eqb x "s"); [|done].
    intros Hc%list_elem_of_In%in_rev. apply list_elem_of_In, in_rev.
    rewrite Hrev. by right. }
  split; [|split].
  - intros H%list_elem_of_In%in_rev%list_elem_of_In%elem_of_trim_start.
    apply list_elem_of_In, in_rev, list_elem_of_In, elem_of_trim_start in H.
    by apply Hdashed, Hcut.
  - intros c. rewrite head_rev_last.
    destruct (trim_start_suffix (rev (trim_start cut))) as [pre Hpre].
    destruct (trim_start (rev (trim_start cut))) as [|x b] eqn:Hb;
      [discriminate|].
    intros Hlast.
    assert (H : last (rev (trim_start cut)) = Some c).
    { rewrite Hpre. rewrite last_app, Hlast. reflexivity. }
    rewrite last_rev_head in H. by apply trim_start_head in H.
  - intros c. rewrite last_rev_head. apply trim_start_head.
Qed.

(** * The parameters of a path *)

Lemma scan_params_in_match (seg R : list ascii) :
  ("/"%char ∉ seg) → (R = [] ∨ ∃ R', R = "/"%char :: R') →
  ∀ name, scan_params (Some name) (seg ++ R)
          = matched (name ++ seg) ++ scan_params None R.
Proof.
  intros Hseg HR. induction seg as [|c seg IH]; intros name.
  - rewrite app_nil_r. cbn [app].
    destruct HR as [-> | [R' ->]]; cbn; [by rewrite app_nil_r | reflexivity].
  - apply not_elem_of_cons in Hseg as [Hc Hseg]. cbn.
    destruct (Ascii.eqb_spec c "/"); [congruence|].
    rewrite (IH Hseg). by rewrite <- app_assoc.
Qed.

Lemma scan_params_segment (seg R : list ascii) :
  ("/"%char ∉ seg) → (R = [] ∨ ∃ R', R = "/"%char :: R') →
  scan_params None (seg ++ R)
  = option_list (after_colon seg) ++ scan_params None R.
Proof.
  intros Hseg HR. induction seg as [|c seg IH]; [reflexivity|].
  pose proof Hseg as Hseg'. apply not_elem_of_cons in Hseg' as [Hc Hs]. cbn.
  destruct (Ascii.eqb c ":").
  - rewrite (scan_params_in_match seg R Hs HR). cbn [app].
    by destruct seg.
  - exact (IH Hs).
Qed.

(** X26: Every segment of a path that has a colon followed by something gives
    one parameter, what follows the colon, and nothing else does: the
    parameters come in the order of the segments. *)
Theorem path_params_of_segments (segs : list (list ascii)) :
  Forall (λ seg, "/"%char ∉ seg) segs →
  path_params (string_of_list_ascii (path_of segs))
  = string_of_list_ascii <$> omap after_colon segs.
Proof.
  intros Hsegs. unfold path_params. rewrite list_ascii_of_string_of_list_ascii.
  f_equal. induction Hsegs as [|seg segs Hseg _ IH]; [reflexivity|].
  unfold path_of. cbn [fmap list_fmap concat app scan_params].
  change (Ascii.eqb "/" ":") with false. cbv iota.
  fold (path_of segs).
  rewrite (scan_params_segment seg (path_of segs) Hseg), IH.
  - cbn [omap list_omap]. by destruct (after_colon seg).
  - destruct segs; [by left | right]. cbn. eauto.
Qed.

(** * The statements on examples *)

Lemma query_pagination_defaults_witness :
  queryUsesPagination Order_options = true ∧
  ∃ p w1,
    query sample_matches sample_sort sample_window sample_ToNumber
      Order_options a_request ∅ (QNumber (number_of_Z 0)) QUndefined
      Order_table = (Return (Paginated p), w1) ∧
    pg_limit p = QNumber (number_of_Z 100) ∧
    pg_page p = QNumber (number_of_Z 0).
Proof.
  split; [reflexivity|].
  destruct (query_pagination_defaults sample_matches sample_sort sample_window
              sample_ToNumber Order_options a_request ∅
              (QNumber (number_of_Z 0)) QUndefined Order_table eq_refl)
    as (p & w1 & o & Hrun & _ & _ & _ & Hl & _ & Hp & _).
  exists p, w1. split; [exact Hrun|].
  split; [apply Hl | apply Hp]; reflexivity.
Defined.

Lemma query_paginated_result_witness :
  queryUsesPagination Order_options = true ∧
  ∃ p w1,
    query sample_matches sample_sort sample_window sample_ToNumber
      Order_options a_request ∅ (QNumber (number_of_Z 1))
      (QNumber (number_of_Z 1)) Order_table = (Return (Paginated p), w1) ∧
    pg_data p = [order_row 3 "alice" 30] ∧
    pg_total p = 2 ∧ pg_totalPages p = number_of_Z 2 ∧
    Z.of_nat (length (pg_data p)) ≤ 1.
Proof.
  split; [reflexivity|].
  destruct (query_paginated_result sample_matches sample_sort sample_window
              sample_ToNumber Order_options a_request ∅
              (QNumber (number_of_Z 1)) (QNumber (number_of_Z 1)) 1 1
              Order_table eq_refl eq_refl ltac:(lia) eq_refl ltac:(lia))
    as (p & w1 & Hrun & _ & _ & _ & _ & Htotal & Hpages & Hlen & _).
  exists p, w1.
  assert (Hp : p = {| pg_data := [order_row 3 "alice" 30]; pg_total := 2;
                      pg_page := QNumber (number_of_Z 1);
                      pg_limit := QNumber (number_of_Z 1);
                      pg_totalPages := number_of_Z 2 |}).
  { vm_compute in Hrun. injection Hrun as <- _. reflexivity. }
  split; [exact Hrun|]. rewrite Hp in *. repeat split. exact Hlen.
Defined.

Lemma export_streams_in_batches_witness :
  export id sample_matches sample_sort sample_window Order_options a_request ∅
    (replicate 6 false) Order_table
  = (Return ({| res_headers := [("Content-Type", "application/json")];
                res_piped := Chunks [Lit "[";
                                     Stringified (order_row 1 "alice" 10);
                                     Lit ",";
                                     Stringified (order_row 3 "alice" 30);
                                     Lit "]"] |}, Finished),
     {| rows := rows Order_table;
        calls := [FindAndCount (Plain (owned_by "alice"))
                    {| fo_offset := Some (Whole 0); fo_limit := Some (Whole 500);
                       fo_orderBy := None |}] |}).
Proof.
  pose proof (proj1 (export_streams_in_batches id sample_matches sample_sort
                       sample_window Order_options a_request ∅ Order_table)
                6%nat) as H.
  rewrite H; [reflexivity|].
  vm_compute. lia.
Defined.

Lemma update_keeps_unsupplied_fields_witness :
  ∃ pre post w1,
    update sample_Number sample_ObjectId sample_matches Order_options
      Order_service {[ "amount" := PNum (JNum 99); "owner" := PUndef ]}
      a_request ∅ "3" Order_table
    = (Return (order_row 3 "alice" 99), w1) ∧
    rows Order_table = pre ++ order_row 3 "alice" 30 :: post ∧
    rows w1 = pre ++ order_row 3 "alice" 99 :: post.
Proof.
  destruct (update_keeps_unsupplied_fields sample_Number sample_ObjectId
              sample_matches Order_options Order_service
              {[ "amount" := PNum (JNum 99); "owner" := PUndef ]}
              a_request ∅ "3" (PNum (JNum 3)) (order_row 3 "alice" 30)
              (order_row 3 "alice" 30) Order_table)
    as (pre & post & w1 & Hrun & _ & _ & Hrows & Hrows1 & _);
    [reflexivity | reflexivity | reflexivity |].
  assert (Hnew : delete_undefined
                   (Object_assign ∅ {[ "amount" := PNum (JNum 99);
                                       "owner" := PUndef ]})
                 ∪ order_row 3 "alice" 30 = order_row 3 "alice" 99)
    by (vm_compute; reflexivity).
  rewrite Hnew in Hrun, Hrows1. exists pre, post, w1. auto.
Defined.


(** C6: an id that cannot be parsed is not a bad request on the routes of
    the CRUD handlers. With an [ObjectId] key, [GET /zzz] ends in the error
    that the [ObjectId] constructor throws; with a numeric key, [GET /abc]
    looks up [NaN] and ends in not-found. When the schema does not list its
    primary keys yet at the time [Crud] is evaluated, the handlers take the
    key for [id] and the id for a string, and [GET /zzz] ends in not-found.
    The interceptor, given the same ids, raises [BadRequestException] both
    times. *)
Theorem read_unparsable_id_is_no_bad_request :
  read sample_Number sample_ObjectId sample_matches Doc_options a_request ∅
    "zzz" Doc_table
  = (Throw BSONError, Doc_table) ∧
  read sample_Number sample_ObjectId sample_matches Order_options a_request ∅
    "abc" Order_table
  = (Throw (NotFoundException "Order not found"),
     logged [FindOne (Plain (<["id" := CVal (PNum JNaN)]> (owned_by "alice")))]
       Order_table) ∧
  read sample_Number sample_ObjectId sample_matches Doc_options_declared
    a_request ∅ "zzz" Doc_table
  = (Throw (NotFoundException "Doc not found"),
     logged [FindOne (Plain {[ "id" := CVal (PStr "zzz") ]})] Doc_table) ∧
  intercept sample_Number sample_ObjectId sample_matches (Some Doc_metadata)
    (Some Doc_options) (request_with "_id" "zzz") Doc_table
  = (Throw (BadRequestException "Invalid ObjectId"), Doc_table) ∧
  intercept sample_Number sample_ObjectId sample_matches (Some Order_metadata)
    (Some Order_options) (request_with "id" "abc") Order_table
  = (Throw (BadRequestException "Invalid ID"), Order_table).
Proof. repeat split; vm_compute; reflexivity. Qed.

(** C7: order 2 belongs to bob and the scoping filter asks for alice's
    orders. When the callback returns the filter at once, [DELETE /2] raises
    not-found and the table is as before. When the same filter comes from an
    [async] callback, the handler spreads the promise, the scope is lost,
    and the order is deleted; [PUT /2] changes it. The same happens to the
    note of bob, whose key is a string. *)
Theorem delete_loses_async_scope :
  delete_ sample_Number sample_ObjectId sample_matches Order_options
    Order_service a_request ∅ "2" Order_table
  = (Throw (NotFoundException "Order not found"),
     logged [FindOne (Plain (<["id" := CVal (PNum (JNum 2))]>
                               (owned_by "alice")))] Order_table) ∧
  delete_ sample_Number sample_ObjectId sample_matches Order_options_async
    Order_service a_request ∅ "2" Order_table
  = (Return tt,
     {| rows := [order_row 1 "alice" 10; order_row 3 "alice" 30];
        calls := [FindOne (Plain {[ "id" := CVal (PNum (JNum 2)) ]});
                  FindOne (Plain {[ "id" := CVal (PNum (JNum 2)) ]});
                  Emit "order.deleted" (Some (order_row 2 "bob" 20));
                  NativeDelete (Plain {[ "id" := CVal (PNum (JNum 2)) ]})] |}) ∧
  update sample_Number sample_ObjectId sample_matches Order_options_async
    Order_service {[ "amount" := PNum (JNum 0) ]} a_request ∅ "2" Order_table
  = (Return (order_row 2 "bob" 0),
     {| rows := [order_row 1 "alice" 10; order_row 2 "bob" 0;
                 order_row 3 "alice" 30];
        calls := [FindOne (Plain {[ "id" := CVal (PNum (JNum 2)) ]});
                  FindOne (Plain {[ "id" := CVal (PNum (JNum 2)) ]});
                  Flush {[ "amount" := PNum (JNum 0) ]};
                  Emit "order.updated" (Some (order_row 2 "bob" 0))] |}) ∧
  delete_ sample_Number sample_ObjectId sample_matches Note_options_async
    Note_service a_request ∅ "n2" Note_table
  = (Return tt,
     {| rows := [note_row "n1" "alice"];
        calls := [FindOne (Plain {[ "id" := CVal (PStr "n2") ]});
                  FindOne (Plain {[ "id" := CVal (PStr "n2") ]});
                  NativeDelete (Plain {[ "id" := CVal (PStr "n2") ]})] |}).
Proof. repeat split; vm_compute; reflexivity. Qed.

(** C3: the update DTO does not keep the rules of a list property as they
    are. In the create DTO the strings of [tags] are checked one by one
    ([IsString] with [each]); the update DTO reports [IsString] for [tags]
    without [each], and not with it. *)
Theorem update_dto_resets_each :
  let reg' := (DefaultUpdateDto Tagged 0 Tagged_create_registry).2 in
  let U := (DefaultUpdateDto Tagged 0 Tagged_create_registry).1 in
  has_rule reg' 0 "tags" IsString (Some true) ∧
  has_rule reg' U "tags" IsString (Some false) ∧
  ¬ has_rule reg' U "tags" IsString (Some true).
Proof.
  cbv zeta. split; [|split].
  - exists {| vm_target := 0; vm_propertyName := Some "tags";
              vm_rule := IsString; vm_each := Some true |}.
    split; [compute_done | by repeat split].
  - exists {| vm_target := 2; vm_propertyName := Some "tags";
              vm_rule := IsString; vm_each := Some false |}.
    split; [compute_done | by repeat split].
  - intros (m & Hm & Hf & Hr & He). vm_compute in Hm.
    repeat (apply elem_of_cons in Hm as [-> | Hm]; [discriminate|]).
    by apply elem_of_nil in Hm.
Qed.

(** C1: with an [async] scoping callback [GET /export] does not export the
    filtered result set. The filter asks for alice's orders. [query], which
    awaits the callback, lists her two orders, and so does [export] when the
    callback answers at once. With the [async] callback [export] hands the
    promise to the data layer as the filter, and streams all three rows, the
    order of bob among them. *)
Theorem export_loses_async_scope :
  query sample_matches sample_sort sample_window sample_ToNumber
    Order_options_async a_request ∅ QUndefined QUndefined Order_table
  = (Return (Paginated
               {| pg_data := [order_row 1 "alice" 10; order_row 3 "alice" 30];
                  pg_total := 2;
                  pg_page := QNumber (number_of_Z 0);
                  pg_limit := QNumber (number_of_Z 100);
                  pg_totalPages := number_of_Z 1 |}),
     logged [FindAndCount (Plain (owned_by "alice"))
               {| fo_offset := Some (Whole 0); fo_limit := Some (Whole 100);
                  fo_orderBy := None |}] Order_table) ∧
  export id sample_matches sample_sort sample_window Order_options a_request ∅
    (replicate 8 false) Order_table
  = (Return ({| res_headers := [("Content-Type", "application/json")];
                res_piped := Chunks [Lit "[";
                                     Stringified (order_row 1 "alice" 10);
                                     Lit ",";
                                     Stringified (order_row 3 "alice" 30);
                                     Lit "]"] |}, Finished),
     logged [FindAndCount (Plain (owned_by "alice"))
               {| fo_offset := Some (Whole 0); fo_limit := Some (Whole 500);
                  fo_orderBy := None |}] Order_table) ∧
  export id sample_matches sample_sort sample_window Order_options_async
    a_request ∅ (replicate 8 false) Order_table
  = (Return ({| res_headers := [("Content-Type", "application/json")];
                res_piped := Chunks [Lit "[";
                                     Stringified (order_row 1 "alice" 10);
                                     Lit ",";
                                     Stringified (order_row 2 "bob" 20);
                                     Lit ",";
                                     Stringified (order_row 3 "alice" 30);
                                     Lit "]"] |}, Finished),
     logged [FindAndCount (Pending (Some (owned_by "alice")))
               {| fo_offset := Some (Whole 0); fo_limit := Some (Whole 500);
                  fo_orderBy := None |}] Order_table).
Proof. repeat split; vm_compute; reflexivity. Qed.

(** C4 without its conditions on the limit and on the offset: a limit of -5
    is kept and handed to the data layer, and no page, however short, has at
    most -5 rows; the limit ["1"] of an unconverted query string reaches the
    data layer as a string; and for [page = limit = 94906267] the offset
    that reaches the data layer is not the product. *)
Lemma query_limit_and_offset_unchecked :
  (∃ p w1,
     query sample_matches sample_sort sample_window sample_ToNumber
       Order_options a_request ∅ QUndefined (QNumber (number_of_Z (-5)))
       Order_table = (Return (Paginated p), w1) ∧
     pg_limit p = QNumber (number_of_Z (-5)) ∧
     quantity_of (pg_limit p) = Whole (-5) ∧
     ¬ (Z.of_nat (length (pg_data p)) ≤ -5)) ∧
  (∃ p w1 o,
     query sample_matches sample_sort sample_window sample_ToNumber
       Order_options a_request ∅ QUndefined (QString "1") Order_table
     = (Return (Paginated p), w1) ∧
     calls w1 = [FindAndCount (Plain (owned_by "alice")) o] ∧
     fo_limit o = Some (NotWhole (QString "1"))) ∧
  (∃ p w1 o,
     query sample_matches sample_sort sample_window sample_ToNumber
       Order_options a_request ∅ (QNumber (number_of_Z 94906267))
       (QNumber (number_of_Z 94906267)) Order_table
     = (Return (Paginated p), w1) ∧
     calls w1 = [FindAndCount (Plain (owned_by "alice")) o] ∧
     fo_offset o = Some (Whole 9007199515875288) ∧
     9007199515875288 ≠ 94906267 * 94906267).
Proof.
  split; [|split].
  - eexists _, _. split; [vm_compute; reflexivity|].
    cbn [pg_limit pg_data].
    repeat split; try (vm_compute; reflexivity). lia.
  - rewrite query_paginated_run by reflexivity.
    eexists _, _, _. split; [reflexivity|].
    cbn [calls fo_limit Order_table app]. split; reflexivity.
  - rewrite query_paginated_run by reflexivity.
    eexists _, _, _. split; [reflexivity|].
    cbn [calls fo_offset Order_table app]. split; [reflexivity|].
    split; [vm_compute; reflexivity | lia].
Qed.


(** C9 for a zero that is a string and for a large page: the string ["0"],
    which is what [?limit=0] is before any conversion, is truthy and stays
    the limit; and for [page = limit = 94906267] the offset that reaches the
    data layer is 9007199515875288, one less than the product. *)
Lemma query_zero_string_and_large_page :
  (∃ p w1,
     query sample_matches sample_sort sample_window sample_ToNumber
       Order_options a_request ∅ QUndefined (QString "0") Order_table
     = (Return (Paginated p), w1) ∧
     pg_limit p = QString "0" ∧
     pg_limit p ≠ QNumber (number_of_Z 100)) ∧
  (∃ p w1 o,
     query sample_matches sample_sort sample_window sample_ToNumber
       Order_options a_request ∅ (QNumber (number_of_Z 94906267))
       (QNumber (number_of_Z 94906267)) Order_table
     = (Return (Paginated p), w1) ∧
     calls w1 = [FindAndCount (Plain (owned_by "alice")) o] ∧
     quantity_of (pg_page p) = Whole 94906267 ∧
     quantity_of (pg_limit p) = Whole 94906267 ∧
     fo_offset o = Some (Whole 9007199515875288) ∧
     9007199515875288 ≠ 94906267 * 94906267).
Proof.
  split.
  - eexists _, _. split; [vm_compute; reflexivity|]. cbn [pg_limit].
    split; [reflexivity | discriminate].
  - rewrite query_paginated_run by reflexivity.
    eexists _, _, _. split; [reflexivity|].
    cbn [calls pg_page pg_limit fo_offset Order_table app].
    split; [reflexivity|].
    repeat split; try (vm_compute; reflexivity). lia.
Qed.

(** ** More examples *)

Lemma no_classes_wf : registry_wf no_classes.
Proof.
  unfold registry_wf, no_classes. cbn.
  split; [|split; [|split]];
    first [intros ? []%elem_of_nil | intros ? ? []%elem_of_nil].
Qed.

Lemma Order_create_registry_wf :
  registry_wf Order_create_registry ∧ next_dto Order_create_registry = 1%nat.
Proof.
  destruct (DefaultCreateDto_grows Order (excluded_properties Order) no_classes)
    as (Hn & Hg).
  split; [exact (grows_wf _ _ no_classes_wf Hg) | exact Hn].
Qed.

Lemma Order_swagger : swagger_lists_its_properties Order.
Proof.
  intros c f b Hc Hf. apply list_elem_of_singleton in Hc as ->.
  cbn in Hf. by rewrite lookup_empty in Hf.
Qed.

Lemma Order_names : NoDup (name <$> properties Order_metadata).
Proof. compute_done. Qed.

Lemma absent_entity_not_found_witness :
  delete_ sample_Number sample_ObjectId sample_matches Order_options
    Order_service a_request ∅ "7" Order_table
  = (Throw (NotFoundException "Order not found"),
     logged [FindOne (Plain (<["id" := CVal (PNum (JNum 7))]>
                               (owned_by "alice")))] Order_table).
Proof.
  apply (absent_entity_not_found sample_Number sample_ObjectId sample_matches
           Order_options Order_service ∅ a_request ∅ "7" (PNum (JNum 7))
           Order_table); reflexivity.
Defined.

Lemma delete_removes_by_key_witness :
  ∃ w1,
    delete_ sample_Number sample_ObjectId sample_matches Order_options
      Order_service a_request ∅ "3" Order_table = (Return tt, w1) ∧
    rows w1 = [order_row 1 "alice" 10; order_row 2 "bob" 20].
Proof.
  destruct (delete_removes_by_key sample_Number sample_ObjectId sample_matches
              Order_options Order_service a_request ∅ "3" (PNum (JNum 3))
              (order_row 3 "alice" 30) Order_table)
    as (w1 & Hrun & Hrows & _); [reflexivity | reflexivity |].
  exists w1. split; [exact Hrun|]. rewrite Hrows. reflexivity.
Defined.

Lemma replace_merges_body_witness :
  ∃ pre post w1,
    replace sample_Number sample_ObjectId sample_matches Order_options
      Order_service {[ "amount" := PNum (JNum 99); "owner" := PUndef ]}
      a_request ∅ "3" Order_table
    = (Return ({[ "amount" := PNum (JNum 99); "owner" := PUndef ]}
               ∪ order_row 3 "alice" 30), w1) ∧
    rows Order_table = pre ++ order_row 3 "alice" 30 :: post ∧
    rows w1 = pre ++ ({[ "amount" := PNum (JNum 99); "owner" := PUndef ]}
                      ∪ order_row 3 "alice" 30) :: post ∧
    ({[ "amount" := PNum (JNum 99); "owner" := PUndef ]}
     ∪ order_row 3 "alice" 30) !! "owner" = Some PUndef.
Proof.
  destruct (replace_merges_body sample_Number sample_ObjectId sample_matches
              Order_options Order_service
              {[ "amount" := PNum (JNum 99); "owner" := PUndef ]}
              a_request ∅ "3" (PNum (JNum 3)) (order_row 3 "alice" 30)
              (order_row 3 "alice" 30) Order_table)
    as (pre & post & w1 & Hrun & Hrows & Hrows1 & Hbody & _);
    [reflexivity | reflexivity | reflexivity |].
  exists pre, post, w1. split; [exact Hrun|]. split; [exact Hrows|].
  split; [exact Hrows1|]. apply Hbody. reflexivity.
Defined.

Lemma service_update_absent_witness :
  service_update sample_matches Order_service
    (Plain {[ "id" := CVal (PNum (JNum 9)) ]})
    {[ "amount" := PNum (JNum 1) ]} Order_table
  = (Throw TypeError,
     logged [FindOne (Plain {[ "id" := CVal (PNum (JNum 9)) ]})] Order_table).
Proof.
  apply (service_update_absent sample_matches Order_service
           (Plain {[ "id" := CVal (PNum (JNum 9)) ]})
           {[ "amount" := PNum (JNum 1) ]} Order_table).
  reflexivity.
Defined.

Lemma query_unpaginated_witness :
  queryUsesPagination Order_options_list = false ∧
  ∃ w1,
    query sample_matches sample_sort sample_window sample_ToNumber
      Order_options_list a_request ∅ (QString "1") (QNumber (number_of_Z 1))
      Order_table
    = (Return (Listed [order_row 1 "alice" 10; order_row 3 "alice" 30]), w1).
Proof.
  split; [reflexivity|].
  rewrite (query_unpaginated sample_matches sample_sort sample_window
             sample_ToNumber Order_options_list a_request ∅ (QString "1")
             (QNumber (number_of_Z 1)) Order_table eq_refl).
  eexists. reflexivity.
Defined.

Lemma intercept_rejects_bad_id_witness :
  intercept sample_Number sample_ObjectId sample_matches (Some Doc_metadata)
    (Some Doc_options) (request_with "_id" "zzz") Doc_table
  = (Throw (BadRequestException "Invalid ObjectId"), Doc_table) ∧
  intercept sample_Number sample_ObjectId sample_matches (Some Order_metadata)
    (Some Order_options) (request_with "id" "abc") Order_table
  = (Throw (BadRequestException "Invalid ID"), Order_table).
Proof.
  split.
  - apply (proj1 (intercept_rejects_bad_id sample_Number sample_ObjectId
                    sample_matches (Some Doc_metadata) Doc_options
                    (request_with "_id" "zzz") "zzz"
                    (key_property "_id" (Some (TName "ObjectId"))) Doc_table
                    eq_refl ltac:(discriminate) eq_refl)); reflexivity.
  - apply (proj2 (intercept_rejects_bad_id sample_Number sample_ObjectId
                    sample_matches (Some Order_metadata) Order_options
                    (request_with "id" "abc") "abc"
                    (key_property "id" (Some (TName "number"))) Order_table
                    eq_refl ltac:(discriminate) eq_refl)); reflexivity.
Defined.

Lemma parseQueryFilters_reads_documented_parameters_witness :
  parseQueryFilters sample_Number sample_Date (<["page" := "3"]> a_query)
    Order_filterConfig Order
  = parseQueryFilters sample_Number sample_Date a_query Order_filterConfig
      Order.
Proof.
  apply (parseQueryFilters_reads_documented_parameters sample_Number
           sample_Date Order Order_filterConfig).
  intros p Hp. vm_compute in Hp.
  repeat (apply elem_of_cons in Hp as [-> | Hp]; [reflexivity|]).
  by apply elem_of_nil in Hp.
Defined.

Lemma parseQueryFilters_condition_origin_witness :
  ∃ meta entry,
    orm_metadata (info Order) = Some meta ∧ entry ∈ Order_filterConfig ∧
    condition_origin meta Order a_query entry "amount".
Proof.
  apply (parseQueryFilters_condition_origin sample_Number sample_Date Order
           Order_filterConfig a_query "amount").
  vm_compute. eexists. reflexivity.
Defined.

Lemma Order_owner_open :
  ¬ auto_generated (plain_property "owner" (Some (TName "string"))) ∧
  ¬ readonly Order "owner" ∧ exposed Order "owner".
Proof.
  split; [|split].
  - by intros [H | [H | [H | [H | H]]]].
  - intros [(c & Hc & H) | [(c & Hc & H) | (c & d & Hc & H & _)]];
      apply list_elem_of_singleton in Hc as ->; cbn in H.
    + by apply not_elem_of_empty in H.
    + by rewrite lookup_empty in H.
    + vm_compute in H. discriminate.
  - unfold exposed.
    destruct (decide (strategy_of Order = excludeAll)) as [_ | Hs];
      [|by destruct Hs].
    exists Order, (exposed_as "owner").
    split; [by left|]. split; [right; by left | by split].
Qed.

(** Of the properties of [Order], the factory excludes the key and keeps
    [owner]. *)
Lemma Order_exclusions :
  "id" ∈ excluded_properties Order ∧ "owner" ∉ excluded_properties Order.
Proof.
  split.
  - apply (proj2 (excluded_properties_spec Order Order_metadata
                    (key_property "id" (Some (TName "number")))
                    eq_refl Order_names Order_swagger ltac:(by left))).
    by left.
  - intros H.
    apply (proj1 (excluded_properties_spec Order Order_metadata
                    (plain_property "owner" (Some (TName "string")))
                    eq_refl Order_names Order_swagger
                    ltac:(right; by left))) in H.
    destruct Order_owner_open as (Ha & Hr & He).
    destruct H as [H | [H | [H | H]]]; [discriminate | tauto..].
Qed.

Lemma DefaultCreateDto_fields_witness :
  has_field Order_create_registry 0 "owner" ∧
  ¬ has_field Order_create_registry 0 "id".
Proof.
  destruct (DefaultCreateDto_fields Order Order_metadata no_classes
              no_classes_wf eq_refl Order_names Order_swagger)
    as (_ & _ & _ & _ & Hfields).
  destruct Order_owner_open as (Ha & Hr & He).
  split.
  - apply Hfields. exists (plain_property "owner" (Some (TName "string"))).
    split; [right; by left|]. by repeat split.
  - intros (prop & Hin & Hname & Hprimary & _)%Hfields.
    cbn in Hin.
    repeat (apply elem_of_cons in Hin as [-> | Hin]; [discriminate|]).
    by apply elem_of_nil in Hin.
Defined.

Lemma DefaultCreateDto_excludes_witness :
  ¬ has_field Order_create_registry 0 "id" ∧
  has_field Order_create_registry 0 "owner".
Proof.
  destruct Order_owner_open as (Ha & Hr & He).
  split.
  - destruct (DefaultCreateDto_excludes Order Order_metadata no_classes
                (key_property "id" (Some (TName "number")))
                no_classes_wf eq_refl Order_names Order_swagger
                ltac:(by left)) as (Hkey & _).
    by apply Hkey.
  - destruct (DefaultCreateDto_excludes Order Order_metadata no_classes
                (plain_property "owner" (Some (TName "string")))
                no_classes_wf eq_refl Order_names Order_swagger
                ltac:(right; by left)) as (_ & _ & _ & _ & _ & Hkeep & _).
    by apply Hkeep.
Defined.

Lemma DefaultCreateDto_required_or_optional_witness :
  ("owner" ∉ excluded_properties Order) ∧
  carries_rule Order_create_registry 0 "owner" IsNotEmpty ∧
  ¬ carries_rule Order_create_registry 0 "owner" IsOptional.
Proof.
  assert (Hnot : "owner" ∉ excluded_properties Order) by compute_done.
  split; [exact Hnot|].
  destruct (DefaultCreateDto_required_or_optional Order Order_metadata
              no_classes (plain_property "owner" (Some (TName "string")))
              no_classes_wf eq_refl Order_names ltac:(right; by left) Hnot)
    as (Hopt & Hreq).
  split; [by apply Hreq|]. by intros H%Hopt.
Defined.

Lemma DefaultUpdateDto_same_fields_witness :
  (0 < next_dto Order_create_registry)%nat ∧
  (has_field (DefaultUpdateDto Order 0 Order_create_registry).2
     (DefaultUpdateDto Order 0 Order_create_registry).1 "owner"
   ↔ has_field (DefaultUpdateDto Order 0 Order_create_registry).2 0 "owner").
Proof.
  destruct Order_create_registry_wf as (Hwf & Hn).
  assert (Hlt : (0 < next_dto Order_create_registry)%nat) by (rewrite Hn; lia).
  split; [exact Hlt|].
  exact (proj2 (DefaultUpdateDto_same_fields Order 0 Order_create_registry
                  Hwf Hlt "owner")).
Defined.

Lemma DefaultUpdateDto_fields_optional_witness :
  has_field (DefaultUpdateDto Order 0 Order_create_registry).2
    (DefaultUpdateDto Order 0 Order_create_registry).1 "amount" ∧
  carries_rule (DefaultUpdateDto Order 0 Order_create_registry).2
    (DefaultUpdateDto Order 0 Order_create_registry).1 "amount" IsOptional.
Proof.
  destruct Order_create_registry_wf as (Hwf & Hn).
  assert (Hlt : (0 < next_dto Order_create_registry)%nat) by (rewrite Hn; lia).
  assert (Hfield : has_field (DefaultUpdateDto Order 0 Order_create_registry).2
                     (DefaultUpdateDto Order 0 Order_create_registry).1
                     "amount") by (right; compute_done).
  split; [exact Hfield|].
  exact (DefaultUpdateDto_fields_optional Order 0 Order_create_registry
           Hwf Hlt "amount" Hfield).
Defined.

Lemma DefaultUpdateDto_keeps_rules_witness :
  has_rule (DefaultUpdateDto Order 0 Order_create_registry).2 0
    "amount" IsNumber None ∧
  has_rule (DefaultUpdateDto Order 0 Order_create_registry).2
    (DefaultUpdateDto Order 0 Order_create_registry).1
    "amount" IsNumber (Some false) ∧
  ¬ has_rule (DefaultUpdateDto Order 0 Order_create_registry).2
      (DefaultUpdateDto Order 0 Order_create_registry).1
      "amount" IsNumber None.
Proof.
  destruct Order_create_registry_wf as (Hwf & Hn).
  assert (Hlt : (0 < next_dto Order_create_registry)%nat) by (rewrite Hn; lia).
  assert (Hrule : has_rule (DefaultUpdateDto Order 0 Order_create_registry).2 0
                    "amount" IsNumber None).
  { exists {| vm_target := 0; vm_propertyName := Some "amount";
              vm_rule := IsNumber; vm_each := None |}.
    split; [compute_done | by repeat split]. }
  split; [exact Hrule|].
  destruct (DefaultUpdateDto_keeps_rules Order 0 Order_create_registry
              Hwf Hlt "amount" IsNumber None Hrule) as (_ & Hcopy).
  destruct (Hcopy ltac:(discriminate)) as (Hfalse & Honly).
  split; [exact Hfalse|]. intros Hnone. by apply Honly in Hnone.
Defined.

Lemma createDtos_leaves_other_classes_witness :
  (0 < next_dto Order_create_registry)%nat ∧
  registry_wf (createDtos Doc_options Order_create_registry).2 ∧
  (has_field (createDtos Doc_options Order_create_registry).2 0 "owner"
   ↔ has_field Order_create_registry 0 "owner").
Proof.
  destruct Order_create_registry_wf as (Hwf & Hn).
  assert (Hlt : (0 < next_dto Order_create_registry)%nat) by (rewrite Hn; lia).
  split; [exact Hlt|].
  destruct (createDtos_leaves_other_classes Doc_options Order_create_registry
              0%nat Hwf ltac:(by intros d [=]) Hlt) as (Hwf' & Hfields & _).
  split; [exact Hwf' | exact (Hfields "owner")].
Defined.

Lemma createDtos_keeps_supplied_witness :
  createDto (createDtos (set_createDto 0 Order_options)
               Order_create_registry).1 = Some 0%nat ∧
  entity (createDtos (set_createDto 0 Order_options)
            Order_create_registry).1 = Order.
Proof.
  destruct (createDtos_keeps_supplied (set_createDto 0 Order_options)
              Order_create_registry) as (He & _ & _ & _ & Hc & _).
  split; [by apply Hc | exact He].
Defined.

Lemma routeToName_clean_witness :
  head (list_ascii_of_string (routeToName "-sales-invoices "))
  = Some "s"%char ∧
  is_space "s" = false.
Proof.
  split; [reflexivity|].
  apply (proj1 (proj2 (routeToName_clean "-sales-invoices ")) "s"%char).
  reflexivity.
Defined.

Lemma path_params_of_segments_witness :
  path_params "/users/:userId/orders/:id" = ["userId"; "id"]%string.
Proof.
  apply (path_params_of_segments a_path). compute_done.
Defined.
